(** * inipp: a shallow embedding of [inipp.h] and the properties of its
    parser, interpolation engine, serializer and typed extraction.

    The character type [CharT] is instantiated to [char]
    ([std::string] is [String.string], a character is [ascii]).
    [std::map] is a list of pairs kept in strictly ascending key order,
    [std::list] is [list].  A loop whose condition may hold for ever
    in C++ ([detail::replace] with an empty pattern) is modelled with
    an iteration budget and gives [None] exactly when the condition
    never fails: the C++ call then has no result, it runs for ever
    when the text stays the same and until [std::string] throws when
    the text grows at every turn. *)

From Stdlib Require Import String Ascii List Bool Arith ZArith Lia.
From Stdlib Require Import OrderedTypeEx.
Import ListNotations.

Open Scope string_scope.

(** ** The small error monad used for calls that may not return *)

Definition bind {A B : Type} (m : option A) (k : A -> option B) : option B :=
  match m with
  | Some a => k a
  | None => None
  end.

Notation "x <- m ;; k" := (bind m (fun x => k))
  (at level 61, m at next level, right associativity).
Notation "' p <- m ;; k" := (bind m (fun x => let p := x in k))
  (at level 61, p pattern, m at next level, right associativity).

(** ** [std::basic_string<char>] operations used by the library *)

Module Str.

(** [std::isspace(ch, loc)] in the "C" locale: space and the
    control characters 9..13 (\t \n \v \f \r). *)
Definition isspace (ch : ascii) : bool :=
  let n := nat_of_ascii ch in
  ((n =? 32) || ((9 <=? n) && (n <=? 13)))%nat.

(** [s.front()] and [s.back()]; [None] on the empty string, where
    the C++ calls are undefined (the library never makes them there). *)
Definition front (s : string) : option ascii :=
  match s with
  | "" => None
  | String c _ => Some c
  end.

Fixpoint back (s : string) : option ascii :=
  match s with
  | "" => None
  | String c "" => Some c
  | String _ r => back r
  end.

(** Drop the first [n] characters. *)
Fixpoint drop (n : nat) (s : string) : string :=
  match n, s with
  | 0, _ => s
  | S _, "" => ""
  | S k, String _ r => drop k r
  end.

(** Keep the first [n] characters. *)
Fixpoint take (n : nat) (s : string) : string :=
  match n, s with
  | 0, _ => ""
  | S _, "" => ""
  | S k, String c r => String c (take k r)
  end.

(** [s.substr(pos, count)]: at most [count] characters from [pos]. *)
Definition substr (s : string) (pos count : nat) : string :=
  take count (drop pos s).

(** [s.find_first_of(ch)]: index of the first [ch], [None] for npos. *)
Fixpoint find_first_of (s : string) (ch : ascii) : option nat :=
  match s with
  | "" => None
  | String c r =>
      if Ascii.eqb c ch then Some 0 else option_map S (find_first_of r ch)
  end.

(** Is [p] a prefix of [s]? *)
Fixpoint starts_with (p s : string) : bool :=
  match p, s with
  | "", _ => true
  | String _ _, "" => false
  | String a p', String b s' => Ascii.eqb a b && starts_with p' s'
  end.

(** [s.find(from, 0)]: the least index at which [from] occurs. *)
Fixpoint find0 (from s : string) : option nat :=
  if starts_with from s then Some 0
  else match s with
       | "" => None
       | String _ r => option_map S (find0 from r)
       end.

(** [s.find(from, pos)]: the least index [>= pos] at which [from]
    occurs; npos ([None]) when there is none or when [pos > s.size()]. *)
Fixpoint find (s from : string) (pos : nat) : option nat :=
  match pos, s with
  | 0, _ => find0 from s
  | S _, "" => None
  | S p, String _ r => option_map S (find r from p)
  end.

(** [s.replace(pos, len, to)]: the characters [pos .. pos+len) give
    way to [to].  ([pos > s.size()] throws in C++; [detail::replace]
    only passes positions returned by [find].) *)
Fixpoint replace_range (s : string) (pos len : nat) (to : string) : string :=
  match pos, s with
  | 0, _ => to ++ drop len s
  | S _, "" => to
  | S p, String c r => String c (replace_range r p len to)
  end.

End Str.

(** ** namespace detail *)

Module detail.

(** [ltrim]: erase the leading run of whitespace. *)
Fixpoint ltrim (s : string) : string :=
  match s with
  | "" => ""
  | String c r => if Str.isspace c then ltrim r else s
  end.

(** [rtrim]: erase from just after the last non-whitespace character
    to the end. *)
Fixpoint rtrim (s : string) : string :=
  match s with
  | "" => ""
  | String c r =>
      match rtrim r with
      | "" => if Str.isspace c then "" else String c ""
      | r' => String c r'
      end
  end.

(** The [while] loop of [detail::replace].  The loop state is
    [(str, start_pos, changed)]; [fuel] bounds the number of times
    the loop condition is evaluated. *)
Fixpoint replace_loop (fuel : nat) (str from to : string)
         (start_pos : nat) (changed : bool) : option (string * bool) :=
  match fuel with
  | 0 => None
  | S fuel' =>
      match Str.find str from start_pos with
      | None => Some (str, changed)
      | Some p =>
          replace_loop fuel'
            (Str.replace_range str p (String.length from) to) from to
            (p + String.length to) true
      end
  end.

(** [detail::replace(str, from, to)]: the new [str] and the returned
    flag.  One more evaluation of the loop condition than [str] has
    characters is enough whenever [from] is not empty
    ([replace_fuel_enough]); with an empty [from] the loop condition
    never fails and no budget is enough
    ([replace_empty_pattern_diverges]). *)
Definition replace (str from to : string) : option (string * bool) :=
  replace_loop (S (String.length str)) str from to 0 false.

(** The loop state [(str, start_pos)] of [detail::replace] after [n]
    turns of the loop; [None] when the loop condition fails before. *)
Fixpoint replace_turns (n : nat) (str from to : string) (start_pos : nat)
  : option (string * nat) :=
  match n with
  | 0 => Some (str, start_pos)
  | S n' =>
      match Str.find str from start_pos with
      | None => None
      | Some p =>
          replace_turns n'
            (Str.replace_range str p (String.length from) to) from to
            (p + String.length to)
      end
  end.

(** What the loop computes, read off the original text: scan left to
    right, at each position where [from] starts emit [to] and skip
    over [from], otherwise keep the character.  The output is never
    looked at again. *)
Fixpoint scan (from to : string) (skip : nat) (s : string) : string :=
  match s with
  | "" => ""
  | String c r =>
      match skip with
      | S k => scan from to k r
      | 0 =>
          if Str.starts_with from s
          then to ++ scan from to (String.length from - 1) r
          else String c (scan from to 0 r)
      end
  end.

Definition replace_all (from to s : string) : string := scan from to 0 s.

(** Does [from] occur in [s]? *)
Definition occurs (from s : string) : bool :=
  match Str.find0 from s with
  | Some _ => true
  | None => false
  end.

End detail.

(** ** [std::map<std::string, V>]

    A [std::map] enumerates its entries in strictly ascending key order
    ([std::less<std::string>], the lexicographic order on characters),
    whatever the order in which they were inserted.  The model is the
    list of entries in enumeration order. *)

Module StdMap.

Definition t (V : Type) : Type := list (string * V).

(** [m.find(k)]: the value at [k], [None] for [end()]. *)
Fixpoint find {V : Type} (k : string) (m : t V) : option V :=
  match m with
  | [] => None
  | (k', v) :: r =>
      match String.compare k k' with
      | Eq => Some v
      | Lt => None
      | Gt => find k r
      end
  end.

(** [m.insert(std::make_pair(k, v))]: adds the entry at its place in
    the order; a key that is present keeps its entry. *)
Fixpoint insert {V : Type} (k : string) (v : V) (m : t V) : t V :=
  match m with
  | [] => [(k, v)]
  | (k', v') :: r =>
      match String.compare k k' with
      | Eq => m
      | Lt => (k, v) :: m
      | Gt => (k', v') :: insert k v r
      end
  end.

(** The effect of [m[k]] on the map: an absent key gets a
    value-initialised entry. *)
Definition subscript {V : Type} (k : string) (dflt : V) (m : t V) : t V :=
  insert k dflt m.

(** A write through the reference returned by [m[k]]: the entry at
    [k] becomes [f] of what it was. *)
Fixpoint update {V : Type} (k : string) (f : V -> V) (m : t V) : t V :=
  match m with
  | [] => []
  | (k', v) :: r =>
      match String.compare k k' with
      | Eq => (k', f v) :: r
      | Lt => m
      | Gt => (k', v) :: update k f r
      end
  end.

Definition keys {V : Type} (m : t V) : list string := map fst m.

(** The representation invariant: keys strictly ascending. *)
Fixpoint ascending (ks : list string) : bool :=
  match ks with
  | [] => true
  | k :: r =>
      match r with
      | [] => true
      | k' :: _ => String.ltb k k' && ascending r
      end
  end.

Definition sorted {V : Type} (m : t V) : bool := ascending (keys m).

(** Every key of [m] is below [k]. *)
Definition below {V : Type} (m : t V) (k : string) : Prop :=
  Forall (fun e => String.compare (fst e) k = Lt) m.

(** Every key of [m] is above [k]. *)
Definition above {V : Type} (k : string) (m : t V) : Prop :=
  Forall (fun e => String.compare k (fst e) = Lt) m.

End StdMap.

(** ** Typed extraction: the two [extract] overloads *)

Module Stream.

(** The formatted input operations of [std::basic_istringstream] that
    [extract] uses, on the unread characters of the stream. *)

(** The whitespace skipped by the sentry of a formatted input
    operation ([skipws] is set on a fresh [istringstream]). *)
Definition skipws (strm : string) : string := detail.ltrim strm.

(** [is >> c] for a character [c]: the first non-whitespace
    character, failing at end of input. *)
Definition read_char (strm : string) : option (ascii * string) :=
  match skipws strm with
  | "" => None
  | String c rest => Some (c, rest)
  end.

Definition isdigit (c : ascii) : bool :=
  let n := nat_of_ascii c in ((48 <=? n) && (n <=? 57))%nat.

Definition digit_value (c : ascii) : Z := Z.of_nat (nat_of_ascii c - 48).

(** The longest run of decimal digits at the start of [s], as a
    number, with the number of digits and the rest. *)
Fixpoint read_digits (acc : Z) (n : nat) (s : string) : Z * nat * string :=
  match s with
  | "" => (acc, n, s)
  | String c r =>
      if isdigit c then read_digits (10 * acc + digit_value c) (S n) r
      else (acc, n, s)
  end.

Definition INT_MIN : Z := - 2 ^ 31.
Definition INT_MAX : Z := 2 ^ 31 - 1.

(** [is >> result] for a 32-bit [int] in the default (decimal) base:
    leading whitespace, an optional sign, at least one digit; a value
    outside the range of [int] sets failbit. *)
Definition read_int (strm : string) : option (Z * string) :=
  let s := skipws strm in
  let '(neg, s1) :=
    match s with
    | String "-" r => (true, r)
    | String "+" r => (false, r)
    | _ => (false, s)
    end in
  let '(v, n, rest) := read_digits 0 0 s1 in
  let r := if neg then (- v)%Z else v in
  if (n =? 0)%nat then None
  else if ((INT_MIN <=? r) && (r <=? INT_MAX))%Z then Some (r, rest)
  else None.

(** [is >> std::boolalpha >> result] for [bool]: leading whitespace,
    then one of the words [true] and [false]. *)
Definition read_bool (strm : string) : option (bool * string) :=
  let s := skipws strm in
  if Str.starts_with "true" s then Some (true, Str.drop 4 s)
  else if Str.starts_with "false" s then Some (false, Str.drop 5 s)
  else None.

End Stream.

Section Extract.

(** The target type [T] and its formatted input operation
    [is >> std::boolalpha >> result]: the value read and the unread
    rest of the stream, or [None] when the stream is left failed. *)
Variable T : Type.
Variable read : string -> option (T * string).

(** [extract(value, dst)] for a scalar [T]: the returned flag and the
    final content of [dst]. *)
Definition extract (value : string) (dst : T) : bool * T :=
  match read value with
  | Some (result, rest) =>
      match Stream.read_char rest with
      | None => (true, result)
      | Some _ => (false, dst)
      end
  | None => (false, dst)
  end.

End Extract.

(** [extract(value, dst)] for a string [dst]. *)
Definition extract_string (value : string) (dst : string) : bool * string :=
  (true, value).

Definition extract_int : string -> Z -> bool * Z := extract Z Stream.read_int.
Definition extract_bool : string -> bool -> bool * bool :=
  extract bool Stream.read_bool.

(** ** class CharTypeErased

    [CharTypeErased(&front)] wraps the address of a character in a
    [TEChar<const char*>]; [equals(other)] passes the address of [other]
    on to [TEChar::equals], which finds both pointers non-null and
    compares the characters they point to. *)

Module CharTypeErased.

Definition equals (m_ch other : ascii) : bool := Ascii.eqb m_ch other.

End CharTypeErased.

(** ** class Ini<char> *)

Module Ini.

Definition IniSection : Type := StdMap.t string.
Definition Sections : Type := StdMap.t IniSection.
Definition Symbols : Type := list (string * string).

(** The two data members, [sections] and [errors]. *)
Record t : Type := mk { sections : Sections; errors : list string }.

Definition empty : t := mk [] [].

Definition char_section_start : ascii := "[".
Definition char_section_end : ascii := "]".
Definition char_assign : ascii := "=".
Definition char_comment : ascii := ";".
Definition char_interpol : ascii := "$".
Definition char_interpol_start : ascii := "{".
Definition char_interpol_sep : ascii := ":".
Definition char_interpol_end : ascii := "}".

Definition max_interpolation_depth : Z := 10.

(** [std::endl] writes a newline. *)
Definition endl : string := String "010" "".

(** [Ini::is_comment], the override of the pure virtual
    [CommentCheckable::is_comment]. *)
Definition is_comment (che : ascii) : bool :=
  CharTypeErased.equals che char_comment.

(** *** generate *)

Definition generate_values (sec : IniSection) : string :=
  fold_right
    (fun val os => fst val ++ String char_assign (snd val) ++ endl ++ os)
    "" sec.

Definition generate (secs : Sections) : string :=
  fold_right
    (fun sec os =>
       String char_section_start (fst sec) ++ String char_section_end endl
         ++ generate_values (snd sec) ++ endl ++ os)
    "" secs.

(** *** parse *)

(** The lines that successive [std::getline(is, line)] calls deliver
    until one fails: the text is cut at each newline, and a last line
    without a newline is delivered when it is not empty. *)
Fixpoint getlines (strm : string) : list string :=
  match strm with
  | "" => []
  | String c r =>
      if Ascii.eqb c "010" then "" :: getlines r
      else match getlines r with
           | [] => [String c ""]
           | l :: ls => String c l :: ls
           end
  end.

(** [ltrim] then [rtrim], as at the top of the loop of [parse]. *)
Definition trim (raw : string) : string := detail.rtrim (detail.ltrim raw).

Definition push_error (ini : t) (line : string) : t :=
  mk (sections ini) (errors ini ++ [line]).

(** The key-value branch of the loop of [parse]: [sections[section]]
    is looked up (and created when absent), then [variable] is
    inserted or, when it is there already, the line is logged. *)
Definition define (ini : t) (section line variable value : string)
  : t * string :=
  let sections1 := StdMap.subscript section ([] : IniSection) (sections ini) in
  let sec :=
    match StdMap.find section sections1 with
    | Some s => s
    | None => ([] : IniSection)
    end in
  match StdMap.find variable sec with
  | None =>
      (mk (StdMap.update section (StdMap.insert variable value) sections1)
          (errors ini),
       section)
  | Some _ => (push_error (mk sections1 (errors ini)) line, section)
  end.

(** One turn of the [while] loop of [parse], parametrised by the
    virtual [is_comment]; the state is the object and the local
    [section]. *)
Definition parse_line (is_comment : ascii -> bool)
           (st : t * string) (raw : string) : t * string :=
  let '(ini, section) := st in
  let line := trim raw in
  let length := String.length line in
  match Str.front line with
  | None => st
  | Some front =>
      let pos := Str.find_first_of line char_assign in
      if is_comment front then st
      else if Ascii.eqb front char_section_start then
        if match Str.back line with
           | Some b => Ascii.eqb b char_section_end
           | None => false
           end
        then (ini, Str.substr line 1 (length - 2))
        else (push_error ini line, section)
      else
        match pos with
        | Some (S p) =>
            let pos := S p in
            let variable := detail.rtrim (Str.substr line 0 pos) in
            let value := detail.ltrim (Str.substr line (pos + 1) length) in
            define ini section line variable value
        | _ => (push_error ini line, section)
        end
  end.

Definition parse_lines (is_comment : ascii -> bool)
           (lines : list string) (st : t * string) : t * string :=
  fold_left (parse_line is_comment) lines st.

(** [parse(is)] on the object [ini]; the local [section] starts empty. *)
Definition parse (strm : string) (ini : t) : t :=
  fst (parse_lines is_comment (getlines strm) (ini, "")).

(** The key and the value that a line defines: those inserted when
    the loop of [parse] takes its key-value branch on the line. *)
Definition key_value (raw : string) : option (string * string) :=
  let line := trim raw in
  match Str.front line with
  | None => None
  | Some front =>
      if is_comment front then None
      else if Ascii.eqb front char_section_start then None
      else
        match Str.find_first_of line char_assign with
        | Some (S p) =>
            Some (detail.rtrim (Str.substr line 0 (S p)),
                  detail.ltrim
                    (Str.substr line (S p + 1) (String.length line)))
        | _ => None
        end
  end.

(** [sections.at(name).at(key)], [None] when either is absent. *)
Definition lookup (name key : string) (secs : Sections) : option string :=
  match StdMap.find name secs with
  | Some sec => StdMap.find key sec
  | None => None
  end.

(** The invariant of the two levels of [std::map]: section names in
    ascending order, and the keys of every section in ascending order. *)
Definition wf (secs : Sections) : bool :=
  StdMap.sorted secs && forallb (fun sec => StdMap.sorted (snd sec)) secs.

(** *** interpolate *)

Definition local_symbol (name : string) : string :=
  String char_interpol
    (String char_interpol_start name ++ String char_interpol_end "").

Definition global_symbol (sec_name name : string) : string :=
  local_symbol (sec_name ++ String char_interpol_sep name).

Definition local_symbols (sec_name : string) (sec : IniSection) : Symbols :=
  map (fun val => (local_symbol (fst val), global_symbol sec_name (fst val)))
      sec.

Definition global_symbols (secs : Sections) : Symbols :=
  flat_map
    (fun sec => map (fun val => (global_symbol (fst sec) (fst val), snd val))
                    (snd sec))
    secs.

(** The inner loop of [replace_symbols]: one symbol over every value
    of the section. *)
Fixpoint replace_symbol (from to : string) (sec : IniSection)
  : option (IniSection * bool) :=
  match sec with
  | [] => Some ([], false)
  | (k, v) :: r =>
      '(v', c1) <- detail.replace v from to ;;
      '(r', c2) <- replace_symbol from to r ;;
      Some ((k, v') :: r', c1 || c2)
  end.

Fixpoint replace_symbols (syms : Symbols) (sec : IniSection)
  : option (IniSection * bool) :=
  match syms with
  | [] => Some (sec, false)
  | (from, to) :: rest =>
      '(sec1, c1) <- replace_symbol from to sec ;;
      '(sec2, c2) <- replace_symbols rest sec1 ;;
      Some (sec2, c1 || c2)
  end.

(** The first [for] loop of [interpolate]. *)
Fixpoint localize (secs : Sections) : option Sections :=
  match secs with
  | [] => Some []
  | (name, sec) :: r =>
      '(sec', _) <- replace_symbols (local_symbols name sec) sec ;;
      r' <- localize r ;;
      Some ((name, sec') :: r')
  end.

(** The [for] loop in the body of the [do] loop. *)
Fixpoint resolve (syms : Symbols) (secs : Sections)
  : option (Sections * bool) :=
  match secs with
  | [] => Some ([], false)
  | (name, sec) :: r =>
      '(sec', c1) <- replace_symbols syms sec ;;
      '(r', c2) <- resolve syms r ;;
      Some ((name, sec') :: r', c1 || c2)
  end.

(** The body of the [do] loop: the symbol table is built from the
    values as they stand, then applied to every section. *)
Definition global_pass (secs : Sections) : option (Sections * bool) :=
  resolve (global_symbols secs) secs.

(** The [do ... while] loop.  [global_iteration] is the C++ counter
    (it stays below 12, far from the range of [int]); it is compared
    and then incremented only when [changed] holds.  [passes] counts
    the executions of the loop body and is returned next to the
    sections.  [fuel] bounds the executions of the body. *)
Fixpoint interpolate_loop (fuel : nat) (global_iteration : Z) (passes : nat)
         (secs : Sections) : option (Sections * nat) :=
  match fuel with
  | 0 => None
  | S fuel' =>
      '(secs', changed) <- global_pass secs ;;
      if changed && (max_interpolation_depth >? global_iteration)%Z
      then interpolate_loop fuel' (global_iteration + 1) (S passes) secs'
      else Some (secs', S passes)
  end.

(** [interpolate()], with the number of executions of the loop body. *)
Definition interpolate_passes (ini : t) : option (t * nat) :=
  secs1 <- localize (sections ini) ;;
  '(secs2, passes) <-
    interpolate_loop (Z.to_nat max_interpolation_depth + 2) 0 0 secs1 ;;
  Some (mk secs2 (errors ini), passes).

Definition interpolate (ini : t) : option t :=
  option_map fst (interpolate_passes ini).

(** *** default_section *)

(** The inner [for] loop: every pair of [sec] inserted into [sec2]. *)
Definition merge (sec sec2 : IniSection) : IniSection :=
  fold_left (fun s val => StdMap.insert (fst val) (snd val) s) sec sec2.

Definition default_section (sec : IniSection) (ini : t) : t :=
  mk (map (fun sec2 => (fst sec2, merge sec (snd sec2))) (sections ini))
     (errors ini).

(** *** clear *)

Definition clear (ini : t) : t := empty.

End Ini.


(** ** class VisualBasicIni

    The derived class of the usage note at the end of the header: its
    [is_comment] also accepts the apostrophe. *)

Module VisualBasicIni.

Definition m_comment_chars : list ascii := [Ini.char_comment; "'"%char].

Definition is_comment (chg : ascii) : bool :=
  fold_left (fun ret c => if CharTypeErased.equals chg c then true else ret)
            m_comment_chars false.

Definition parse (strm : string) (ini : Ini.t) : Ini.t :=
  fst (Ini.parse_lines is_comment (Ini.getlines strm) (ini, "")).

End VisualBasicIni.

(** ** Closed forms of the interpolation loops

    What the loops of [interpolate] compute when every call of
    [detail::replace] returns; they are used to state the properties
    and are proved equal to the loops. *)

Module Closed.

(** [f] applied to every value of a section. *)
Definition map_values (f : string -> string) (sec : Ini.IniSection)
  : Ini.IniSection :=
  map (fun val => (fst val, f (snd val))) sec.

(** One value taken through a symbol table: symbol after symbol, every
    occurrence of the pattern gives way to the replacement. *)
Definition apply_symbols (syms : Ini.Symbols) (v : string) : string :=
  fold_left (fun s sym => detail.replace_all (fst sym) (snd sym) s) syms v.

(** [n] copies of a text, one behind the other. *)
Fixpoint copies (n : nat) (s : string) : string :=
  match n with
  | 0 => ""
  | S n' => s ++ copies n' s
  end.

Definition nonempty_patterns (syms : Ini.Symbols) : Prop :=
  Forall (fun sym => fst sym <> "") syms.

(** The localization of one section. *)
Definition localize_section (name : string) (sec : Ini.IniSection)
  : Ini.IniSection :=
  map_values (apply_symbols (Ini.local_symbols name sec)) sec.

End Closed.

(** ** The shape of a parsed Document

    What [parse] guarantees about the sections it builds, and the lines
    that [generate] writes for them. *)

Module Canonical.

(** The character [ch] does not occur in [s]. *)
Fixpoint no_char (ch : ascii) (s : string) : bool :=
  match s with
  | "" => true
  | String c r => negb (Ascii.eqb c ch) && no_char ch r
  end.

Definition newline : ascii := "010".

(** A key as [parse] stores it: it starts with a character that is
    neither whitespace nor a comment or section marker, has no [=] and
    no newline, and does not end in whitespace. *)
Definition key (k : string) : bool :=
  match Str.front k with
  | None => false
  | Some c =>
      negb (Str.isspace c) && negb (Ini.is_comment c)
      && negb (Ascii.eqb c Ini.char_section_start)
  end
  && no_char Ini.char_assign k && no_char newline k
  && String.eqb (detail.rtrim k) k.

(** A value as [parse] stores it: no newline, no whitespace at either
    end. *)
Definition value (v : string) : bool :=
  no_char newline v && String.eqb (detail.ltrim v) v
  && String.eqb (detail.rtrim v) v.

Definition entry (val : string * string) : bool :=
  key (fst val) && value (snd val).

Definition section (sec : string * Ini.IniSection) : bool :=
  no_char newline (fst sec)
  && match snd sec with [] => false | _ :: _ => true end
  && StdMap.sorted (snd sec)
  && forallb entry (snd sec).

Definition sections (secs : Ini.Sections) : bool :=
  StdMap.sorted secs && forallb section secs.

(** The lines of [generate]: per section the header, one line per
    pair, and an empty line. *)
Definition header_line (name : string) : string :=
  String Ini.char_section_start (name ++ String Ini.char_section_end "").

Definition value_line (val : string * string) : string :=
  fst val ++ String Ini.char_assign (snd val).

Definition section_lines (sec : string * Ini.IniSection) : list string :=
  (header_line (fst sec) :: map value_line (snd sec) ++ [""])%list.

Definition lines (secs : Ini.Sections) : list string :=
  flat_map section_lines secs.

End Canonical.

(** ** Predicates on texts and Documents used by the further properties *)

Module Text.

(** Every character of [s] is whitespace. *)
Fixpoint all_space (s : string) : bool :=
  match s with
  | "" => true
  | String c r => Str.isspace c && all_space r
  end.

(** A name without any of the characters that delimit a reference. *)
Definition plain (s : string) : bool :=
  Canonical.no_char Ini.char_interpol s
  && Canonical.no_char Ini.char_interpol_sep s
  && Canonical.no_char Ini.char_interpol_end s.

(** Every section name and every key is plain. *)
Definition plain_names (secs : Ini.Sections) : bool :=
  forallb
    (fun sec => plain (fst sec) && forallb (fun val => plain (fst val)) (snd sec))
    secs.

(** No value holds the character that starts a reference. *)
Definition literal_values (secs : Ini.Sections) : bool :=
  forallb
    (fun sec =>
       forallb (fun val => Canonical.no_char Ini.char_interpol (snd val))
               (snd sec))
    secs.

(** The sections that have at least one pair. *)
Definition nonempty_sections (secs : Ini.Sections) : Ini.Sections :=
  filter (fun sec => match snd sec with [] => false | _ :: _ => true end) secs.

(** The shape of [Canonical.section], a section without pairs allowed. *)
Definition section_or_empty (sec : string * Ini.IniSection) : bool :=
  Canonical.no_char Canonical.newline (fst sec)
  && StdMap.sorted (snd sec)
  && forallb Canonical.entry (snd sec).

Definition sections_or_empty (secs : Ini.Sections) : bool :=
  StdMap.sorted secs && forallb section_or_empty secs.

(** The section names of a Document, each with the keys of the section. *)
Definition shape (secs : Ini.Sections) : list (string * list string) :=
  map (fun sec => (fst sec, StdMap.keys (snd sec))) secs.

(** The Document has its maps in order and plain names, holds [v] at
    key [k] of section [A] and [x] at key [j] of section [B]. *)
Definition holds (A k v B j x : string) (secs : Ini.Sections) : Prop :=
  Ini.wf secs = true /\ plain_names secs = true
  /\ Ini.lookup A k secs = Some v /\ Ini.lookup B j secs = Some x.

(** Every pattern of the symbol table starts with [$]. *)
Definition dollar_patterns (syms : Ini.Symbols) : Prop :=
  Forall (fun sym => Str.front (fst sym) = Some Ini.char_interpol) syms.

End Text.

(** ** References in a value

    The localization pass as the specification words it, one scan of
    the value, and the reading of a value as characters and closed
    references that relates the scan to the loops of the code. *)

Module References.












End References.
(** * Properties *)

(** ** Strings *)

Module StrFacts.

Lemma append_assoc (a b c : string) : (a ++ b) ++ c = a ++ (b ++ c).
Proof. induction a as [|x a IH]; simpl; [reflexivity | now rewrite IH]. Qed.

Lemma append_nil_r (a : string) : a ++ "" = a.
Proof. induction a as [|x a IH]; simpl; [reflexivity | now rewrite IH]. Qed.

Lemma length_append (a b : string) :
  String.length (a ++ b) = String.length a + String.length b.
Proof. induction a as [|x a IH]; simpl; [reflexivity | now rewrite IH]. Qed.

Lemma drop_append (a b : string) : Str.drop (String.length a) (a ++ b) = b.
Proof. induction a as [|x a IH]; simpl; [now destruct b | exact IH]. Qed.

Lemma take_append (a b : string) : Str.take (String.length a) (a ++ b) = a.
Proof.
  induction a as [|x a IH]; simpl; [now destruct b | now rewrite IH].
Qed.

Lemma take_all (a : string) : Str.take (String.length a) a = a.
Proof. induction a as [|x a IH]; simpl; [reflexivity | now rewrite IH]. Qed.

Lemma starts_with_append (p w : string) : Str.starts_with p (p ++ w) = true.
Proof.
  induction p as [|x p IH]; simpl; [reflexivity|].
  now rewrite Ascii.eqb_refl, IH.
Qed.

Lemma starts_with_split (p s : string) :
  Str.starts_with p s = true -> s = p ++ Str.drop (String.length p) s.
Proof.
  revert s; induction p as [|x p IH]; intros [|y s]; simpl;
    try reflexivity; try discriminate.
  intros H. apply andb_true_iff in H as [Hxy Hp].
  apply Ascii.eqb_eq in Hxy. subst y. f_equal. now apply IH.
Qed.

(** [find0] returns the position of an occurrence. *)
Lemma find0_Some (from s : string) (n : nat) :
  Str.find0 from s = Some n ->
  exists u w, s = u ++ from ++ w /\ String.length u = n.
Proof.
  revert n; induction s as [|c s IH]; intros n; simpl.
  - destruct (Str.starts_with from "") eqn:E; [|discriminate].
    intros [= <-]. exists "", "". split; [|reflexivity].
    destruct from; [reflexivity | discriminate].
  - destruct (Str.starts_with from (String c s)) eqn:E.
    + intros [= <-]. exists "", (Str.drop (String.length from) (String c s)).
      split; [|reflexivity]. simpl. now apply starts_with_split.
    + destruct (Str.find0 from s) as [m|] eqn:F; simpl; [|discriminate].
      intros [= <-]. destruct (IH m eq_refl) as (u & w & -> & Hu).
      exists (String c u), w. simpl. now rewrite Hu.
Qed.

Lemma find_append (a b from : string) :
  Str.find (a ++ b) from (String.length a) =
  option_map (Nat.add (String.length a)) (Str.find0 from b).
Proof.
  induction a as [|x a IH]; simpl.
  - destruct b; cbn [Str.find append String.length option_map];
      now destruct (Str.find0 from _).
  - cbn [Str.find append String.length]. rewrite IH.
    now destruct (Str.find0 from b).
Qed.

Lemma replace_range_append (a b to : string) (n len : nat) :
  Str.replace_range (a ++ b) (String.length a + n) len to =
  a ++ Str.replace_range b n len to.
Proof. induction a as [|x a IH]; simpl; [reflexivity | now rewrite IH]. Qed.

Lemma replace_range_occurrence (u from w to : string) :
  Str.replace_range (u ++ from ++ w) (String.length u) (String.length from) to
  = u ++ to ++ w.
Proof.
  rewrite <- (Nat.add_0_r (String.length u)), replace_range_append.
  f_equal. simpl.
  replace (Str.replace_range (from ++ w) 0 (String.length from) to)
    with (to ++ Str.drop (String.length from) (from ++ w))
    by now destruct (from ++ w).
  now rewrite drop_append.
Qed.

Lemma back_split (s : string) (c : ascii) :
  Str.back s = Some c ->
  s = Str.take (String.length s - 1) s ++ String c "".
Proof.
  induction s as [|a s IH]; [discriminate|].
  destruct s as [|b r].
  - now intros [= ->].
  - intros H. change (Str.back (String a (String b r)))
      with (Str.back (String b r)) in H.
    apply IH in H. cbn [String.length Nat.sub] in *.
    rewrite Nat.sub_0_r in *. cbn [Str.take append]. f_equal. exact H.
Qed.

End StrFacts.

(** ** detail::replace *)

Module ReplaceFacts.
Import StrFacts.

Lemma scan_skip (from to f w : string) :
  detail.scan from to (String.length f) (f ++ w) = detail.scan from to 0 w.
Proof. induction f as [|x f IH]; simpl; [now destruct w | exact IH]. Qed.

(** Where [from] does not occur, nothing is rewritten. *)
Lemma scan_absent (from to s : string) :
  Str.find0 from s = None -> detail.scan from to 0 s = s.
Proof.
  induction s as [|c s IH]; [reflexivity|].
  unfold Str.find0; fold Str.find0. unfold detail.scan; fold detail.scan.
  destruct (Str.starts_with from (String c s)); [discriminate|].
  destruct (Str.find0 from s); [discriminate|].
  intros _. now rewrite IH.
Qed.

(** The leftmost occurrence gives way to [to]; the scan goes on behind
    the occurrence, in the original text. *)
Lemma scan_first (from to u w : string) :
  from <> "" ->
  Str.find0 from (u ++ from ++ w) = Some (String.length u) ->
  detail.scan from to 0 (u ++ from ++ w) = u ++ to ++ detail.scan from to 0 w.
Proof.
  intros Hne. induction u as [|c u IH].
  - intros _. destruct from as [|x f]; [congruence|].
    cbn [append detail.scan].
    change (String x (f ++ w)) with (String x f ++ w).
    rewrite starts_with_append. cbn [String.length Nat.sub].
    rewrite Nat.sub_0_r. now rewrite scan_skip.
  - cbn [append String.length]. unfold Str.find0; fold Str.find0.
    unfold detail.scan; fold detail.scan.
    destruct (Str.starts_with from (String c (u ++ from ++ w)));
      [discriminate|].
    destruct (Str.find0 from (u ++ from ++ w)) as [m|]; [|discriminate].
    simpl. intros [= ->]. now rewrite IH.
Qed.

(** The loop, started behind an already rewritten part [a]. *)
Lemma replace_loop_spec (from to : string) :
  from <> "" ->
  forall fuel a b changed,
    String.length b < fuel ->
    detail.replace_loop fuel (a ++ b) from to (String.length a) changed =
    Some (a ++ detail.scan from to 0 b, changed || detail.occurs from b).
Proof.
  intros Hne. induction fuel as [|fuel IH]; intros a b changed Hlt; [lia|].
  cbn [detail.replace_loop]. rewrite find_append. unfold detail.occurs.
  destruct (Str.find0 from b) as [n|] eqn:F; cbn [option_map].
  - destruct (find0_Some _ _ _ F) as (u & w & -> & Hu). subst n.
    rewrite <- length_append, <- append_assoc, replace_range_occurrence.
    rewrite <- length_append.
    replace ((a ++ u) ++ to ++ w) with (((a ++ u) ++ to) ++ w)
      by now rewrite !append_assoc.
    rewrite IH.
    + rewrite (scan_first from to u w Hne F), orb_true_r.
      unfold detail.occurs. rewrite !append_assoc.
      now destruct (Str.find0 from w).
    + rewrite !length_append in Hlt.
      destruct from; [congruence | simpl in Hlt; lia].
  - now rewrite (scan_absent _ _ _ F), orb_false_r.
Qed.

Lemma replace_loop_fuel (from to str : string) (fuel : nat) :
  from <> "" -> String.length str < fuel ->
  detail.replace_loop fuel str from to 0 false =
  Some (detail.replace_all from to str, detail.occurs from str).
Proof.
  intros Hne Hlt.
  exact (replace_loop_spec from to Hne fuel "" str false Hlt).
Qed.

Lemma replace_fuel_enough (str from to : string) :
  from <> "" ->
  detail.replace str from to =
  Some (detail.replace_all from to str, detail.occurs from str).
Proof. intros Hne. apply replace_loop_fuel; [assumption | lia]. Qed.

(** With an empty pattern every evaluation of the loop condition finds
    a match: no budget gives a result. *)
Lemma replace_empty_pattern_diverges (to : string) :
  forall fuel str pos changed,
    pos <= String.length str ->
    detail.replace_loop fuel str "" to pos changed = None.
Proof.
  induction fuel as [|fuel IH]; intros str pos changed Hle; [reflexivity|].
  cbn [detail.replace_loop].
  rewrite <- (take_all str) in Hle.
  assert (Hsplit : exists a b, str = a ++ b /\ String.length a = pos).
  { clear -Hle. revert pos Hle. induction str as [|c s IHs]; intros pos Hle.
    - exists "", "". simpl in *. split; [reflexivity | lia].
    - destruct pos as [|pos].
      + exists "", (String c s). now split.
      + simpl in Hle. rewrite take_all in Hle.
        destruct (IHs pos) as (a & b & -> & Ha).
        { rewrite take_all. lia. }
        exists (String c a), b. simpl. now rewrite Ha. }
  destruct Hsplit as (a & b & -> & <-).
  rewrite find_append.
  assert (F : Str.find0 "" b = Some 0) by now destruct b.
  rewrite F. cbn [option_map String.length]. rewrite Nat.add_0_r.
  pose proof (replace_range_occurrence a "" b to) as R. simpl in R.
  rewrite R. apply IH. rewrite !length_append. lia.
Qed.

End ReplaceFacts.

(** ** std::map *)

Module MapFacts.

Lemma compare_refl (k : string) : String.compare k k = Eq.
Proof. now apply String_as_OT.cmp_eq. Qed.

Lemma compare_eq (a b : string) : String.compare a b = Eq -> a = b.
Proof. apply String_as_OT.cmp_eq. Qed.

Lemma compare_gt_lt (a b : string) :
  String.compare a b = Gt <-> String.compare b a = Lt.
Proof.
  rewrite (String.compare_antisym a b).
  destruct (String.compare b a); simpl; split; congruence.
Qed.

Lemma compare_lt_trans (a b c : string) :
  String.compare a b = Lt -> String.compare b c = Lt ->
  String.compare a c = Lt.
Proof.
  intros H1 H2. apply String_as_OT.cmp_lt.
  apply String_as_OT.lt_trans with b; now apply String_as_OT.cmp_lt.
Qed.

Lemma ltb_lt (a b : string) : String.ltb a b = true <-> String.compare a b = Lt.
Proof. unfold String.ltb. destruct (String.compare a b); split; congruence. Qed.

Import StdMap.

Section Facts.
Context {V : Type}.
Local Open Scope list_scope.
Implicit Types (m r : StdMap.t V) (k : string) (v : V).

Lemma sorted_cons k v m :
  StdMap.sorted ((k, v) :: m) = true <->
  above k m /\ StdMap.sorted m = true.
Proof.
  revert k v. induction m as [|[k' v'] m IH]; intros k v.
  - split; [intros _; split; [constructor | reflexivity] | reflexivity].
  - change (StdMap.sorted ((k, v) :: (k', v') :: m))
      with (String.ltb k k' && StdMap.sorted ((k', v') :: m)).
    rewrite andb_true_iff, ltb_lt. split.
    + intros [Hlt Hs]. split; [|assumption].
      constructor; [assumption|].
      apply IH in Hs as [Hab _].
      eapply Forall_impl; [|exact Hab].
      intros e He. now apply compare_lt_trans with k'.
    + intros [Hab Hs]. split; [|assumption]. now inversion Hab.
Qed.

Lemma sorted_tail k v m :
  StdMap.sorted ((k, v) :: m) = true -> StdMap.sorted m = true.
Proof. intros H. now apply sorted_cons in H. Qed.

Lemma find_above k m : above k m -> StdMap.find k m = None.
Proof.
  destruct m as [|[k' v'] m]; [reflexivity|].
  intros H. inversion H as [|? ? Hlt _]; subst. simpl in *. now rewrite Hlt.
Qed.

Lemma Forall_insert (P : string * V -> Prop) k v m :
  P (k, v) -> Forall P m -> Forall P (StdMap.insert k v m).
Proof.
  intros Hk. induction m as [|[k0 v0] m IH]; intros H; cbn [StdMap.insert].
  - now constructor.
  - destruct (String.compare k k0); [assumption | now constructor |].
    inversion H; subst. constructor; auto.
Qed.

Lemma keys_insert_sorted k v m :
  StdMap.sorted m = true -> StdMap.sorted (StdMap.insert k v m) = true.
Proof.
  induction m as [|[k' v'] m IH]; intros Hs; [reflexivity|].
  cbn [StdMap.insert]. destruct (String.compare k k') eqn:C.
  - assumption.
  - apply sorted_cons. split; [|assumption].
    apply sorted_cons in Hs as [Hab _]. constructor; [assumption|].
    eapply Forall_impl; [|exact Hab].
    intros e He. now apply compare_lt_trans with k'.
  - apply sorted_cons in Hs as [Hab Hs]. apply sorted_cons.
    split; [|now apply IH].
    apply compare_gt_lt in C. apply Forall_insert; assumption.
Qed.

(** [insert] adds at [k] only where [k] is absent and leaves the
    other keys alone. *)
Lemma find_insert k k' v m :
  StdMap.sorted m = true ->
  StdMap.find k (StdMap.insert k' v m) =
  if String.eqb k k'
  then match StdMap.find k m with Some x => Some x | None => Some v end
  else StdMap.find k m.
Proof.
  induction m as [|[k0 v0] m IH]; intros Hs.
  - cbn [StdMap.insert StdMap.find].
    destruct (String.eqb_spec k k') as [->|Hne].
    + now rewrite compare_refl.
    + destruct (String.compare k k') eqn:C; try reflexivity.
      now apply compare_eq in C.
  - cbn [StdMap.insert]. destruct (String.compare k' k0) eqn:C.
    + apply compare_eq in C. subst k0.
      destruct (String.eqb_spec k k') as [->|Hne]; [|reflexivity].
      cbn [StdMap.find]. now rewrite compare_refl.
    + cbn [StdMap.find].
      destruct (String.eqb_spec k k') as [->|Hne].
      * now rewrite compare_refl, C.
      * destruct (String.compare k k') eqn:C'.
        -- now apply compare_eq in C'.
        -- now rewrite (compare_lt_trans _ _ _ C' C).
        -- reflexivity.
    + cbn [StdMap.find]. destruct (String.compare k k0) eqn:C'.
      * destruct (String.eqb_spec k k') as [->|Hne]; [congruence | reflexivity].
      * destruct (String.eqb_spec k k') as [->|Hne]; [congruence | reflexivity].
      * apply IH. now apply sorted_tail in Hs.
Qed.

Lemma insert_present k v x m :
  StdMap.find k m = Some x -> StdMap.insert k v m = m.
Proof.
  induction m as [|[k0 v0] m IH]; [discriminate|].
  cbn [StdMap.find StdMap.insert].
  destruct (String.compare k k0); [reflexivity | discriminate |].
  intros H. now rewrite IH.
Qed.

Lemma keys_update k (f : V -> V) m :
  StdMap.keys (StdMap.update k f m) = StdMap.keys m.
Proof.
  induction m as [|[k0 v0] m IH]; [reflexivity|].
  cbn [StdMap.update]. destruct (String.compare k k0); try reflexivity.
  unfold StdMap.keys in *. simpl. now rewrite IH.
Qed.

Lemma find_update k k' (f : V -> V) m :
  StdMap.find k (StdMap.update k' f m) =
  if String.eqb k k' then option_map f (StdMap.find k m)
  else StdMap.find k m.
Proof.
  induction m as [|[k0 v0] m IH].
  - now destruct (String.eqb k k').
  - cbn [StdMap.update]. destruct (String.compare k' k0) eqn:C.
    + apply compare_eq in C. subst k0. cbn [StdMap.find].
      destruct (String.eqb_spec k k') as [->|Hne].
      * now rewrite compare_refl.
      * destruct (String.compare k k') eqn:C; try reflexivity.
        now apply compare_eq in C.
    + destruct (String.eqb_spec k k') as [->|Hne]; [|reflexivity].
      cbn [StdMap.find]. now rewrite C.
    + cbn [StdMap.find]. rewrite IH.
      destruct (String.eqb_spec k k') as [->|Hne]; [|reflexivity].
      now rewrite C.
Qed.

(** Appending at the upper end. *)
Lemma insert_last k v m : below m k -> StdMap.insert k v m = m ++ [(k, v)].
Proof.
  induction m as [|[k0 v0] m IH]; intros H; [reflexivity|].
  inversion H as [|? ? Hlt Hr]; subst. simpl in Hlt.
  apply compare_gt_lt in Hlt. cbn [StdMap.insert]. rewrite Hlt.
  now rewrite IH.
Qed.

Lemma find_last k v m : below m k -> StdMap.find k (m ++ [(k, v)]) = Some v.
Proof.
  induction m as [|[k0 v0] m IH]; intros H.
  - simpl. now rewrite compare_refl.
  - inversion H as [|? ? Hlt Hr]; subst. simpl in Hlt.
    apply compare_gt_lt in Hlt. simpl. rewrite Hlt. now apply IH.
Qed.

Lemma find_below k m : below m k -> StdMap.find k m = None.
Proof.
  induction m as [|[k0 v0] m IH]; intros H; [reflexivity|].
  inversion H as [|? ? Hlt Hr]; subst. simpl in Hlt.
  apply compare_gt_lt in Hlt. simpl. rewrite Hlt. now apply IH.
Qed.

Lemma insert_last_present k v v' m :
  below m k -> StdMap.insert k v' (m ++ [(k, v)]) = m ++ [(k, v)].
Proof.
  intros H. apply insert_present with v. now apply find_last.
Qed.

Lemma update_last k v (f : V -> V) m :
  below m k -> StdMap.update k f (m ++ [(k, v)]) = m ++ [(k, f v)].
Proof.
  induction m as [|[k0 v0] m IH]; intros H.
  - simpl. now rewrite compare_refl.
  - inversion H as [|? ? Hlt Hr]; subst. simpl in Hlt.
    apply compare_gt_lt in Hlt. simpl. rewrite Hlt. now rewrite IH.
Qed.

Lemma sorted_app_below m k v r :
  StdMap.sorted (m ++ (k, v) :: r) = true -> below m k.
Proof.
  induction m as [|[k0 v0] m IH]; intros H; [constructor|].
  change ((((k0, v0) :: m) ++ (k, v) :: r))
    with ((k0, v0) :: (m ++ (k, v) :: r)) in H.
  apply sorted_cons in H as [Hab Hs]. constructor; [|now apply IH].
  unfold above in Hab. rewrite Forall_forall in Hab.
  apply (Hab (k, v)). apply in_or_app. right. now left.
Qed.

End Facts.

End MapFacts.

(** ** replace_symbols and the loops of interpolate *)

Module InterpolateFacts.
Import StrFacts ReplaceFacts.

(** A call that reports no change has changed nothing. *)
Lemma replace_unchanged (v from to v' : string) :
  detail.replace v from to = Some (v', false) -> v' = v.
Proof.
  destruct from as [|c f].
  - unfold detail.replace.
    rewrite replace_empty_pattern_diverges by lia. discriminate.
  - rewrite replace_fuel_enough by discriminate.
    unfold detail.occurs, detail.replace_all.
    destruct (Str.find0 (String c f) v) eqn:F; [discriminate|].
    intros [= <-]. now apply scan_absent.
Qed.

Lemma replace_symbol_closed (from to : string) (sec : Ini.IniSection) :
  from <> "" ->
  Ini.replace_symbol from to sec =
  Some (Closed.map_values (detail.replace_all from to) sec,
        existsb (fun val => detail.occurs from (snd val)) sec).
Proof.
  intros Hne. induction sec as [|[k v] sec IH]; [reflexivity|].
  cbn [Ini.replace_symbol]. rewrite (replace_fuel_enough v from to Hne).
  cbn [bind]. rewrite IH. reflexivity.
Qed.

Lemma map_values_compose (f g : string -> string) (sec : Ini.IniSection) :
  Closed.map_values g (Closed.map_values f sec) =
  Closed.map_values (fun v => g (f v)) sec.
Proof. unfold Closed.map_values. rewrite map_map. reflexivity. Qed.

Lemma replace_symbols_closed (syms : Ini.Symbols) :
  Closed.nonempty_patterns syms ->
  forall sec, exists changed,
    Ini.replace_symbols syms sec =
    Some (Closed.map_values (Closed.apply_symbols syms) sec, changed).
Proof.
  induction 1 as [|[from to] syms Hne Hrest IH]; intros sec.
  - exists false. cbn. f_equal. f_equal. unfold Closed.map_values.
    rewrite <- (map_id sec) at 1. apply map_ext. now intros [k v].
  - simpl in Hne. cbn [Ini.replace_symbols].
    rewrite (replace_symbol_closed _ _ _ Hne). cbn [bind].
    destruct (IH (Closed.map_values (detail.replace_all from to) sec))
      as [c ->].
    cbn [bind]. eexists. rewrite map_values_compose. reflexivity.
Qed.

Lemma replace_symbol_unchanged from to sec sec' :
  Ini.replace_symbol from to sec = Some (sec', false) -> sec' = sec.
Proof.
  revert sec'. induction sec as [|[k v] sec IH]; intros sec'.
  - now intros [= <-].
  - cbn [Ini.replace_symbol].
    destruct (detail.replace v from to) as [[v' c1]|] eqn:R; [|discriminate].
    cbn [bind].
    destruct (Ini.replace_symbol from to sec) as [[r' c2]|]; [|discriminate].
    cbn [bind]. intros [= <- Hc]. apply orb_false_iff in Hc as [-> ->].
    now rewrite (replace_unchanged _ _ _ _ R), (IH r' eq_refl).
Qed.

Lemma replace_symbols_unchanged syms :
  forall sec sec',
    Ini.replace_symbols syms sec = Some (sec', false) -> sec' = sec.
Proof.
  induction syms as [|[from to] syms IH]; intros sec sec'.
  - now intros [= <-].
  - cbn [Ini.replace_symbols].
    destruct (Ini.replace_symbol from to sec) as [[s1 c1]|] eqn:R;
      [|discriminate].
    cbn [bind].
    destruct (Ini.replace_symbols syms s1) as [[s2 c2]|] eqn:R2;
      [|discriminate].
    cbn [bind]. intros [= <- Hc]. apply orb_false_iff in Hc as [-> ->].
    rewrite (IH _ _ R2). now apply replace_symbol_unchanged in R.
Qed.

Lemma resolve_unchanged syms :
  forall secs secs',
    Ini.resolve syms secs = Some (secs', false) -> secs' = secs.
Proof.
  induction secs as [|[name sec] secs IH]; intros secs'.
  - now intros [= <-].
  - cbn [Ini.resolve].
    destruct (Ini.replace_symbols syms sec) as [[s1 c1]|] eqn:R;
      [|discriminate].
    cbn [bind].
    destruct (Ini.resolve syms secs) as [[r' c2]|]; [|discriminate].
    cbn [bind]. intros [= <- Hc]. apply orb_false_iff in Hc as [-> ->].
    now rewrite (replace_symbols_unchanged _ _ _ R), (IH r' eq_refl).
Qed.

Lemma resolve_total syms :
  Closed.nonempty_patterns syms ->
  forall secs, exists r, Ini.resolve syms secs = Some r.
Proof.
  intros Hne. induction secs as [|[name sec] secs [r IH]].
  - now eexists.
  - cbn [Ini.resolve].
    destruct (replace_symbols_closed syms Hne sec) as [c ->].
    cbn [bind]. rewrite IH. destruct r. cbn [bind]. now eexists.
Qed.

Lemma local_symbols_nonempty name sec :
  Closed.nonempty_patterns (Ini.local_symbols name sec).
Proof.
  unfold Closed.nonempty_patterns, Ini.local_symbols.
  apply Forall_map, Forall_forall. intros x _. discriminate.
Qed.

Lemma global_symbols_nonempty secs :
  Closed.nonempty_patterns (Ini.global_symbols secs).
Proof.
  unfold Closed.nonempty_patterns, Ini.global_symbols.
  apply Forall_flat_map, Forall_forall. intros sec _.
  apply Forall_map, Forall_forall. intros x _. discriminate.
Qed.

Lemma global_pass_total secs : exists r, Ini.global_pass secs = Some r.
Proof. apply resolve_total, global_symbols_nonempty. Qed.

(** A pass without a replacement leaves the sections as they are, and
    so does every pass after it. *)
Lemma global_pass_stable secs secs' :
  Ini.global_pass secs = Some (secs', false) ->
  secs' = secs /\ Ini.global_pass secs' = Some (secs', false).
Proof.
  intros H. pose proof (resolve_unchanged _ _ _ H) as ->. now split.
Qed.

Lemma localize_closed secs :
  Ini.localize secs =
  Some (map (fun sec => (fst sec, Closed.localize_section (fst sec) (snd sec)))
            secs).
Proof.
  induction secs as [|[name sec] secs IH]; [reflexivity|].
  cbn [Ini.localize].
  destruct (replace_symbols_closed _ (local_symbols_nonempty name sec) sec)
    as [c ->].
  cbn [bind]. rewrite IH. reflexivity.
Qed.

(** The [do] loop returns, after at most [11 - global_iteration]
    executions of its body (at least one). *)
Lemma interpolate_loop_total :
  forall fuel gi passes secs,
    (0 <= gi)%Z -> (11 - gi <= Z.of_nat fuel)%Z -> 1 <= fuel ->
    exists secs' n,
      Ini.interpolate_loop fuel gi passes secs = Some (secs', n) /\
      passes < n /\ (Z.of_nat n <= Z.of_nat passes + Z.max 1 (11 - gi))%Z.
Proof.
  induction fuel as [|fuel IH]; intros gi passes secs Hgi Hfuel H1; [lia|].
  cbn [Ini.interpolate_loop].
  destruct (global_pass_total secs) as [[secs' changed] ->]. cbn [bind].
  unfold Ini.max_interpolation_depth.
  destruct (changed && (10 >? gi)%Z) eqn:C.
  - apply andb_true_iff in C as [_ C]. apply Z.gtb_lt in C.
    destruct (IH (gi + 1)%Z (S passes) secs') as (s & n & -> & Hn1 & Hn2);
      try lia.
    exists s, n. split; [reflexivity|]. split; lia.
  - exists secs', (S passes). split; [reflexivity|]. split; lia.
Qed.

End InterpolateFacts.

(** ** Statements about detail::replace and interpolate *)

Module InterpolateClaims.
Import StrFacts ReplaceFacts InterpolateFacts.

Lemma occurs_iff (from s : string) :
  detail.occurs from s = true <-> exists u w, s = u ++ from ++ w.
Proof.
  unfold detail.occurs. split.
  - destruct (Str.find0 from s) as [n|] eqn:F; [|discriminate].
    intros _. destruct (find0_Some _ _ _ F) as (u & w & -> & _). eauto.
  - intros (u & w & ->). induction u as [|c u IH].
    + cbn [append]. destruct (from ++ w) eqn:E; unfold Str.find0;
        fold Str.find0; rewrite <- E, starts_with_append; reflexivity.
    + cbn [append]. unfold Str.find0; fold Str.find0.
      destruct (Str.starts_with from (String c (u ++ from ++ w)));
        [reflexivity|].
      now destruct (Str.find0 from (u ++ from ++ w)).
Qed.

(** C10.  For a non-empty pattern [from], [detail::replace] returns
    (the budget of the model is never exhausted, and a larger one
    gives the same result).  Its result is the left-to-right
    replacement of the occurrences of [from]: where [from] does not
    occur the text is unchanged, and behind the leftmost occurrence
    the search goes on in the original text [w], so that the inserted
    [to] is never scanned, whatever [to] contains.  The returned flag
    is true exactly when [from] occurs in the text, that is when a
    replacement was made.  Consequently [replace_symbols] returns for
    every symbol table without an empty pattern, in particular for
    those built by [local_symbols] and [global_symbols]. *)
Theorem replace_terminates_left_to_right (str from to : string) :
  from <> "" ->
  detail.replace str from to =
    Some (detail.replace_all from to str, detail.occurs from str)
  /\ (forall fuel, String.length str < fuel ->
        detail.replace_loop fuel str from to 0 false =
        detail.replace str from to)
  /\ (Str.find0 from str = None -> detail.replace_all from to str = str)
  /\ (forall u w,
        Str.find0 from (u ++ from ++ w) = Some (String.length u) ->
        detail.replace_all from to (u ++ from ++ w) =
        u ++ to ++ detail.replace_all from to w)
  /\ (detail.occurs from str = true <-> exists u w, str = u ++ from ++ w)
  /\ (forall syms sec,
        Closed.nonempty_patterns syms ->
        exists r, Ini.replace_symbols syms sec = Some r)
  /\ (forall name sec sec',
        exists r,
          Ini.replace_symbols (Ini.local_symbols name sec) sec' = Some r)
  /\ (forall secs sec,
        exists r, Ini.replace_symbols (Ini.global_symbols secs) sec = Some r).
Proof.
  intros Hne. repeat split.
  - now apply replace_fuel_enough.
  - intros fuel Hlt. rewrite replace_fuel_enough by assumption.
    now apply replace_loop_fuel.
  - apply scan_absent.
  - intros u w. now apply scan_first.
  - now apply occurs_iff.
  - now apply occurs_iff.
  - intros syms sec Hs.
    destruct (replace_symbols_closed syms Hs sec) as [c ->]. eauto.
  - intros name sec sec'.
    destruct (replace_symbols_closed _ (local_symbols_nonempty name sec) sec')
      as [c ->]. eauto.
  - intros secs sec.
    destruct (replace_symbols_closed _ (global_symbols_nonempty secs) sec)
      as [c ->]. eauto.
Qed.

(** The replacement contains the pattern: the call returns and the
    inserted text is not rewritten again. *)
Lemma replace_terminates_left_to_right_witness :
  "X" <> "" /\
  detail.replace "aXbXXc" "X" "XX" = Some ("aXXbXXXXc", true).
Proof.
  split; [discriminate|].
  exact (proj1 (replace_terminates_left_to_right "aXbXXc" "X" "XX"
                  ltac:(discriminate))).
Defined.

(** [interpolate] always returns; the body of its [do] loop runs at
    least once and at most eleven times. *)
Lemma interpolate_total (ini : Ini.t) :
  exists ini' passes,
    Ini.interpolate_passes ini = Some (ini', passes) /\
    1 <= passes <= 11.
Proof.
  unfold Ini.interpolate_passes. rewrite localize_closed. cbn [bind].
  match goal with
  | |- context [Ini.interpolate_loop ?f 0 0 ?s] =>
      destruct (interpolate_loop_total f 0 0 s) as (s' & n & -> & H1 & H2)
  end; try (unfold Ini.max_interpolation_depth; simpl; lia).
  cbn [bind]. eexists _, n. split; [reflexivity | lia].
Qed.

(** Once a pass has made no replacement the loop is left, and the
    values it leaves are a fixed point of the pass. *)
Lemma interpolate_loop_exit_stable :
  forall fuel gi passes secs secs' n,
    Ini.interpolate_loop fuel gi passes secs = Some (secs', n) ->
    Ini.global_pass secs' = Some (secs', false) \/
    (Z.of_nat n = Z.of_nat passes + Z.max 1 (11 - gi))%Z.
Proof.
  induction fuel as [|fuel IH]; intros gi passes secs secs' n; [discriminate|].
  cbn [Ini.interpolate_loop].
  destruct (Ini.global_pass secs) as [[s1 changed]|] eqn:P; [|discriminate].
  cbn [bind]. unfold Ini.max_interpolation_depth.
  destruct changed; cbn [andb].
  - destruct (10 >? gi)%Z eqn:C.
    + intros H. apply IH in H as [H | H]; [now left | right].
      apply Z.gtb_lt in C. lia.
    + intros [= <- <-]. right.
      assert (10 <= gi)%Z by (destruct (Z.gtb_spec 10 gi); [discriminate | lia]).
      lia.
  - intros [= <- <-]. left.
    now destruct (global_pass_stable _ _ P) as [-> ?].
Qed.

(** C5.  On the section [s] with [a=${a}] every pass replaces
    [${s:a}] by itself and reports a change, and the body of the [do]
    loop of [interpolate] is executed eleven times: the counter is
    compared with [max_interpolation_depth] before it is incremented. *)
Theorem interpolate_loop_body_runs_eleven_times :
  Ini.interpolate_passes
    (Ini.parse ("[s]" ++ Ini.endl ++ "a=${a}" ++ Ini.endl) Ini.empty) =
  Some (Ini.mk [("s", [("a", "${s:a}")])] [], 11).
Proof. vm_compute. reflexivity. Qed.

Lemma apply_symbols_absent (syms : Ini.Symbols) (v : string) :
  (forall sym, In sym syms -> detail.occurs (fst sym) v = false) ->
  Closed.apply_symbols syms v = v.
Proof.
  unfold Closed.apply_symbols.
  induction syms as [|sym syms IH]; intros H; [reflexivity|].
  cbn [fold_left].
  assert (E : detail.replace_all (fst sym) (snd sym) v = v).
  { apply scan_absent. specialize (H sym (or_introl eq_refl)).
    unfold detail.occurs in H. now destruct (Str.find0 (fst sym) v). }
  rewrite E. apply IH. intros s Hs. apply H. now right.
Qed.

Lemma apply_local_symbols (name : string) (sec : Ini.IniSection) (v : string) :
  Closed.apply_symbols (Ini.local_symbols name sec) v =
  fold_left
    (fun s k =>
       detail.replace_all (Ini.local_symbol k) (Ini.global_symbol name k) s)
    (StdMap.keys sec) v.
Proof.
  unfold Closed.apply_symbols, Ini.local_symbols, StdMap.keys.
  revert v. induction sec as [|[k x] sec IH]; intros v; [reflexivity|].
  cbn [map fold_left fst snd]. apply IH.
Qed.

(** The localization pass, whatever the names.  It is the first step
    of [interpolate] and is made once, before the [do] loop.  It
    always returns, and it rewrites each section from that section
    alone: every value of a section [S] is taken, for each key [k] of
    [S] in turn, through the replacement of every occurrence of [${k}]
    by [${S:k}], so that a later key meets the text that an earlier
    one has left; section names, keys and the other sections play no
    part.  A value in which no pattern [${k}] of a key of its own
    section occurs is left as it is, whatever keys the other sections
    have.  In the section [s] with [a = 1] and [b = ${a}],
    [interpolate] leaves [b = 1]; in the sections [A] with [b = ${k}]
    and [B] with [k = 1], it leaves [b = ${k}]. *)
Theorem localization_is_per_section (ini : Ini.t) :
  Ini.localize (Ini.sections ini) =
    Some (map (fun sec =>
                 (fst sec, Closed.localize_section (fst sec) (snd sec)))
              (Ini.sections ini))
  /\ Ini.interpolate_passes ini =
       ('(secs2, passes) <-
          Ini.interpolate_loop (Z.to_nat Ini.max_interpolation_depth + 2) 0 0
            (map (fun sec =>
                    (fst sec, Closed.localize_section (fst sec) (snd sec)))
                 (Ini.sections ini)) ;;
        Some (Ini.mk secs2 (Ini.errors ini), passes))
  /\ (forall S sec,
        Closed.localize_section S sec =
        map (fun val =>
               (fst val,
                fold_left
                  (fun s k =>
                     detail.replace_all
                       (String "$" (String "{" k ++ "}"))
                       (String "$" (String "{" (S ++ String ":" k) ++ "}")) s)
                  (StdMap.keys sec) (snd val)))
            sec)
  /\ (forall S sec k v,
        In (k, v) sec ->
        (forall k', In k' (StdMap.keys sec) ->
                    detail.occurs (Ini.local_symbol k') v = false) ->
        In (k, v) (Closed.localize_section S sec))
  /\ Ini.interpolate (Ini.mk [("s", [("a", "1"); ("b", "${a}")])] []) =
       Some (Ini.mk [("s", [("a", "1"); ("b", "1")])] [])
  /\ Ini.interpolate
       (Ini.mk [("A", [("b", "${k}")]); ("B", [("k", "1")])] []) =
       Some (Ini.mk [("A", [("b", "${k}")]); ("B", [("k", "1")])] []).
Proof.
  split; [apply localize_closed|].
  split; [unfold Ini.interpolate_passes; now rewrite localize_closed|].
  split.
  { intros S sec. unfold Closed.localize_section, Closed.map_values.
    apply map_ext. intros val. now rewrite apply_local_symbols. }
  split.
  { intros S sec k v Hin Habs.
    unfold Closed.localize_section, Closed.map_values.
    apply in_map_iff. exists (k, v). split; [|assumption].
    cbn [fst snd]. f_equal. apply apply_symbols_absent.
    intros sym Hsym. unfold Ini.local_symbols in Hsym.
    apply in_map_iff in Hsym as (val & <- & Hval). cbn [fst].
    apply Habs. unfold StdMap.keys. now apply in_map. }
  split; vm_compute; reflexivity.
Qed.

End InterpolateClaims.

(** ** parse *)

Module ParseFacts.
Import StrFacts MapFacts.

Lemma parse_line_blank ic st raw :
  Ini.trim raw = "" -> Ini.parse_line ic st raw = st.
Proof.
  intros H. unfold Ini.parse_line. destruct st as [ini cur]. now rewrite H.
Qed.

Lemma parse_line_comment ic st raw c :
  Str.front (Ini.trim raw) = Some c -> ic c = true ->
  Ini.parse_line ic st raw = st.
Proof.
  intros H Hc. unfold Ini.parse_line. destruct st as [ini cur].
  now rewrite H, Hc.
Qed.

Lemma parse_line_header ic ini cur raw :
  ic "["%char = false ->
  Str.front (Ini.trim raw) = Some "["%char ->
  Str.back (Ini.trim raw) = Some "]"%char ->
  Ini.parse_line ic (ini, cur) raw =
  (ini, Str.substr (Ini.trim raw) 1 (String.length (Ini.trim raw) - 2)).
Proof.
  intros Hc Hf Hb. unfold Ini.parse_line. now rewrite Hf, Hc, Hb.
Qed.

Lemma parse_line_bad_header ic ini cur raw :
  ic "["%char = false ->
  Str.front (Ini.trim raw) = Some "["%char ->
  Str.back (Ini.trim raw) <> Some "]"%char ->
  Ini.parse_line ic (ini, cur) raw =
  (Ini.push_error ini (Ini.trim raw), cur).
Proof.
  intros Hc Hf Hb. unfold Ini.parse_line. rewrite Hf, Hc.
  cbn [Ini.char_section_start Ascii.eqb Bool.eqb].
  destruct (Str.back (Ini.trim raw)) as [b|]; [|reflexivity].
  destruct (Ascii.eqb_spec b Ini.char_section_end) as [->|]; [|reflexivity].
  now elim Hb.
Qed.

Lemma parse_line_key_value ini cur raw k v :
  Ini.key_value raw = Some (k, v) ->
  Ini.parse_line Ini.is_comment (ini, cur) raw =
  Ini.define ini cur (Ini.trim raw) k v.
Proof.
  unfold Ini.key_value, Ini.parse_line, Ini.define.
  destruct (Str.front (Ini.trim raw)) as [c|]; [|discriminate].
  destruct (Ini.is_comment c); [discriminate|].
  destruct (Ascii.eqb c Ini.char_section_start); [discriminate|].
  destruct (Str.find_first_of (Ini.trim raw) Ini.char_assign) as [[|p]|];
    try discriminate.
  now intros [= <- <-].
Qed.

(** The overridden classifier skips a line that the base class logs. *)
Lemma visual_basic_comment_skipped :
  VisualBasicIni.parse "' remark" Ini.empty = Ini.empty /\
  Ini.parse "' remark" Ini.empty = Ini.mk [] ["' remark"].
Proof. split; reflexivity. Qed.

(** A line either leaves the sections alone or takes the key-value
    branch. *)
Lemma parse_line_cases ini cur raw :
  Ini.sections (fst (Ini.parse_line Ini.is_comment (ini, cur) raw)) =
    Ini.sections ini
  \/ exists k v,
      Ini.key_value raw = Some (k, v) /\
      Ini.parse_line Ini.is_comment (ini, cur) raw =
      Ini.define ini cur (Ini.trim raw) k v.
Proof.
  destruct (Ini.key_value raw) as [[k v]|] eqn:KV.
  - right. exists k, v. split; [reflexivity|].
    now apply parse_line_key_value.
  - left. revert KV. unfold Ini.key_value, Ini.parse_line.
    destruct (Str.front (Ini.trim raw)) as [c|]; [|reflexivity].
    destruct (Ini.is_comment c); [reflexivity|].
    destruct (Ascii.eqb c Ini.char_section_start).
    + now destruct (match Str.back (Ini.trim raw) with
                    | Some b => Ascii.eqb b Ini.char_section_end
                    | None => false
                    end).
    + destruct (Str.find_first_of (Ini.trim raw) Ini.char_assign)
        as [[|p]|]; try reflexivity. discriminate.
Qed.

(** The two outcomes of the key-value branch. *)
Lemma define_present ini cur line k v x :
  Ini.lookup cur k (Ini.sections ini) = Some x ->
  Ini.define ini cur line k v = (Ini.push_error ini line, cur).
Proof.
  unfold Ini.lookup, Ini.define, StdMap.subscript.
  destruct (StdMap.find cur (Ini.sections ini)) as [sec|] eqn:F;
    [|discriminate].
  intros Hk. rewrite (insert_present _ _ _ _ F), F, Hk.
  now destruct ini.
Qed.

Lemma wf_iff secs :
  Ini.wf secs = true <->
  StdMap.sorted secs = true /\
  Forall (fun sec => StdMap.sorted (snd sec) = true) secs.
Proof.
  unfold Ini.wf. now rewrite andb_true_iff, forallb_forall, Forall_forall.
Qed.

Lemma find_subscript cur (secs : Ini.Sections) :
  StdMap.sorted secs = true ->
  StdMap.find cur (StdMap.subscript cur ([] : Ini.IniSection) secs) =
  Some match StdMap.find cur secs with Some s => s | None => [] end.
Proof.
  intros Hs. unfold StdMap.subscript. rewrite (find_insert _ _ _ _ Hs).
  rewrite String.eqb_refl. now destruct (StdMap.find cur secs).
Qed.

Lemma define_absent ini cur line k v :
  StdMap.sorted (Ini.sections ini) = true ->
  Ini.lookup cur k (Ini.sections ini) = None ->
  Ini.define ini cur line k v =
  (Ini.mk (StdMap.update cur (StdMap.insert k v)
             (StdMap.subscript cur ([] : Ini.IniSection) (Ini.sections ini)))
          (Ini.errors ini), cur).
Proof.
  intros Hs. unfold Ini.lookup, Ini.define. rewrite (find_subscript _ _ Hs).
  destruct (StdMap.find cur (Ini.sections ini)) as [sec|].
  - now intros ->.
  - reflexivity.
Qed.

Lemma Forall_update {V : Type} (P : string * V -> Prop) k (f : V -> V) m :
  (forall v, P (k, v) -> P (k, f v)) ->
  Forall P m -> Forall P (StdMap.update k f m).
Proof.
  intros Hf. induction m as [|[k0 v0] m IH]; intros H; [constructor|].
  cbn [StdMap.update]. inversion H; subst.
  destruct (String.compare k k0) eqn:C.
  - apply compare_eq in C. subst k0. constructor; auto.
  - assumption.
  - constructor; auto.
Qed.

Lemma define_wf ini cur line k v :
  Ini.wf (Ini.sections ini) = true ->
  Ini.wf (Ini.sections (fst (Ini.define ini cur line k v))) = true.
Proof.
  intros Hwf. apply wf_iff in Hwf as [Hs Hall].
  assert (Hs1 : StdMap.sorted (StdMap.subscript cur ([] : Ini.IniSection) (Ini.sections ini))
                = true)
    by now apply keys_insert_sorted.
  assert (Hall1 : Forall (fun sec : string * Ini.IniSection =>
                            StdMap.sorted (snd sec) = true)
                         (StdMap.subscript cur ([] : Ini.IniSection) (Ini.sections ini)))
    by now apply Forall_insert.
  unfold Ini.define.
  destruct (StdMap.find k _); cbn [fst Ini.sections Ini.push_error];
    apply wf_iff.
  - now split.
  - split.
    + unfold StdMap.sorted in *. now rewrite keys_update.
    + apply Forall_update; [|assumption].
      intros s. cbn [snd]. apply keys_insert_sorted.
Qed.

Lemma parse_line_wf ini cur raw :
  Ini.wf (Ini.sections ini) = true ->
  Ini.wf (Ini.sections (fst (Ini.parse_line Ini.is_comment (ini, cur) raw)))
  = true.
Proof.
  intros Hwf. destruct (parse_line_cases ini cur raw) as [-> | (k & v & _ & ->)].
  - assumption.
  - now apply define_wf.
Qed.

Lemma parse_lines_wf lines :
  forall ini cur,
    Ini.wf (Ini.sections ini) = true ->
    Ini.wf (Ini.sections
              (fst (Ini.parse_lines Ini.is_comment lines (ini, cur)))) = true.
Proof.
  induction lines as [|raw lines IH]; intros ini cur Hwf; [assumption|].
  cbn [Ini.parse_lines fold_left].
  destruct (Ini.parse_line Ini.is_comment (ini, cur) raw) as [ini1 cur1] eqn:E.
  apply IH. change ini1 with (fst (ini1, cur1)). rewrite <- E.
  now apply parse_line_wf.
Qed.

(** The value of a key, once defined, is not touched by [parse]. *)
Lemma define_keeps ini cur line k v s key x :
  Ini.wf (Ini.sections ini) = true ->
  Ini.lookup s key (Ini.sections ini) = Some x ->
  Ini.lookup s key (Ini.sections (fst (Ini.define ini cur line k v))) = Some x.
Proof.
  intros Hwf Hl. apply wf_iff in Hwf as [Hs Hall].
  assert (F1 : forall m : Ini.IniSection,
             StdMap.find s (Ini.sections ini) = Some m ->
             StdMap.find s (StdMap.subscript cur ([] : Ini.IniSection) (Ini.sections ini))
             = Some m).
  { intros m Hm. unfold StdMap.subscript. rewrite (find_insert _ _ _ _ Hs).
    rewrite Hm. now destruct (String.eqb s cur). }
  unfold Ini.lookup in Hl.
  destruct (StdMap.find s (Ini.sections ini)) as [m|] eqn:Fs; [|discriminate].
  unfold Ini.define.
  destruct (StdMap.find k _) eqn:Fk; cbn [fst Ini.sections Ini.push_error];
    unfold Ini.lookup.
  - now rewrite (F1 m eq_refl).
  - rewrite find_update, (F1 m eq_refl).
    destruct (String.eqb_spec s cur) as [->|Hne]; [|assumption].
    cbn [option_map].
    assert (Hm : StdMap.sorted m = true).
    { rewrite Forall_forall in Hall. clear -Fs Hall.
      induction (Ini.sections ini) as [|[k0 v0] l IHl]; [discriminate|].
      cbn [StdMap.find] in Fs. destruct (String.compare cur k0).
      - injection Fs as <-. apply (Hall (k0, v0)). now left.
      - discriminate.
      - apply IHl; [|assumption]. intros e He. apply Hall. now right. }
    rewrite (find_insert _ _ _ _ Hm), Hl. now destruct (String.eqb key k).
Qed.

Lemma parse_line_keeps ini cur raw s key x :
  Ini.wf (Ini.sections ini) = true ->
  Ini.lookup s key (Ini.sections ini) = Some x ->
  Ini.lookup s key
    (Ini.sections (fst (Ini.parse_line Ini.is_comment (ini, cur) raw)))
  = Some x.
Proof.
  intros Hwf Hl.
  destruct (parse_line_cases ini cur raw) as [-> | (k & v & _ & ->)].
  - assumption.
  - now apply define_keeps.
Qed.

Lemma parse_lines_keeps lines :
  forall ini cur s key x,
    Ini.wf (Ini.sections ini) = true ->
    Ini.lookup s key (Ini.sections ini) = Some x ->
    Ini.lookup s key
      (Ini.sections (fst (Ini.parse_lines Ini.is_comment lines (ini, cur))))
    = Some x.
Proof.
  induction lines as [|raw lines IH]; intros ini cur s key x Hwf Hl;
    [assumption|].
  cbn [Ini.parse_lines fold_left].
  destruct (Ini.parse_line Ini.is_comment (ini, cur) raw) as [ini1 cur1] eqn:E.
  apply IH.
  - change ini1 with (fst (ini1, cur1)). rewrite <- E. now apply parse_line_wf.
  - change ini1 with (fst (ini1, cur1)). rewrite <- E.
    now apply parse_line_keeps.
Qed.

End ParseFacts.

Module ParseClaims.
Import StrFacts MapFacts ParseFacts.

Lemma wf_find secs s (m : Ini.IniSection) :
  Ini.wf secs = true -> StdMap.find s secs = Some m ->
  StdMap.sorted m = true.
Proof.
  intros Hwf. apply wf_iff in Hwf as [_ Hall]. rewrite Forall_forall in Hall.
  induction secs as [|[k0 v0] l IHl]; [discriminate|].
  cbn [StdMap.find]. destruct (String.compare s k0).
  - intros [= <-]. apply (Hall (k0, v0)). now left.
  - discriminate.
  - apply IHl. intros e He. apply Hall. now right.
Qed.

(** After the key-value branch the key is defined; it has the value
    of the line when it was not defined before. *)
Lemma define_defines ini cur line k v :
  Ini.wf (Ini.sections ini) = true ->
  exists x,
    Ini.lookup cur k (Ini.sections (fst (Ini.define ini cur line k v)))
    = Some x /\
    (Ini.lookup cur k (Ini.sections ini) = None -> x = v).
Proof.
  intros Hwf.
  destruct (Ini.lookup cur k (Ini.sections ini)) as [x|] eqn:L.
  - exists x. split; [|discriminate].
    now rewrite (define_present _ _ _ _ _ _ L).
  - exists v. split; [|reflexivity].
    pose proof Hwf as Hwf'. apply wf_iff in Hwf' as [Hs _].
    rewrite (define_absent _ _ _ _ _ Hs L). cbn [fst Ini.sections].
    unfold Ini.lookup. rewrite find_update, String.eqb_refl.
    rewrite (find_subscript _ _ Hs). cbn [option_map].
    unfold Ini.lookup in L.
    destruct (StdMap.find cur (Ini.sections ini)) as [m|] eqn:F.
    + rewrite (find_insert _ _ _ _ (wf_find _ _ _ Hwf F)).
      now rewrite String.eqb_refl, L.
    + cbn. now rewrite compare_refl.
Qed.

(** The error log only grows, by the trimmed line. *)
Lemma parse_line_errors ic ini cur raw :
  Ini.errors (fst (Ini.parse_line ic (ini, cur) raw)) = Ini.errors ini \/
  Ini.errors (fst (Ini.parse_line ic (ini, cur) raw)) =
    (Ini.errors ini ++ [Ini.trim raw])%list.
Proof.
  unfold Ini.parse_line, Ini.define.
  repeat match goal with
         | |- context [match ?x with _ => _ end] => destruct x
         | |- context [if ?x then _ else _] => destruct x
         end; cbn; auto.
Qed.

Lemma parse_lines_errors ic lines :
  forall st e,
    In e (Ini.errors (fst st)) ->
    In e (Ini.errors (fst (Ini.parse_lines ic lines st))).
Proof.
  induction lines as [|raw lines IH]; intros [ini cur] e He; [assumption|].
  cbn [Ini.parse_lines fold_left]. apply IH.
  destruct (parse_line_errors ic ini cur raw) as [-> | ->]; [assumption|].
  apply in_or_app. now left.
Qed.

(** C1 (as amended).  A line that after trimming starts with [[] and
    ends with []] makes the text between the brackets the current
    section name and changes neither the sections nor the error log:
    the header by itself creates no Section entry.  The entry for that
    name is there once a key-value line has been parsed under the
    header. *)
Theorem header_sets_current_section (ini : Ini.t) (cur raw : string) :
  Str.front (Ini.trim raw) = Some "["%char ->
  Str.back (Ini.trim raw) = Some "]"%char ->
  let name :=
    Str.substr (Ini.trim raw) 1 (String.length (Ini.trim raw) - 2) in
  Ini.parse_line Ini.is_comment (ini, cur) raw = (ini, name)
  /\ Ini.trim raw = String "[" (name ++ "]")
  /\ (forall kv k v,
        Ini.wf (Ini.sections ini) = true ->
        Ini.key_value kv = Some (k, v) ->
        exists sec x,
          StdMap.find name
            (Ini.sections
               (fst (Ini.parse_lines Ini.is_comment [raw; kv] (ini, cur))))
          = Some sec /\ StdMap.find k sec = Some x).
Proof.
  intros Hf Hb name.
  assert (Hstep : Ini.parse_line Ini.is_comment (ini, cur) raw = (ini, name))
    by now apply parse_line_header.
  split; [exact Hstep|]. split.
  - subst name. revert Hf Hb. generalize (Ini.trim raw) as line.
    intros [|c line]; [discriminate|]. intros [= ->].
    cbn [String.length]. unfold Str.substr. cbn [Str.drop Nat.sub].
    intros Hb. f_equal.
    destruct line as [|d line]; [discriminate|].
    change (Str.back (String "[" (String d line)))
      with (Str.back (String d line)) in Hb.
    apply back_split in Hb. cbn [String.length Nat.sub] in *.
    rewrite Nat.sub_0_r in *. exact Hb.
  - intros kv k v Hwf Hkv. cbn [Ini.parse_lines fold_left]. rewrite Hstep.
    rewrite (parse_line_key_value _ _ _ _ _ Hkv).
    destruct (define_defines ini name (Ini.trim kv) k v Hwf) as (x & Hx & _).
    unfold Ini.lookup in Hx.
    destruct (StdMap.find name _) as [sec|]; [|discriminate].
    now exists sec, x.
Qed.

Lemma header_sets_current_section_witness :
  Ini.parse_line Ini.is_comment (Ini.empty, "") "  [net]  " =
  (Ini.empty, "net").
Proof.
  exact (proj1 (header_sets_current_section Ini.empty "" "  [net]  "
                  eq_refl eq_refl)).
Defined.

(** C1 is not what the code does: a header that is followed by no
    key-value line leaves the sections empty. *)
Lemma header_alone_creates_no_section :
  Ini.parse ("[a]" ++ Ini.endl) Ini.empty = Ini.empty /\
  StdMap.find "a" (Ini.sections (Ini.parse ("[a]" ++ Ini.endl) Ini.empty))
  = None.
Proof. split; reflexivity. Qed.

(** C3.  Two key-value lines [l1] and [l2] define the same key [k] in
    the same section [cur], [l1] being the first to define it.  After
    [l1] (and any lines [mid] that end in section [cur] again) the
    section holds the value of [l1]; the step on [l2] appends the
    trimmed [l2] to the error log and changes nothing else; whatever
    follows, the key keeps the first value and the line stays in the
    log. *)
Theorem duplicate_key_rejected
        (ini : Ini.t) (cur l1 l2 k v1 v2 : string) (mid post : list string) :
  Ini.wf (Ini.sections ini) = true ->
  Ini.key_value l1 = Some (k, v1) ->
  Ini.key_value l2 = Some (k, v2) ->
  Ini.lookup cur k (Ini.sections ini) = None ->
  snd (Ini.parse_lines Ini.is_comment (l1 :: mid) (ini, cur)) = cur ->
  let st1 := Ini.parse_lines Ini.is_comment (l1 :: mid) (ini, cur) in
  let st2 := Ini.parse_line Ini.is_comment st1 l2 in
  let st3 := Ini.parse_lines Ini.is_comment post st2 in
  Ini.lookup cur k (Ini.sections (fst st1)) = Some v1
  /\ Ini.sections (fst st2) = Ini.sections (fst st1)
  /\ Ini.errors (fst st2) = (Ini.errors (fst st1) ++ [Ini.trim l2])%list
  /\ snd st2 = cur
  /\ Ini.lookup cur k (Ini.sections (fst st3)) = Some v1
  /\ In (Ini.trim l2) (Ini.errors (fst st3)).
Proof.
  intros Hwf K1 K2 Habs Hcur st1 st2 st3.
  assert (H0 : Ini.parse_line Ini.is_comment (ini, cur) l1 =
               Ini.define ini cur (Ini.trim l1) k v1)
    by now apply parse_line_key_value.
  destruct (define_defines ini cur (Ini.trim l1) k v1 Hwf) as (x & Hx & Hxv).
  rewrite (Hxv Habs) in Hx. clear Hxv x.
  assert (Hwf0 : Ini.wf (Ini.sections
                           (fst (Ini.define ini cur (Ini.trim l1) k v1)))
                 = true) by now apply define_wf.
  assert (Hsnd0 : snd (Ini.define ini cur (Ini.trim l1) k v1) = cur).
  { unfold Ini.define. now destruct (StdMap.find k _). }
  assert (E1 : st1 = Ini.parse_lines Ini.is_comment mid
                       (fst (Ini.define ini cur (Ini.trim l1) k v1), cur)).
  { subst st1. cbn [Ini.parse_lines fold_left]. rewrite H0.
    rewrite <- Hsnd0 at 3. now rewrite <- surjective_pairing. }
  assert (L1 : Ini.lookup cur k (Ini.sections (fst st1)) = Some v1).
  { rewrite E1. now apply parse_lines_keeps. }
  assert (W1 : Ini.wf (Ini.sections (fst st1)) = true).
  { rewrite E1. now apply parse_lines_wf. }
  assert (E2 : st2 = (Ini.push_error (fst st1) (Ini.trim l2), cur)).
  { subst st2. rewrite (surjective_pairing st1). fold st1 in Hcur.
    rewrite Hcur. rewrite (parse_line_key_value _ _ _ _ _ K2).
    now apply define_present with v1. }
  split; [exact L1|]. rewrite E2. cbn [fst snd Ini.push_error Ini.sections
                                         Ini.errors].
  repeat split.
  - subst st3. rewrite E2. apply parse_lines_keeps; assumption.
  - subst st3. rewrite E2. apply parse_lines_errors. cbn.
    apply in_or_app. right. now left.
Qed.

Lemma duplicate_key_rejected_witness :
  Ini.lookup "" "a"
    (Ini.sections (Ini.parse ("a=1" ++ Ini.endl ++ " a = 2 ") Ini.empty))
  = Some "1" /\
  In "a = 2" (Ini.errors (Ini.parse ("a=1" ++ Ini.endl ++ " a = 2 ") Ini.empty)).
Proof.
  pose proof (duplicate_key_rejected Ini.empty "" "a=1" " a = 2 " "a" "1" "2"
                [] [] eq_refl eq_refl eq_refl eq_refl eq_refl)
    as (_ & _ & _ & _ & H1 & H2).
  split; [exact H1 | exact H2].
Defined.

(** C4.  A trimmed line that starts with [[], is not a comment and
    does not end with []] is appended to the error log; the sections
    and the current section name stay as they are, and the following
    lines are parsed from that state. *)
Theorem malformed_header_logged
        (is_comment : ascii -> bool) (ini : Ini.t) (cur raw : string)
        (rest : list string) :
  Str.front (Ini.trim raw) = Some "["%char ->
  is_comment "["%char = false ->
  Str.back (Ini.trim raw) <> Some "]"%char ->
  Ini.parse_line is_comment (ini, cur) raw =
    (Ini.mk (Ini.sections ini) (Ini.errors ini ++ [Ini.trim raw]), cur)
  /\ Ini.parse_lines is_comment (raw :: rest) (ini, cur) =
     Ini.parse_lines is_comment rest
       (Ini.mk (Ini.sections ini) (Ini.errors ini ++ [Ini.trim raw]), cur).
Proof.
  intros Hf Hc Hb.
  assert (H : Ini.parse_line is_comment (ini, cur) raw =
              (Ini.push_error ini (Ini.trim raw), cur))
    by now apply parse_line_bad_header.
  split; [exact H|]. cbn [Ini.parse_lines fold_left]. now rewrite H.
Qed.

Lemma malformed_header_logged_witness :
  Ini.parse_lines Ini.is_comment [" [section "; "k=v"] (Ini.empty, "") =
  (Ini.mk [("", [("k", "v")])] ["[section"], "").
Proof.
  pose proof (malformed_header_logged Ini.is_comment Ini.empty ""
                " [section " ["k=v"] eq_refl eq_refl
                ltac:(discriminate)) as [_ H].
  exact H.
Defined.

End ParseClaims.

(** ** default_section *)

Module DefaultSection.
Import MapFacts ParseFacts.
Import Ini (merge).

Lemma merge_sorted dflt :
  forall sec, StdMap.sorted sec = true -> StdMap.sorted (merge dflt sec) = true.
Proof.
  induction dflt as [|[k v] dflt IH]; intros sec Hs; [assumption|].
  apply IH. cbn [fst snd]. now apply keys_insert_sorted.
Qed.

Lemma find_merge dflt :
  StdMap.sorted dflt = true ->
  forall sec k,
    StdMap.sorted sec = true ->
    StdMap.find k (merge dflt sec) =
    match StdMap.find k sec with
    | Some v => Some v
    | None => StdMap.find k dflt
    end.
Proof.
  induction dflt as [|[k0 v0] dflt IH]; intros Hd sec k Hs.
  - cbn. now destruct (StdMap.find k sec).
  - apply sorted_cons in Hd as [Hab Hd].
    change (merge ((k0, v0) :: dflt) sec)
      with (merge dflt (StdMap.insert k0 v0 sec)).
    rewrite (IH Hd) by now apply keys_insert_sorted.
    rewrite (find_insert _ _ _ _ Hs). cbn [StdMap.find].
    destruct (String.eqb_spec k k0) as [->|Hne].
    + rewrite compare_refl. now destruct (StdMap.find k0 sec).
    + destruct (StdMap.find k sec); [reflexivity|].
      destruct (String.compare k k0) eqn:C.
      * now apply compare_eq in C.
      * apply find_above. eapply Forall_impl; [|exact Hab].
        intros e He. now apply compare_lt_trans with k0.
      * reflexivity.
Qed.

Lemma find_map_sections (g : Ini.IniSection -> Ini.IniSection) name
      (secs : Ini.Sections) :
  StdMap.find name (map (fun sec2 => (fst sec2, g (snd sec2))) secs) =
  option_map g (StdMap.find name secs).
Proof.
  induction secs as [|[k0 v0] secs IH]; [reflexivity|].
  cbn [map StdMap.find fst snd]. now destruct (String.compare name k0).
Qed.

(** C7.  [default_section] keeps the list of section names and the
    error log; in every section a key that is present keeps its
    value, and a key that is absent gets the value that the external
    set has for it, if any. *)
Theorem default_section_fills_absent_keys
        (dflt : Ini.IniSection) (ini : Ini.t) :
  StdMap.sorted dflt = true ->
  Ini.wf (Ini.sections ini) = true ->
  let ini' := Ini.default_section dflt ini in
  StdMap.keys (Ini.sections ini') = StdMap.keys (Ini.sections ini)
  /\ Ini.errors ini' = Ini.errors ini
  /\ Ini.wf (Ini.sections ini') = true
  /\ (forall name,
        StdMap.find name (Ini.sections ini') = None <->
        StdMap.find name (Ini.sections ini) = None)
  /\ (forall name sec,
        StdMap.find name (Ini.sections ini) = Some sec ->
        exists sec',
          StdMap.find name (Ini.sections ini') = Some sec' /\
          forall k,
            StdMap.find k sec' =
            match StdMap.find k sec with
            | Some v => Some v
            | None => StdMap.find k dflt
            end).
Proof.
  intros Hd Hwf ini'. subst ini'. unfold Ini.default_section.
  cbn [Ini.sections Ini.errors].
  assert (Hkeys : StdMap.keys
                    (map (fun sec2 : string * Ini.IniSection =>
                            (fst sec2, merge dflt (snd sec2)))
                         (Ini.sections ini))
                  = StdMap.keys (Ini.sections ini)).
  { unfold StdMap.keys. rewrite map_map. now apply map_ext. }
  split; [exact Hkeys|]. split; [reflexivity|]. split; [|split].
  - apply wf_iff in Hwf as [Hs Hall]. apply wf_iff. split.
    + unfold StdMap.sorted in *. etransitivity; [|exact Hs].
      f_equal. exact Hkeys.
    + apply Forall_map. eapply Forall_impl; [|exact Hall].
      intros e He. cbn [snd]. now apply merge_sorted.
  - intros name. rewrite find_map_sections.
    now destruct (StdMap.find name (Ini.sections ini)).
  - intros name sec F. exists (merge dflt sec). rewrite find_map_sections, F.
    split; [reflexivity|]. intros k. apply find_merge; [assumption|].
    now apply (ParseClaims.wf_find _ _ _ Hwf F).
Qed.

Lemma default_section_fills_absent_keys_witness :
  Ini.default_section [("x", "1")]
    (Ini.mk [("a", [("x", "0")]); ("b", [("y", "2")])] []) =
  Ini.mk [("a", [("x", "0")]); ("b", [("x", "1"); ("y", "2")])] []
  /\ StdMap.keys
       (Ini.sections
          (Ini.default_section [("x", "1")]
             (Ini.mk [("a", [("x", "0")]); ("b", [("y", "2")])] []))) =
     ["a"; "b"].
Proof.
  split; [reflexivity|].
  exact (proj1 (default_section_fills_absent_keys [("x", "1")]
                  (Ini.mk [("a", [("x", "0")]); ("b", [("y", "2")])] [])
                  eq_refl eq_refl)).
Defined.

End DefaultSection.

(** ** extract *)

Module ExtractClaims.

(** [is >> c] fails exactly when only whitespace is left. *)
Lemma read_char_None (rest : string) :
  Stream.read_char rest = None <-> Stream.skipws rest = "".
Proof.
  unfold Stream.read_char.
  destruct (Stream.skipws rest); split; congruence.
Qed.

(** C8 does not hold as stated: the value [42 ] is accepted although
    reading the [int] leaves a character behind. *)
Lemma extract_accepts_trailing_whitespace :
  extract_int "42 " 0 = (true, 42%Z) /\
  Stream.read_int "42 " = Some (42%Z, " ") /\
  ~ (forall value dst,
        fst (extract_int value dst) = true <->
        exists r, Stream.read_int value = Some (r, "")).
Proof.
  split; [reflexivity|]. split; [reflexivity|].
  intros H. destruct (proj1 (H "42 " 0%Z) eq_refl) as [r Hr].
  discriminate Hr.
Qed.

(** C8 (as amended).  For a scalar target, [extract] returns true and
    stores the parsed result exactly when reading the value as that
    type succeeds and nothing but whitespace is left behind it;
    otherwise it returns false and the destination keeps its content.
    For a string target it returns true and stores the value as it
    is.  [42] gives 42, [42x] is refused, and the string [ raw ] is
    stored untrimmed. *)
Theorem extract_whole_value
        (T : Type) (read : string -> option (T * string))
        (value : string) (dst : T) :
  (forall r,
      extract T read value dst = (true, r) <->
      exists rest, read value = Some (r, rest) /\ Stream.skipws rest = "")
  /\ (fst (extract T read value dst) = false ->
      extract T read value dst = (false, dst))
  /\ (fst (extract T read value dst) = false <->
      ~ exists r rest,
          read value = Some (r, rest) /\ Stream.skipws rest = "")
  /\ (forall s d, extract_string s d = (true, s))
  /\ extract_int "42" 0 = (true, 42%Z)
  /\ extract_int "42x" 0 = (false, 0%Z)
  /\ extract_bool "false" true = (true, false)
  /\ extract_string " raw " "" = (true, " raw ").
Proof.
  unfold extract.
  destruct (read value) as [[res rest]|] eqn:R.
  - destruct (Stream.read_char rest) as [[c rest']|] eqn:C.
    + assert (Hne : Stream.skipws rest <> "").
      { intros E. apply read_char_None in E. congruence. }
      repeat split; try reflexivity.
      * discriminate.
      * intros (rest0 & [= -> ->] & E). contradiction.
      * intros _ (r & rest0 & [= -> ->] & E). contradiction.
    + apply read_char_None in C.
      repeat split; try reflexivity.
      * intros [= <-]. now exists rest.
      * now intros (rest0 & [= -> ->] & E).
      * discriminate.
      * discriminate.
      * intros H. exfalso. apply H. now exists res, rest.
  - repeat split; try reflexivity.
    + discriminate.
    + intros (rest0 & E & _). discriminate.
    + intros _ (r & rest0 & E & _). discriminate.
Qed.

End ExtractClaims.

(** ** Trimming, searching and line splitting *)

Module TrimFacts.
Import StrFacts Canonical.

Lemma append_not_empty (a x : string) : x <> "" -> a ++ x <> "".
Proof. destruct a; [trivial | discriminate]. Qed.

Lemma rtrim_tail_fixed (c : ascii) (r : string) :
  detail.rtrim (String c r) = String c r -> detail.rtrim r = r.
Proof.
  cbn [detail.rtrim]. destruct (detail.rtrim r) as [|d r'].
  - destruct (Str.isspace c); [discriminate|]. now intros [= <-].
  - now intros [= <-].
Qed.

Lemma rtrim_app_fixed (a x : string) :
  detail.rtrim x = x -> x <> "" -> detail.rtrim (a ++ x) = a ++ x.
Proof.
  intros Hx Hne. induction a as [|c a IH]; [exact Hx|].
  cbn [append detail.rtrim]. rewrite IH.
  pose proof (append_not_empty a x Hne) as Hax.
  now destruct (a ++ x).
Qed.

Lemma rtrim_idem (s : string) : detail.rtrim (detail.rtrim s) = detail.rtrim s.
Proof.
  induction s as [|c r IH]; [reflexivity|].
  cbn [detail.rtrim]. destruct (detail.rtrim r) as [|d r'] eqn:E.
  - destruct (Str.isspace c) eqn:Hc; [reflexivity|].
    cbn [detail.rtrim]. now rewrite Hc.
  - change (detail.rtrim (String c (String d r')))
      with (match detail.rtrim (String d r') with
            | "" => if Str.isspace c then "" else String c ""
            | String x y => String c (String x y)
            end).
    now rewrite IH.
Qed.

Lemma ltrim_idem (s : string) : detail.ltrim (detail.ltrim s) = detail.ltrim s.
Proof.
  induction s as [|c r IH]; [reflexivity|].
  cbn [detail.ltrim]. destruct (Str.isspace c) eqn:Hc; [exact IH|].
  cbn [detail.ltrim]. now rewrite Hc.
Qed.

Lemma ltrim_front (s : string) (c : ascii) :
  Str.front s = Some c -> Str.isspace c = false -> detail.ltrim s = s.
Proof.
  destruct s as [|d r]; [discriminate|]. intros [= ->] Hc.
  cbn [detail.ltrim]. now rewrite Hc.
Qed.

Lemma front_ltrim (s : string) (c : ascii) :
  Str.front (detail.ltrim s) = Some c -> Str.isspace c = false.
Proof.
  induction s as [|d r IH]; [discriminate|].
  cbn [detail.ltrim]. destruct (Str.isspace d) eqn:Hd; [exact IH|].
  now intros [= <-].
Qed.

Lemma front_rtrim (s : string) (c : ascii) :
  Str.front (detail.rtrim s) = Some c -> Str.front s = Some c.
Proof.
  destruct s as [|d r]; [discriminate|]. cbn [detail.rtrim].
  destruct (detail.rtrim r); [destruct (Str.isspace d)|]; cbn; congruence.
Qed.

Lemma rtrim_front (s : string) (c : ascii) :
  Str.front s = Some c -> Str.isspace c = false ->
  Str.front (detail.rtrim s) = Some c.
Proof.
  destruct s as [|d r]; [discriminate|]. intros [= ->] Hc. cbn [detail.rtrim].
  destruct (detail.rtrim r); [rewrite Hc|]; reflexivity.
Qed.

Lemma front_trim (raw : string) (c : ascii) :
  Str.front (Ini.trim raw) = Some c -> Str.isspace c = false.
Proof. intros H. apply front_rtrim in H. now apply front_ltrim in H. Qed.

Lemma front_append (k x : string) (c : ascii) :
  Str.front k = Some c -> Str.front (k ++ x) = Some c.
Proof. now destruct k. Qed.

Lemma back_append_char (a : string) (c : ascii) :
  Str.back (a ++ String c "") = Some c.
Proof.
  induction a as [|d a IH]; [reflexivity|].
  cbn [append]. destruct (a ++ String c "") eqn:E; [|exact IH].
  now destruct a.
Qed.

Lemma ltrim_drop (s : string) : exists m, detail.ltrim s = Str.drop m s.
Proof.
  induction s as [|c r [m IH]]; [now exists 0|].
  cbn [detail.ltrim]. destruct (Str.isspace c).
  - exists (S m). exact IH.
  - now exists 0.
Qed.

Lemma rtrim_drop_fixed (n : nat) :
  forall s, detail.rtrim s = s -> detail.rtrim (Str.drop n s) = Str.drop n s.
Proof.
  induction n as [|n IH]; intros s Hs; [now destruct s|].
  destruct s as [|c r]; [reflexivity|].
  cbn [Str.drop]. apply IH. now apply rtrim_tail_fixed in Hs.
Qed.

Lemma rtrim_ltrim_fixed (s : string) :
  detail.rtrim s = s -> detail.rtrim (detail.ltrim s) = detail.ltrim s.
Proof.
  intros Hs. destruct (ltrim_drop s) as [m ->]. now apply rtrim_drop_fixed.
Qed.

Lemma take_ge (n : nat) :
  forall v, String.length v <= n -> Str.take n v = v.
Proof.
  induction n as [|n IH]; intros [|c r] H; try reflexivity.
  - simpl in H. lia.
  - cbn [Str.take]. rewrite IH; [reflexivity | simpl in H; lia].
Qed.

Lemma length_drop (n : nat) :
  forall s, String.length (Str.drop n s) <= String.length s.
Proof.
  induction n as [|n IH]; intros [|c r]; simpl; try lia.
  specialize (IH r). lia.
Qed.

(** *** Characters that do not occur *)

Lemma no_char_append ch (a b : string) :
  no_char ch (a ++ b) = no_char ch a && no_char ch b.
Proof.
  induction a as [|c a IH]; [reflexivity|].
  cbn [append no_char]. now rewrite IH, andb_assoc.
Qed.

Lemma no_char_drop ch (n : nat) :
  forall s, no_char ch s = true -> no_char ch (Str.drop n s) = true.
Proof.
  induction n as [|n IH]; intros [|c r] H; try assumption.
  cbn [Str.drop]. apply IH. cbn in H. now apply andb_true_iff in H.
Qed.

Lemma no_char_take ch (n : nat) :
  forall s, no_char ch s = true -> no_char ch (Str.take n s) = true.
Proof.
  induction n as [|n IH]; intros [|c r] H; try reflexivity.
  cbn in *. apply andb_true_iff in H as [H1 H2]. now rewrite H1, IH.
Qed.

Lemma no_char_ltrim ch (s : string) :
  no_char ch s = true -> no_char ch (detail.ltrim s) = true.
Proof.
  intros H. destruct (ltrim_drop s) as [m ->]. now apply no_char_drop.
Qed.

Lemma no_char_rtrim ch (s : string) :
  no_char ch s = true -> no_char ch (detail.rtrim s) = true.
Proof.
  induction s as [|c r IH]; [reflexivity|].
  cbn [no_char detail.rtrim]. intros H. apply andb_true_iff in H as [H1 H2].
  specialize (IH H2). destruct (detail.rtrim r).
  - destruct (Str.isspace c); [reflexivity|]. cbn. now rewrite H1.
  - cbn [no_char] in *. rewrite H1. exact IH.
Qed.

Lemma no_char_trim ch (s : string) :
  no_char ch s = true -> no_char ch (Ini.trim s) = true.
Proof. intros H. now apply no_char_rtrim, no_char_ltrim. Qed.

Lemma find_first_of_append ch (k v : string) :
  no_char ch k = true ->
  Str.find_first_of (k ++ String ch v) ch = Some (String.length k).
Proof.
  induction k as [|c k IH]; intros H.
  - cbn. now rewrite Ascii.eqb_refl.
  - cbn in H. apply andb_true_iff in H as [H1 H2]. apply negb_true_iff in H1.
    cbn [append Str.find_first_of String.length]. now rewrite H1, IH.
Qed.

Lemma find_first_of_take ch (s : string) :
  forall n, Str.find_first_of s ch = Some n ->
            no_char ch (Str.take n s) = true.
Proof.
  induction s as [|c r IH]; intros n; [discriminate|].
  cbn [Str.find_first_of]. destruct (Ascii.eqb c ch) eqn:E.
  - now intros [= <-].
  - destruct (Str.find_first_of r ch) as [m|]; [|discriminate].
    intros [= <-]. cbn [Str.take no_char]. now rewrite E, IH.
Qed.

(** *** std::getline *)

Lemma getlines_line (l rest : string) :
  no_char newline l = true ->
  Ini.getlines (l ++ String newline rest) = l :: Ini.getlines rest.
Proof.
  induction l as [|c l IH]; intros H.
  - reflexivity.
  - cbn in H. apply andb_true_iff in H as [H1 H2]. apply negb_true_iff in H1.
    cbn [append Ini.getlines]. unfold newline in H1. rewrite H1.
    now rewrite (IH H2).
Qed.

Lemma getlines_no_newline (strm : string) :
  Forall (fun l => no_char newline l = true) (Ini.getlines strm).
Proof.
  induction strm as [|c r IH]; [constructor|].
  cbn [Ini.getlines]. destruct (Ascii.eqb c "010") eqn:E.
  - now constructor.
  - destruct (Ini.getlines r) as [|l ls].
    + constructor; [|constructor]. cbn. unfold newline. now rewrite E.
    + inversion IH; subst. constructor; [|assumption].
      cbn. unfold newline. now rewrite E.
Qed.

End TrimFacts.

(** ** generate followed by parse *)

Module RoundTrip.
Import StrFacts MapFacts ParseFacts TrimFacts Canonical.

Lemma key_iff (k : string) :
  key k = true <->
  (exists c, Str.front k = Some c /\ Str.isspace c = false /\
             Ini.is_comment c = false /\
             Ascii.eqb c Ini.char_section_start = false)
  /\ no_char Ini.char_assign k = true
  /\ no_char newline k = true
  /\ detail.rtrim k = k.
Proof.
  unfold key. rewrite !andb_true_iff, String.eqb_eq.
  destruct (Str.front k) as [c|].
  - rewrite !andb_true_iff, !negb_true_iff. split.
    + intros [[[[[H1 H2] H3] H4] H5] H6]. repeat split; eauto 6.
    + intros [(c' & [= <-] & H1 & H2 & H3) (H4 & H5 & H6)]. now repeat split.
  - split; [intros [[[? ?] ?] ?]; discriminate|].
    now intros [(c' & ? & _) _].
Qed.

Lemma value_iff (v : string) :
  value v = true <->
  no_char newline v = true /\ detail.ltrim v = v /\ detail.rtrim v = v.
Proof.
  unfold value. rewrite !andb_true_iff, !String.eqb_eq. tauto.
Qed.

Lemma section_iff (sec : string * Ini.IniSection) :
  section sec = true <->
  no_char newline (fst sec) = true /\ snd sec <> []
  /\ StdMap.sorted (snd sec) = true
  /\ Forall (fun val => entry val = true) (snd sec).
Proof.
  unfold section. rewrite !andb_true_iff, forallb_forall, Forall_forall.
  destruct (snd sec); split; intros H; repeat split; try tauto;
    try discriminate; try (intros ? []).
  all: try (destruct H as [[[? ?] ?] ?]; discriminate).
  all: try (destruct H as (_ & E & _); now elim E).
Qed.

Lemma sections_iff (secs : Ini.Sections) :
  sections secs = true <->
  StdMap.sorted secs = true /\ Forall (fun sec => section sec = true) secs.
Proof.
  unfold sections. now rewrite andb_true_iff, forallb_forall, Forall_forall.
Qed.

(** *** The lines that [generate] writes *)

Lemma getlines_generate_values (sec : Ini.IniSection) (rest : string) :
  Forall (fun val => entry val = true) sec ->
  Ini.getlines (Ini.generate_values sec ++ rest) =
  (map value_line sec ++ Ini.getlines rest)%list.
Proof.
  induction 1 as [|[k v] sec Hkv _ IH]; [reflexivity|].
  unfold entry in Hkv. cbn [fst snd] in Hkv.
  apply andb_true_iff in Hkv as [Hk Hv].
  apply key_iff in Hk as (_ & _ & Hk & _).
  apply value_iff in Hv as (Hv & _).
  cbn [Ini.generate_values fold_right map fst snd app].
  fold (Ini.generate_values sec).
  replace ((k ++ String Ini.char_assign v ++ Ini.endl
              ++ Ini.generate_values sec) ++ rest)
    with (value_line (k, v)
            ++ String newline (Ini.generate_values sec ++ rest)).
  - rewrite getlines_line, IH; [reflexivity|].
    unfold value_line. cbn [fst snd]. rewrite no_char_append. cbn [no_char].
    now rewrite Hk, Hv.
  - unfold value_line, Ini.endl, newline. cbn [fst snd].
    repeat (progress (rewrite ?append_assoc; cbn [append])). reflexivity.
Qed.

Lemma getlines_generate (secs : Ini.Sections) :
  Forall (fun sec => section sec = true) secs ->
  Ini.getlines (Ini.generate secs) = lines secs.
Proof.
  induction 1 as [|[name sec] secs Hsec _ IH]; [reflexivity|].
  apply section_iff in Hsec as (Hname & _ & _ & Hall). cbn [fst snd] in *.
  cbn [Ini.generate fold_right fst snd lines flat_map].
  fold (Ini.generate secs). fold (lines secs).
  unfold section_lines. cbn [fst snd].
  replace (String Ini.char_section_start name
             ++ String Ini.char_section_end Ini.endl
             ++ Ini.generate_values sec ++ Ini.endl ++ Ini.generate secs)
    with (header_line name
            ++ String newline
                 (Ini.generate_values sec
                    ++ String newline (Ini.generate secs))).
  - rewrite getlines_line.
    + rewrite (getlines_generate_values _ _ Hall).
      change (String newline (Ini.generate secs))
        with ("" ++ String newline (Ini.generate secs)).
      rewrite getlines_line by reflexivity. rewrite IH.
      cbn [app]. now rewrite <- app_assoc.
    + unfold header_line. cbn [no_char]. rewrite no_char_append, Hname.
      reflexivity.
  - unfold header_line, Ini.endl, newline.
    repeat (progress (rewrite ?append_assoc; cbn [append])). reflexivity.
Qed.

(** *** Parsing a generated line *)

Lemma trim_header_line (name : string) :
  Ini.trim (header_line name) = header_line name.
Proof.
  unfold Ini.trim, header_line.
  rewrite (ltrim_front _ Ini.char_section_start) by reflexivity.
  change (String Ini.char_section_start (name ++ String Ini.char_section_end ""))
    with (String Ini.char_section_start name ++ String Ini.char_section_end "").
  now apply rtrim_app_fixed.
Qed.

Lemma parse_header_line (ini : Ini.t) (cur name : string) :
  Ini.parse_line Ini.is_comment (ini, cur) (header_line name) = (ini, name).
Proof.
  rewrite parse_line_header; rewrite ?trim_header_line; try reflexivity.
  - f_equal. unfold header_line, Str.substr.
    cbn [String.length Str.drop Nat.sub]. rewrite length_append.
    cbn [String.length]. replace (String.length name + 1 - 1)
      with (String.length name) by lia.
    apply take_append.
  - unfold header_line.
    change (String Ini.char_section_start
              (name ++ String Ini.char_section_end ""))
      with (String Ini.char_section_start name
              ++ String Ini.char_section_end "").
    apply back_append_char.
Qed.

Lemma trim_value_line (k v : string) :
  key k = true -> value v = true ->
  Ini.trim (value_line (k, v)) = value_line (k, v).
Proof.
  intros Hk Hv. apply key_iff in Hk as ((c & Hf & Hc & _) & _).
  apply value_iff in Hv as (_ & _ & Hv).
  unfold Ini.trim, value_line. cbn [fst snd].
  rewrite (ltrim_front _ c) by (try apply front_append; assumption).
  apply rtrim_app_fixed; [|discriminate].
  cbn [detail.rtrim]. rewrite Hv. now destruct v.
Qed.

Lemma drop_append_char (k v : string) (c : ascii) :
  Str.drop (String.length k + 1) (k ++ String c v) = v.
Proof. induction k as [|d k IH]; [now destruct v | exact IH]. Qed.

Lemma key_value_line (k v : string) :
  key k = true -> value v = true ->
  Ini.key_value (value_line (k, v)) = Some (k, v).
Proof.
  intros Hk Hv. unfold Ini.key_value. rewrite (trim_value_line _ _ Hk Hv).
  apply key_iff in Hk as ((c & Hf & Hc & Hcom & Hsec) & Hass & _ & Hrt).
  apply value_iff in Hv as (_ & Hlt & _).
  unfold value_line. cbn [fst snd].
  rewrite (front_append _ _ _ Hf), Hcom, Hsec.
  rewrite (find_first_of_append _ _ _ Hass).
  destruct k as [|d k']; [discriminate|].
  cbn [String.length]. f_equal. f_equal.
  - unfold Str.substr. change (Str.drop 0 ?s) with s.
    rewrite <- (Hrt) at 2. f_equal.
    apply (take_append (String d k')).
  - unfold Str.substr.
    change (S (String.length k') + 1) with (String.length (String d k') + 1).
    rewrite drop_append_char. rewrite take_ge; [exact Hlt|].
    rewrite length_append. cbn [String.length]. lia.
Qed.

(** *** Parsing the generated lines of whole sections *)

Lemma parse_lines_cons ic (l : string) (ls : list string) st :
  Ini.parse_lines ic (l :: ls) st =
  Ini.parse_lines ic ls (Ini.parse_line ic st l).
Proof. reflexivity. Qed.

Lemma parse_lines_app ic (l1 l2 : list string) st :
  Ini.parse_lines ic (l1 ++ l2)%list st =
  Ini.parse_lines ic l2 (Ini.parse_lines ic l1 st).
Proof. apply fold_left_app. Qed.

Section Lines.
Local Open Scope list_scope.
Variable acc : Ini.Sections.
Variable name : string.
Variable errs : list string.
Hypothesis acc_below : StdMap.below acc name.

Lemma parse_first_value_line (k v : string) :
  entry (k, v) = true ->
  Ini.parse_line Ini.is_comment (Ini.mk acc errs, name) (value_line (k, v)) =
  (Ini.mk (acc ++ [(name, [(k, v)])]) errs, name).
Proof.
  intros H. unfold entry in H. cbn [fst snd] in H.
  apply andb_true_iff in H as [Hk Hv].
  rewrite (parse_line_key_value _ _ _ _ _ (key_value_line _ _ Hk Hv)).
  unfold Ini.define, StdMap.subscript. cbn [Ini.sections Ini.errors].
  rewrite (insert_last _ _ _ acc_below), (find_last _ _ _ acc_below).
  cbn [StdMap.find]. now rewrite (update_last _ _ _ _ acc_below).
Qed.

Lemma parse_value_lines (todo : Ini.IniSection) :
  forall done,
    StdMap.sorted (done ++ todo) = true ->
    Forall (fun val => entry val = true) todo ->
    Ini.parse_lines Ini.is_comment (map value_line todo)
      (Ini.mk (acc ++ [(name, done)]) errs, name) =
    (Ini.mk (acc ++ [(name, done ++ todo)]) errs, name).
Proof.
  induction todo as [|[k v] todo IH]; intros done Hs Hall.
  - now rewrite app_nil_r.
  - inversion Hall as [|? ? Hkv Hrest]; subst.
    pose proof (sorted_app_below _ _ _ _ Hs) as Hbelow.
    unfold entry in Hkv. cbn [fst snd] in Hkv.
    apply andb_true_iff in Hkv as [Hk Hv].
    cbn [map Ini.parse_lines fold_left].
    rewrite (parse_line_key_value _ _ _ _ _ (key_value_line _ _ Hk Hv)).
    unfold Ini.define, StdMap.subscript. cbn [Ini.sections Ini.errors].
    rewrite (insert_last_present _ _ _ _ acc_below).
    rewrite (find_last _ _ _ acc_below), (find_below _ _ Hbelow).
    rewrite (update_last _ _ _ _ acc_below), (insert_last _ _ _ Hbelow).
    specialize (IH (done ++ [(k, v)])). rewrite <- app_assoc in IH.
    cbn [app] in IH. apply IH; assumption.
Qed.

End Lines.

Lemma parse_generated_lines (rest : Ini.Sections) :
  forall acc errs cur,
    StdMap.sorted (acc ++ rest)%list = true ->
    Forall (fun sec => section sec = true) rest ->
    exists cur',
      Ini.parse_lines Ini.is_comment (lines rest) (Ini.mk acc errs, cur) =
      (Ini.mk (acc ++ rest)%list errs, cur').
Proof.
  induction rest as [|[name sec] rest IH]; intros acc errs cur Hs Hall.
  - exists cur. now rewrite app_nil_r.
  - inversion Hall as [|? ? Hsec Hrest]; subst.
    apply section_iff in Hsec as (_ & Hne & Hsorted & Hentries).
    cbn [fst snd] in *.
    pose proof (sorted_app_below _ _ _ _ Hs) as Hbelow.
    destruct sec as [|[k v] sec]; [now elim Hne|].
    inversion Hentries as [|? ? Hkv Hsec']; subst.
    destruct (IH (acc ++ [(name, (k, v) :: sec)])%list errs name)
      as [cur' Hcur']; [now rewrite <- app_assoc | assumption |].
    exists cur'.
    cbn [lines flat_map]. fold (lines rest).
    unfold section_lines. cbn [fst snd map].
    rewrite parse_lines_app.
    rewrite parse_lines_cons, parse_header_line.
    rewrite <- app_comm_cons, parse_lines_cons.
    rewrite (parse_first_value_line acc name errs Hbelow k v Hkv).
    rewrite parse_lines_app.
    rewrite (parse_value_lines acc name errs Hbelow sec [(k, v)] Hsorted Hsec').
    rewrite parse_lines_cons, parse_line_blank by reflexivity.
    cbn [Ini.parse_lines fold_left app] in *. rewrite Hcur'.
    now rewrite <- app_assoc.
Qed.

(** Sections of the shape that [parse] builds are read back as they
    are from the text that [generate] writes for them. *)
Lemma parse_generate (secs : Ini.Sections) :
  sections secs = true ->
  Ini.parse (Ini.generate secs) Ini.empty = Ini.mk secs [].
Proof.
  intros H. apply sections_iff in H as [Hs Hall].
  unfold Ini.parse. rewrite (getlines_generate _ Hall).
  destruct (parse_generated_lines secs [] [] "" Hs Hall) as [cur' H].
  unfold Ini.empty. now rewrite H.
Qed.

(** *** What parse builds *)

Lemma key_value_canonical (raw k v : string) :
  no_char newline raw = true ->
  Ini.key_value raw = Some (k, v) ->
  key k = true /\ value v = true.
Proof.
  intros Hnl. unfold Ini.key_value.
  pose proof (no_char_trim _ _ Hnl) as Hline.
  pose proof (rtrim_idem (detail.ltrim raw)) as Hfix.
  fold (Ini.trim raw) in Hfix.
  pose proof (front_trim raw) as Hfront.
  destruct (Str.front (Ini.trim raw)) as [c|] eqn:Hf; [|discriminate].
  specialize (Hfront c eq_refl).
  destruct (Ini.is_comment c) eqn:Hcom; [discriminate|].
  destruct (Ascii.eqb c Ini.char_section_start) eqn:Hsec; [discriminate|].
  destruct (Str.find_first_of (Ini.trim raw) Ini.char_assign) as [[|p]|] eqn:Hpos;
    try discriminate.
  intros [= <- <-]. unfold Str.substr. change (Str.drop 0 ?s) with s. split.
  - apply key_iff. repeat split.
    + exists c. repeat split; try assumption.
      apply rtrim_front; [|assumption].
      destruct (Ini.trim raw); [discriminate|]. exact Hf.
    + apply no_char_rtrim. now apply find_first_of_take.
    + now apply no_char_rtrim, no_char_take.
    + apply rtrim_idem.
  - apply value_iff. repeat split.
    + now apply no_char_ltrim, no_char_take, no_char_drop.
    + apply ltrim_idem.
    + rewrite take_ge by apply length_drop.
      now apply rtrim_ltrim_fixed, rtrim_drop_fixed.
Qed.

Lemma parse_line_section ic ini cur raw :
  snd (Ini.parse_line ic (ini, cur) raw) = cur \/
  snd (Ini.parse_line ic (ini, cur) raw) =
    Str.substr (Ini.trim raw) 1 (String.length (Ini.trim raw) - 2).
Proof.
  unfold Ini.parse_line, Ini.define.
  repeat match goal with
         | |- context [match ?x with _ => _ end] => destruct x
         | |- context [if ?x then _ else _] => destruct x
         end; cbn; auto.
Qed.

Lemma insert_not_nil {V : Type} k (v : V) (m : StdMap.t V) :
  StdMap.insert k v m <> [].
Proof.
  destruct m as [|[k0 v0] m]; cbn [StdMap.insert]; [discriminate|].
  destruct (String.compare k k0); discriminate.
Qed.

Lemma Forall_update_insert {V : Type} (P : string * V -> Prop) k d
      (f : V -> V) (m : StdMap.t V) :
  Forall P m ->
  (forall v, v = d \/ P (k, v) -> P (k, f v)) ->
  Forall P (StdMap.update k f (StdMap.insert k d m)).
Proof.
  intros Hm Hf. induction Hm as [|[k0 v0] m H0 Hm IH].
  - cbn. rewrite compare_refl. constructor; [|constructor]. apply Hf. now left.
  - cbn [StdMap.insert]. destruct (String.compare k k0) eqn:C.
    + cbn [StdMap.update]. rewrite C. apply compare_eq in C. subst k0.
      constructor; [|assumption]. apply Hf. now right.
    + cbn [StdMap.update]. rewrite compare_refl.
      constructor; [apply Hf; now left|]. now constructor.
    + cbn [StdMap.update]. rewrite C. now constructor.
Qed.

Lemma define_canonical ini cur line k v :
  sections (Ini.sections ini) = true ->
  no_char newline cur = true ->
  key k = true -> value v = true ->
  sections (Ini.sections (fst (Ini.define ini cur line k v))) = true.
Proof.
  intros Hcan Hcur Hk Hv. pose proof Hcan as Hcan'.
  apply sections_iff in Hcan' as [Hs Hall].
  destruct (Ini.lookup cur k (Ini.sections ini)) as [x|] eqn:L.
  - now rewrite (define_present _ _ _ _ _ _ L).
  - rewrite (define_absent _ _ _ _ _ Hs L). cbn [fst Ini.sections].
    apply sections_iff. split.
    + unfold StdMap.sorted, StdMap.subscript in *. rewrite keys_update.
      now apply keys_insert_sorted.
    + apply Forall_update_insert; [assumption|].
      intros s Hsec. apply section_iff. cbn [fst snd].
      assert (Hs' : StdMap.sorted s = true /\
                    Forall (fun val => entry val = true) s).
      { destruct Hsec as [-> | Hsec]; [now split|].
        now apply section_iff in Hsec as (_ & _ & ? & ?). }
      destruct Hs' as [Hsorted Hentries].
      repeat split; try assumption.
      * apply insert_not_nil.
      * now apply keys_insert_sorted.
      * apply Forall_insert; [|assumption].
        unfold entry. cbn [fst snd]. now rewrite Hk, Hv.
Qed.

Lemma parse_line_canonical ini cur raw :
  no_char newline raw = true ->
  sections (Ini.sections ini) = true ->
  no_char newline cur = true ->
  sections (Ini.sections (fst (Ini.parse_line Ini.is_comment (ini, cur) raw)))
  = true
  /\ no_char newline (snd (Ini.parse_line Ini.is_comment (ini, cur) raw))
     = true.
Proof.
  intros Hraw Hcan Hcur. split.
  - destruct (parse_line_cases ini cur raw) as [-> | (k & v & Hkv & ->)];
      [assumption|].
    destruct (key_value_canonical _ _ _ Hraw Hkv) as [Hk Hv].
    now apply define_canonical.
  - destruct (parse_line_section Ini.is_comment ini cur raw) as [-> | ->];
      [assumption|].
    unfold Str.substr. now apply no_char_take, no_char_drop, no_char_trim.
Qed.

Lemma parse_lines_canonical (ls : list string) :
  Forall (fun l => no_char newline l = true) ls ->
  forall ini cur,
    sections (Ini.sections ini) = true ->
    no_char newline cur = true ->
    sections (Ini.sections (fst (Ini.parse_lines Ini.is_comment ls (ini, cur))))
    = true.
Proof.
  induction 1 as [|raw ls Hraw _ IH]; intros ini cur Hcan Hcur; [assumption|].
  rewrite parse_lines_cons.
  destruct (parse_line_canonical ini cur raw Hraw Hcan Hcur) as [H1 H2].
  destruct (Ini.parse_line Ini.is_comment (ini, cur) raw) as [ini1 cur1].
  now apply IH.
Qed.

(** Whatever the text, [parse] on an empty object builds sections of
    the canonical shape. *)
Lemma parse_canonical (text : string) :
  sections (Ini.sections (Ini.parse text Ini.empty)) = true.
Proof.
  unfold Ini.parse. apply parse_lines_canonical; try reflexivity.
  apply getlines_no_newline.
Qed.

(** C9.  For every input text, in particular for one whose parsed keys
    and values contain no [=], [[], []] and no leading or trailing
    whitespace, parsing the text that [generate] writes for the parsed
    Document gives the sections of the parsed Document again (and an
    empty error log). *)
Theorem generate_parse_roundtrip (text : string) :
  Ini.sections
    (Ini.parse (Ini.generate (Ini.sections (Ini.parse text Ini.empty)))
               Ini.empty)
  = Ini.sections (Ini.parse text Ini.empty)
  /\ Ini.errors
       (Ini.parse (Ini.generate (Ini.sections (Ini.parse text Ini.empty)))
                  Ini.empty)
     = [].
Proof.
  rewrite (parse_generate _ (parse_canonical text)). now split.
Qed.

(** C2 is not what the code does: the key [b] is inserted before the
    key [a], and [generate] writes [a] first. *)
Lemma insertion_order_not_preserved :
  Ini.getlines
    (Ini.generate
       (Ini.sections
          (Ini.parse ("b=1" ++ Ini.endl ++ "a=2" ++ Ini.endl) Ini.empty)))
  = ["[]"; "a=2"; "b=1"; ""]
  /\ Ini.getlines
       (Ini.generate
          (Ini.sections
             (Ini.parse ("[t]" ++ Ini.endl ++ "x=1" ++ Ini.endl
                           ++ "[s]" ++ Ini.endl ++ "y=2" ++ Ini.endl)
                        Ini.empty)))
     = ["[s]"; "y=2"; ""; "[t]"; "x=1"; ""].
Proof. split; reflexivity. Qed.

(** C2 (as amended).  The sections of a parsed Document are kept in
    ascending order of their names and the pairs of every section in
    ascending order of their keys, whatever the order of the lines;
    [parse] keeps this order on any Document that has it.  [generate]
    writes, section after section in that order, the header, one
    [key=value] line per pair in that order, and an empty line. *)
Theorem generate_in_key_order (text : string) :
  let secs := Ini.sections (Ini.parse text Ini.empty) in
  StdMap.sorted secs = true
  /\ Forall (fun sec => StdMap.sorted (snd sec) = true) secs
  /\ Ini.getlines (Ini.generate secs) =
     flat_map
       (fun sec =>
          (String "[" (fst sec ++ "]")%string
             :: map (fun val => (fst val ++ String "=" (snd val))%string)
                    (snd sec)
             ++ [""])%list)
       secs
  /\ (forall ini,
        Ini.wf (Ini.sections ini) = true ->
        Ini.wf (Ini.sections (Ini.parse text ini)) = true).
Proof.
  intros secs. pose proof (parse_canonical text) as Hcan. fold secs in Hcan.
  apply sections_iff in Hcan as [Hs Hall]. split; [exact Hs|]. split; [|split].
  - eapply Forall_impl; [|exact Hall]. intros sec Hsec.
    now apply section_iff in Hsec as (_ & _ & ? & _).
  - exact (getlines_generate secs Hall).
  - intros ini Hwf. unfold Ini.parse. now apply parse_lines_wf.
Qed.

End RoundTrip.

(** * Further properties *)

(** ** ltrim and rtrim *)

Module TrimProps.
Import StrFacts TrimFacts Text.

Lemma rtrim_all_space (ws : string) :
  all_space ws = true -> detail.rtrim ws = "".
Proof.
  induction ws as [|c ws IH]; [reflexivity|].
  cbn [all_space detail.rtrim]. intros H. apply andb_true_iff in H as [Hc Hws].
  now rewrite (IH Hws), Hc.
Qed.

Lemma ltrim_all_space_append (ws s : string) :
  all_space ws = true -> detail.ltrim (ws ++ s) = detail.ltrim s.
Proof.
  induction ws as [|c ws IH]; [reflexivity|].
  cbn [all_space append detail.ltrim]. intros H.
  apply andb_true_iff in H as [Hc Hws]. now rewrite Hc, IH.
Qed.

Lemma rtrim_append_all_space (s ws : string) :
  all_space ws = true -> detail.rtrim (s ++ ws) = detail.rtrim s.
Proof.
  intros H. induction s as [|c s IH]; [now apply rtrim_all_space|].
  cbn [append detail.rtrim]. now rewrite IH.
Qed.

Lemma rtrim_ltrim_commute (s : string) :
  detail.rtrim (detail.ltrim s) = detail.ltrim (detail.rtrim s).
Proof.
  induction s as [|c r IH]; [reflexivity|].
  cbn [detail.ltrim]. destruct (Str.isspace c) eqn:Hc.
  - rewrite IH. cbn [detail.rtrim]. destruct (detail.rtrim r) as [|d r'].
    + now rewrite Hc.
    + cbn [detail.ltrim]. now rewrite Hc.
  - symmetry. apply (ltrim_front _ c); [|assumption].
    now apply rtrim_front.
Qed.

Lemma trim_idem (s : string) : Ini.trim (Ini.trim s) = Ini.trim s.
Proof.
  unfold Ini.trim. rewrite <- (rtrim_ltrim_commute (detail.ltrim s)).
  now rewrite ltrim_idem, rtrim_idem.
Qed.

Lemma trim_padded (ws1 s ws2 : string) :
  all_space ws1 = true -> all_space ws2 = true ->
  Ini.trim (ws1 ++ s ++ ws2) = Ini.trim s.
Proof.
  intros H1 H2. unfold Ini.trim. rewrite (ltrim_all_space_append _ _ H1).
  rewrite !rtrim_ltrim_commute. now rewrite (rtrim_append_all_space _ _ H2).
Qed.

(** X1.  [ltrim] removes the whole leading run of whitespace and nothing
    else: what it removes is whitespace, and what it leaves does not
    start with whitespace. *)
Theorem ltrim_strips_leading_whitespace (s : string) :
  exists ws,
    s = ws ++ detail.ltrim s /\ all_space ws = true /\
    forall c, Str.front (detail.ltrim s) = Some c -> Str.isspace c = false.
Proof.
  induction s as [|c r (ws & Hs & Hws & Hfront)].
  - exists "". repeat split. discriminate.
  - cbn [detail.ltrim]. destruct (Str.isspace c) eqn:Hc.
    + exists (String c ws). cbn [append all_space]. rewrite Hc, Hws.
      repeat split; [now f_equal | assumption].
    + exists "". repeat split. now intros c' [= <-].
Qed.

(** X2.  [rtrim] removes the whole trailing run of whitespace and nothing
    else: what it removes is whitespace, and what it leaves does not
    end with whitespace. *)
Theorem rtrim_strips_trailing_whitespace (s : string) :
  exists ws,
    s = detail.rtrim s ++ ws /\ all_space ws = true /\
    forall c, Str.back (detail.rtrim s) = Some c -> Str.isspace c = false.
Proof.
  induction s as [|c r (ws & Hs & Hws & Hback)].
  - exists "". repeat split. discriminate.
  - cbn [detail.rtrim]. destruct (detail.rtrim r) as [|d r'] eqn:E.
    + destruct (Str.isspace c) eqn:Hc.
      * exists (String c ws). cbn [append all_space]. rewrite Hc, Hws.
        repeat split; [now f_equal | discriminate].
      * exists ws. cbn [append]. repeat split; [now f_equal | assumption |].
        now intros c' [= <-].
    + exists ws. cbn [append] in *. repeat split; [now f_equal | assumption |].
      exact Hback.
Qed.

(** X3.  The two trims can be applied in either order, and trimming a
    trimmed string changes nothing. *)
Theorem trim_order_and_idempotence (s : string) :
  detail.rtrim (detail.ltrim s) = detail.ltrim (detail.rtrim s)
  /\ detail.ltrim (detail.ltrim s) = detail.ltrim s
  /\ detail.rtrim (detail.rtrim s) = detail.rtrim s
  /\ detail.ltrim (detail.rtrim (detail.ltrim s)) = detail.rtrim (detail.ltrim s).
Proof.
  split; [apply rtrim_ltrim_commute|]. split; [apply ltrim_idem|].
  split; [apply rtrim_idem|].
  now rewrite <- rtrim_ltrim_commute, ltrim_idem.
Qed.

End TrimProps.

(** ** detail::replace, further *)

Module ReplaceProps.
Import StrFacts ReplaceFacts.

Lemma scan_self (from : string) :
  from <> "" ->
  forall n s, String.length s <= n -> detail.scan from from 0 s = s.
Proof.
  intros Hne. induction n as [|n IH]; intros s Hlen.
  - destruct s; [reflexivity | simpl in Hlen; lia].
  - destruct (Str.find0 from s) as [p|] eqn:F.
    + destruct (find0_Some _ _ _ F) as (u & w & -> & Hu). subst p.
      rewrite (scan_first from from u w Hne F). rewrite IH; [reflexivity|].
      rewrite !length_append in Hlen.
      destruct from; [congruence | simpl in Hlen; lia].
    + now apply scan_absent.
Qed.

(** With an empty pattern, started behind a part [a] of the text, every
    turn puts one more copy of the replacement behind [a]. *)
Lemma replace_turns_empty_pattern (to : string) :
  forall n a b,
    detail.replace_turns n (a ++ b) "" to (String.length a) =
    Some (a ++ Closed.copies n to ++ b,
          String.length a + n * String.length to).
Proof.
  induction n as [|n IH]; intros a b.
  - cbn [detail.replace_turns Closed.copies append]. now rewrite Nat.add_0_r.
  - cbn [detail.replace_turns]. rewrite find_append.
    assert (F : Str.find0 "" b = Some 0) by now destruct b.
    rewrite F. cbn [option_map String.length]. rewrite Nat.add_0_r.
    pose proof (replace_range_occurrence a "" b to) as R. simpl in R.
    rewrite R, <- length_append, <- append_assoc, IH.
    cbn [Closed.copies]. rewrite length_append, !append_assoc.
    f_equal. f_equal. lia.
Qed.

Lemma length_copies (n : nat) (s : string) :
  String.length (Closed.copies n s) = n * String.length s.
Proof.
  induction n as [|n IH]; [reflexivity|].
  cbn [Closed.copies]. rewrite length_append, IH. reflexivity.
Qed.

(** X4.  With an empty pattern the condition of the loop holds at every
    turn: after [n] turns the loop is still running, the text is the
    original text behind [n] copies of the replacement and [start_pos]
    is just behind the copies.  With an empty replacement the state is
    the same at every turn, and the call runs for ever.  With a
    non-empty replacement the text is longer by the length of the
    replacement at every turn: the loop is not left through its
    condition, and the C++ call ends only when the string cannot grow
    any further, by the exception of [std::string].  In both cases the
    call has no result, whatever the budget. *)
Theorem replace_empty_pattern_turns (str to : string) (n : nat) :
  detail.replace_turns n str "" to 0 =
    Some (Closed.copies n to ++ str, n * String.length to)
  /\ String.length (Closed.copies n to ++ str) =
     n * String.length to + String.length str
  /\ detail.replace_turns n str "" "" 0 = Some (str, 0)
  /\ (forall fuel, detail.replace_loop fuel str "" to 0 false = None)
  /\ detail.replace str "" to = None.
Proof.
  split; [exact (replace_turns_empty_pattern to n "" str)|].
  split; [now rewrite length_append, length_copies|].
  split.
  { pose proof (replace_turns_empty_pattern "" n "" str) as H.
    cbn [append String.length] in H. rewrite Nat.mul_0_r in H. rewrite H.
    f_equal. f_equal. clear.
    induction n as [|n IH]; [reflexivity | exact IH]. }
  split; [intros fuel|unfold detail.replace];
    apply replace_empty_pattern_diverges; lia.
Qed.

(** X5.  Replacing a pattern by itself leaves the text as it is, and the
    call still reports a change whenever the pattern occurs. *)
Theorem replace_by_itself (str from : string) :
  from <> "" ->
  detail.replace str from from = Some (str, detail.occurs from str).
Proof.
  intros Hne. rewrite (replace_fuel_enough str from from Hne).
  unfold detail.replace_all. now rewrite (scan_self from Hne _ str (le_n _)).
Qed.

Lemma replace_by_itself_witness :
  detail.replace "a${s:a}b" "${s:a}" "${s:a}" = Some ("a${s:a}b", true).
Proof.
  exact (replace_by_itself "a${s:a}b" "${s:a}" ltac:(discriminate)).
Defined.

End ReplaceProps.

(** ** parse, further *)

Module ParseProps.
Import StrFacts MapFacts ParseFacts TrimFacts Canonical Text.

(** X6.  Whitespace around a line plays no part in what [parse] does with
    it, whatever the comment classifier. *)
Theorem surrounding_whitespace_ignored
        (is_comment : ascii -> bool) (st : Ini.t * string)
        (ws1 raw ws2 : string) :
  all_space ws1 = true -> all_space ws2 = true ->
  Ini.parse_line is_comment st (ws1 ++ raw ++ ws2) =
  Ini.parse_line is_comment st raw.
Proof.
  intros H1 H2. unfold Ini.parse_line.
  now rewrite (TrimProps.trim_padded _ _ _ H1 H2).
Qed.

Lemma surrounding_whitespace_ignored_witness :
  Ini.parse_line Ini.is_comment (Ini.empty, "s") "  k = v  " =
  Ini.parse_line Ini.is_comment (Ini.empty, "s") "k = v".
Proof.
  exact (surrounding_whitespace_ignored Ini.is_comment (Ini.empty, "s")
           "  " "k = v" "  " eq_refl eq_refl).
Defined.

(** X7.  A blank line or a comment line can be dropped from the input, or
    added to it, anywhere, without any effect on the result. *)
Theorem blank_and_comment_lines_ignored
        (is_comment : ascii -> bool) (pre post : list string) (raw : string)
        (st : Ini.t * string) :
  (Ini.trim raw = "" \/
   exists c, Str.front (Ini.trim raw) = Some c /\ is_comment c = true) ->
  Ini.parse_lines is_comment (pre ++ raw :: post)%list st =
  Ini.parse_lines is_comment (pre ++ post)%list st.
Proof.
  intros H. unfold Ini.parse_lines. rewrite !fold_left_app. cbn [fold_left].
  f_equal. destruct H as [H | (c & Hf & Hc)].
  - now apply parse_line_blank.
  - now apply parse_line_comment with c.
Qed.

Lemma blank_and_comment_lines_ignored_witness :
  Ini.parse_lines Ini.is_comment ["[s]"; " ; note"; "k=v"] (Ini.empty, "") =
  Ini.parse_lines Ini.is_comment ["[s]"; "k=v"] (Ini.empty, "").
Proof.
  exact (blank_and_comment_lines_ignored Ini.is_comment ["[s]"] ["k=v"]
           " ; note" (Ini.empty, "")
           (or_intror (ex_intro _ ";"%char (conj eq_refl eq_refl)))).
Defined.

Lemma find_map_nil k (sec0 : option Ini.IniSection) :
  StdMap.find k match sec0 with Some s => s | None => [] end =
  match sec0 with Some s => StdMap.find k s | None => None end.
Proof. now destruct sec0. Qed.

(** What the key-value branch leaves at each section name. *)
Lemma define_find ini cur line k v name :
  Ini.wf (Ini.sections ini) = true ->
  StdMap.find name (Ini.sections (fst (Ini.define ini cur line k v))) =
  if String.eqb name cur
  then Some (StdMap.insert k v
               match StdMap.find cur (Ini.sections ini) with
               | Some s => s
               | None => []
               end)
  else StdMap.find name (Ini.sections ini).
Proof.
  intros Hwf. pose proof Hwf as Hwf'. apply wf_iff in Hwf' as [Hs _].
  unfold Ini.define. rewrite (find_subscript _ _ Hs).
  destruct (StdMap.find k _) as [x|] eqn:Fk; cbn [fst Ini.sections Ini.push_error].
  - unfold StdMap.subscript. rewrite (find_insert _ _ _ _ Hs).
    destruct (String.eqb_spec name cur) as [->|Hne]; [|reflexivity].
    rewrite (insert_present _ _ _ _ Fk).
    now destruct (StdMap.find cur (Ini.sections ini)).
  - rewrite find_update. unfold StdMap.subscript.
    rewrite (find_insert _ _ _ _ Hs).
    destruct (String.eqb_spec name cur) as [->|Hne]; [|reflexivity].
    now destruct (StdMap.find cur (Ini.sections ini)).
Qed.

Lemma define_section ini cur line k v :
  snd (Ini.define ini cur line k v) = cur.
Proof. unfold Ini.define. now destruct (StdMap.find k _). Qed.

Lemma wf_current_sorted ini cur :
  Ini.wf (Ini.sections ini) = true ->
  StdMap.sorted match StdMap.find cur (Ini.sections ini) with
                | Some s => s
                | None => ([] : Ini.IniSection)
                end = true.
Proof.
  intros Hwf. destruct (StdMap.find cur (Ini.sections ini)) as [s|] eqn:F;
    [|reflexivity].
  exact (ParseClaims.wf_find _ _ _ Hwf F).
Qed.

(** X8.  A key-value line whose key is not yet in the current section
    stores the trimmed value under the trimmed key there; the error
    log, the current section and every other key of the Document stay
    as they are. *)
Theorem key_value_line_defines
        (ini : Ini.t) (cur raw k v : string) :
  Ini.wf (Ini.sections ini) = true ->
  Ini.key_value raw = Some (k, v) ->
  Ini.lookup cur k (Ini.sections ini) = None ->
  let st := Ini.parse_line Ini.is_comment (ini, cur) raw in
  Ini.lookup cur k (Ini.sections (fst st)) = Some v
  /\ Ini.errors (fst st) = Ini.errors ini
  /\ snd st = cur
  /\ (forall s k',
        (s, k') <> (cur, k) ->
        Ini.lookup s k' (Ini.sections (fst st)) =
        Ini.lookup s k' (Ini.sections ini)).
Proof.
  intros Hwf Hkv Habs st. subst st.
  rewrite (parse_line_key_value _ _ _ _ _ Hkv).
  pose proof (wf_current_sorted ini cur Hwf) as Hsec.
  assert (Hl : forall s k',
             Ini.lookup s k'
               (Ini.sections (fst (Ini.define ini cur (Ini.trim raw) k v))) =
             if String.eqb s cur
             then if String.eqb k' k
                  then match Ini.lookup cur k (Ini.sections ini) with
                       | Some x => Some x
                       | None => Some v
                       end
                  else Ini.lookup cur k' (Ini.sections ini)
             else Ini.lookup s k' (Ini.sections ini)).
  { intros s k'. unfold Ini.lookup. rewrite (define_find _ _ _ _ _ _ Hwf).
    destruct (String.eqb_spec s cur) as [->|Hne]; [|reflexivity].
    rewrite (find_insert _ _ _ _ Hsec), !find_map_nil.
    destruct (String.eqb_spec k' k) as [->|_]; reflexivity. }
  split; [|split; [|split]].
  - now rewrite Hl, !String.eqb_refl, Habs.
  - pose proof Hwf as Hwf'. apply wf_iff in Hwf' as [Hs _].
    now rewrite (define_absent _ _ _ _ _ Hs Habs).
  - apply define_section.
  - intros s k' Hne. rewrite Hl.
    destruct (String.eqb_spec s cur) as [->|Hs]; [|reflexivity].
    destruct (String.eqb_spec k' k) as [->|Hk]; [congruence | reflexivity].
Qed.

Lemma key_value_line_defines_witness :
  Ini.lookup "s" "k"
    (Ini.sections
       (fst (Ini.parse_line Ini.is_comment
               (Ini.mk [("s", [("a", "1")])] [], "s") " k = v w ")))
  = Some "v w".
Proof.
  exact (proj1 (key_value_line_defines (Ini.mk [("s", [("a", "1")])] [])
                  "s" " k = v w " "k" "v w" eq_refl eq_refl eq_refl)).
Defined.

(** *** The error log *)

Lemma parse_line_errors_shape ic ini cur raw :
  Ini.errors (fst (Ini.parse_line ic (ini, cur) raw)) = Ini.errors ini \/
  (Ini.errors (fst (Ini.parse_line ic (ini, cur) raw)) =
     (Ini.errors ini ++ [Ini.trim raw])%list
   /\ exists c, Str.front (Ini.trim raw) = Some c /\ ic c = false).
Proof.
  unfold Ini.parse_line, Ini.define.
  destruct (Str.front (Ini.trim raw)) as [c|] eqn:Hf; [|now left].
  destruct (ic c) eqn:Hc; [now left|].
  repeat match goal with
         | |- context [match ?x with _ => _ end] => destruct x
         | |- context [if ?x then _ else _] => destruct x
         end; cbn; eauto.
Qed.

(** X9.  The error log only grows, by at most one entry per line; every
    entry added is the trimmed form of a line of the input, is not
    empty, starts with a character that is neither whitespace nor a
    comment marker, and is itself trimmed. *)
Theorem error_log_entries
        (is_comment : ascii -> bool) (lines : list string)
        (st : Ini.t * string) :
  exists es,
    Ini.errors (fst (Ini.parse_lines is_comment lines st)) =
      (Ini.errors (fst st) ++ es)%list
    /\ length es <= length lines
    /\ Forall
         (fun e =>
            (exists raw, In raw lines /\ e = Ini.trim raw)
            /\ Ini.trim e = e
            /\ exists c, Str.front e = Some c /\ is_comment c = false
                         /\ Str.isspace c = false)
         es.
Proof.
  revert st. induction lines as [|raw lines IH]; intros [ini cur].
  - exists []. cbn. rewrite app_nil_r. repeat split; [lia | constructor].
  - rewrite RoundTrip.parse_lines_cons.
    destruct (IH (Ini.parse_line is_comment (ini, cur) raw))
      as (es & He & Hlen & Hall).
    assert (Hall' : Forall
                      (fun e =>
                         (exists raw0, In raw0 (raw :: lines) /\ e = Ini.trim raw0)
                         /\ Ini.trim e = e
                         /\ exists c, Str.front e = Some c
                                      /\ is_comment c = false
                                      /\ Str.isspace c = false) es).
    { eapply Forall_impl; [|exact Hall].
      intros e ((raw0 & Hin & ->) & H2 & H3). split; [|now split].
      exists raw0. split; [now right | reflexivity]. }
    destruct (parse_line_errors_shape is_comment ini cur raw)
      as [E | (E & c & Hf & Hc)]; rewrite He, E; cbn [fst].
    + exists es. repeat split; [cbn; lia | exact Hall'].
    + exists (Ini.trim raw :: es). rewrite <- app_assoc.
      repeat split; [cbn; lia|].
      constructor; [|exact Hall']. split; [|split].
      * exists raw. split; [now left | reflexivity].
      * apply TrimProps.trim_idem.
      * exists c. repeat split; try assumption. now apply front_trim with raw.
Qed.

(** *** Values already defined *)

(** X10.  [parse] on a Document that already has content never changes or
    removes a value that is there, whatever the text: a later
    definition of the same key in the same section is refused. *)
Theorem parse_keeps_defined_values
        (text : string) (ini : Ini.t) (s k x : string) :
  Ini.wf (Ini.sections ini) = true ->
  Ini.lookup s k (Ini.sections ini) = Some x ->
  Ini.lookup s k (Ini.sections (Ini.parse text ini)) = Some x.
Proof.
  intros Hwf Hl. unfold Ini.parse. now apply parse_lines_keeps.
Qed.

Lemma parse_keeps_defined_values_witness :
  Ini.lookup "s" "k"
    (Ini.sections
       (Ini.parse ("[s]" ++ Ini.endl ++ "k=new" ++ Ini.endl ++ "j=2")
                  (Ini.mk [("s", [("k", "old")])] ["e"])))
  = Some "old".
Proof.
  exact (parse_keeps_defined_values
           ("[s]" ++ Ini.endl ++ "k=new" ++ Ini.endl ++ "j=2")
           (Ini.mk [("s", [("k", "old")])] ["e"]) "s" "k" "old"
           eq_refl eq_refl).
Defined.

(** *** Texts without an assignment *)

Lemma find_first_of_absent ch (s : string) :
  no_char ch s = true -> Str.find_first_of s ch = None.
Proof.
  induction s as [|c r IH]; [reflexivity|].
  cbn [no_char Str.find_first_of]. intros H.
  apply andb_true_iff in H as [H1 H2]. apply negb_true_iff in H1.
  now rewrite H1, (IH H2).
Qed.

Lemma getlines_no_char ch (strm : string) :
  no_char ch strm = true ->
  Forall (fun l => no_char ch l = true) (Ini.getlines strm).
Proof.
  induction strm as [|c r IH]; [constructor|].
  cbn [no_char Ini.getlines]. intros H. apply andb_true_iff in H as [H1 H2].
  specialize (IH H2). destruct (Ascii.eqb c "010").
  - now constructor.
  - destruct (Ini.getlines r) as [|l ls].
    + constructor; [|constructor]. cbn. now rewrite H1.
    + inversion IH; subst. constructor; [|assumption].
      cbn [no_char]. now rewrite H1.
Qed.

Lemma parse_line_without_assignment ic ini cur raw :
  no_char Ini.char_assign raw = true ->
  Ini.sections (fst (Ini.parse_line ic (ini, cur) raw)) = Ini.sections ini.
Proof.
  intros H. unfold Ini.parse_line.
  rewrite (find_first_of_absent _ _ (no_char_trim _ _ H)).
  repeat match goal with
         | |- context [match ?x with _ => _ end] => destruct x
         | |- context [if ?x then _ else _] => destruct x
         end; reflexivity.
Qed.

(** X11.  Only a line with an [=] can add to the sections: a text in which
    [=] does not occur leaves the sections of the Document exactly as
    they were (no section is created by its headers), whatever the
    comment classifier. *)
Theorem text_without_assignment_adds_nothing
        (is_comment : ascii -> bool) (text : string) (st : Ini.t * string) :
  no_char Ini.char_assign text = true ->
  Ini.sections (fst (Ini.parse_lines is_comment (Ini.getlines text) st)) =
  Ini.sections (fst st).
Proof.
  intros H. apply getlines_no_char in H. revert st.
  induction H as [|raw lines Hraw _ IH]; intros [ini cur]; [reflexivity|].
  rewrite RoundTrip.parse_lines_cons, IH.
  now apply parse_line_without_assignment.
Qed.

Lemma text_without_assignment_adds_nothing_witness :
  Ini.sections
    (Ini.parse ("[a]" ++ Ini.endl ++ "junk" ++ Ini.endl ++ "[b") Ini.empty)
  = [].
Proof.
  exact (text_without_assignment_adds_nothing Ini.is_comment
           ("[a]" ++ Ini.endl ++ "junk" ++ Ini.endl ++ "[b") (Ini.empty, "")
           eq_refl).
Defined.

(** *** The end of the text *)

Lemma getlines_append_endl (strm : string) :
  Ini.getlines (strm ++ Ini.endl) = Ini.getlines strm \/
  Ini.getlines (strm ++ Ini.endl) = (Ini.getlines strm ++ [""])%list.
Proof.
  induction strm as [|c r IH]; [now right|].
  cbn [append Ini.getlines]. destruct (Ascii.eqb c "010").
  - destruct IH as [-> | ->]; [now left | now right].
  - destruct IH as [-> | ->]; [now left|].
    destruct (Ini.getlines r) as [|l ls]; [now left | now right].
Qed.

(** X12.  A newline added at the end of the text changes nothing: the last
    line is read whether or not a newline follows it. *)
Theorem final_newline_optional
        (is_comment : ascii -> bool) (text : string) (st : Ini.t * string) :
  Ini.parse_lines is_comment (Ini.getlines (text ++ Ini.endl)) st =
  Ini.parse_lines is_comment (Ini.getlines text) st
  /\ Ini.parse (text ++ Ini.endl) (fst st) = Ini.parse text (fst st).
Proof.
  assert (H : forall st0,
             Ini.parse_lines is_comment (Ini.getlines (text ++ Ini.endl)) st0 =
             Ini.parse_lines is_comment (Ini.getlines text) st0).
  { intros st0. destruct (getlines_append_endl text) as [-> | ->];
      [reflexivity|].
    unfold Ini.parse_lines. rewrite fold_left_app. cbn [fold_left].
    now apply parse_line_blank. }
  split; [apply H|]. unfold Ini.parse.
  destruct (getlines_append_endl text) as [-> | ->]; [reflexivity|].
  unfold Ini.parse_lines. rewrite fold_left_app. cbn [fold_left].
  now rewrite parse_line_blank.
Qed.

(** *** The order of the lines *)

Lemma sorted_ext {V : Type} (m1 : StdMap.t V) :
  forall m2,
    StdMap.sorted m1 = true -> StdMap.sorted m2 = true ->
    (forall k, StdMap.find k m1 = StdMap.find k m2) -> m1 = m2.
Proof.
  induction m1 as [|[k1 v1] r1 IH]; intros [|[k2 v2] r2] H1 H2 He.
  - reflexivity.
  - specialize (He k2). cbn in He. rewrite compare_refl in He. discriminate.
  - specialize (He k1). cbn in He. rewrite compare_refl in He. discriminate.
  - apply sorted_cons in H1 as [A1 S1]. apply sorted_cons in H2 as [A2 S2].
    pose proof (He k1) as E1. cbn [StdMap.find] in E1.
    rewrite compare_refl in E1.
    destruct (String.compare k1 k2) eqn:C.
    + apply compare_eq in C. subst k2. injection E1 as ->. f_equal.
      apply IH; try assumption. intros k. specialize (He k).
      cbn [StdMap.find] in He. destruct (String.compare k k1) eqn:Ck.
      * apply compare_eq in Ck. subst k.
        now rewrite (find_above _ _ A1), (find_above _ _ A2).
      * rewrite !find_above; [reflexivity | |].
        -- eapply Forall_impl; [|exact A2]. intros e He'.
           now apply compare_lt_trans with k1.
        -- eapply Forall_impl; [|exact A1]. intros e He'.
           now apply compare_lt_trans with k1.
      * exact He.
    + discriminate.
    + pose proof (He k2) as E2. cbn [StdMap.find] in E2.
      rewrite compare_refl in E2. apply compare_gt_lt in C. rewrite C in E2.
      discriminate.
Qed.

Lemma insert_insert_find {V : Type} (m : StdMap.t V) k1 v1 k2 v2 k :
  StdMap.sorted m = true -> k1 <> k2 ->
  StdMap.find k (StdMap.insert k2 v2 (StdMap.insert k1 v1 m)) =
  StdMap.find k (StdMap.insert k1 v1 (StdMap.insert k2 v2 m)).
Proof.
  intros Hs Hne.
  rewrite !find_insert; try assumption; try now apply keys_insert_sorted.
  destruct (String.eqb_spec k k2) as [E2|H2];
    destruct (String.eqb_spec k k1) as [E1|H1]; try congruence.
Qed.

(** X13.  Two key-value lines that define different keys can be exchanged
    without any effect on the sections: the Document does not record
    the order in which its keys arrived. *)
Theorem key_value_lines_commute
        (ini : Ini.t) (cur l1 l2 k1 v1 k2 v2 : string) :
  Ini.wf (Ini.sections ini) = true ->
  Ini.key_value l1 = Some (k1, v1) ->
  Ini.key_value l2 = Some (k2, v2) ->
  k1 <> k2 ->
  Ini.sections (fst (Ini.parse_lines Ini.is_comment [l1; l2] (ini, cur))) =
  Ini.sections (fst (Ini.parse_lines Ini.is_comment [l2; l1] (ini, cur))).
Proof.
  intros Hwf K1 K2 Hne.
  assert (Hstep : forall la lb ka va kb vb,
             Ini.key_value la = Some (ka, va) ->
             Ini.key_value lb = Some (kb, vb) ->
             let secs :=
               Ini.sections
                 (fst (Ini.parse_lines Ini.is_comment [la; lb] (ini, cur))) in
             Ini.wf secs = true /\
             forall name,
               StdMap.find name secs =
               if String.eqb name cur
               then Some (StdMap.insert kb vb
                            (StdMap.insert ka va
                               match StdMap.find cur (Ini.sections ini) with
                               | Some s => s
                               | None => []
                               end))
               else StdMap.find name (Ini.sections ini)).
  { intros la lb ka va kb vb Ka Kb secs. subst secs.
    cbn [Ini.parse_lines fold_left].
    rewrite (parse_line_key_value _ _ _ _ _ Ka).
    pose proof (define_wf ini cur (Ini.trim la) ka va Hwf) as Hwf1.
    pose proof (define_section ini cur (Ini.trim la) ka va) as Hcur.
    destruct (Ini.define ini cur (Ini.trim la) ka va) as [ini1 cur1] eqn:D.
    cbn [fst snd] in *. subst cur1.
    rewrite (parse_line_key_value _ _ _ _ _ Kb).
    split; [now apply define_wf|]. intros name.
    rewrite (define_find _ _ _ _ _ _ Hwf1).
    assert (F : forall n, StdMap.find n (Ini.sections ini1) =
                          StdMap.find n
                            (Ini.sections
                               (fst (Ini.define ini cur (Ini.trim la) ka va))))
      by (intros n; now rewrite D).
    rewrite !F, !(define_find _ _ _ _ _ _ Hwf), String.eqb_refl.
    now destruct (String.eqb name cur). }
  destruct (Hstep l1 l2 k1 v1 k2 v2 K1 K2) as [W12 F12].
  destruct (Hstep l2 l1 k2 v2 k1 v1 K2 K1) as [W21 F21].
  apply wf_iff in W12 as [S12 _]. apply wf_iff in W21 as [S21 _].
  apply sorted_ext; try assumption. intros name. rewrite F12, F21.
  destruct (String.eqb name cur); [|reflexivity]. f_equal.
  pose proof (wf_current_sorted ini cur Hwf) as Hsec.
  apply sorted_ext; try (now repeat apply keys_insert_sorted).
  intros k. now apply insert_insert_find.
Qed.

Lemma key_value_lines_commute_witness :
  Ini.sections
    (fst (Ini.parse_lines Ini.is_comment ["b=1"; "a=2"] (Ini.empty, "s"))) =
  Ini.sections
    (fst (Ini.parse_lines Ini.is_comment ["a=2"; "b=1"] (Ini.empty, "s"))).
Proof.
  exact (key_value_lines_commute Ini.empty "s" "b=1" "a=2" "b" "1" "a" "2"
           eq_refl eq_refl eq_refl ltac:(discriminate)).
Defined.

(** *** What parse stores *)

(** X14.  Whatever the text, every section that [parse] builds has at least
    one pair and a name without a newline; every key starts with a
    character that is neither whitespace nor [;] nor [[], holds no [=]
    and does not end in whitespace; every value is trimmed at both
    ends. *)
Theorem parsed_entries_shape (text : string) :
  Forall
    (fun sec : string * Ini.IniSection =>
       snd sec <> []
       /\ no_char newline (fst sec) = true
       /\ Forall
            (fun val : string * string =>
               (exists c,
                   Str.front (fst val) = Some c /\ Str.isspace c = false
                   /\ c <> ";"%char /\ c <> "["%char)
               /\ no_char "="%char (fst val) = true
               /\ detail.rtrim (fst val) = fst val
               /\ detail.ltrim (snd val) = snd val
               /\ detail.rtrim (snd val) = snd val)
            (snd sec))
    (Ini.sections (Ini.parse text Ini.empty)).
Proof.
  pose proof (RoundTrip.parse_canonical text) as H.
  apply RoundTrip.sections_iff in H as [_ H].
  eapply Forall_impl; [|exact H]. intros sec Hsec.
  apply RoundTrip.section_iff in Hsec as (Hname & Hne & _ & Hall).
  split; [assumption|]. split; [assumption|].
  eapply Forall_impl; [|exact Hall]. intros [k v] Hkv.
  unfold entry in Hkv. cbn [fst snd] in *.
  apply andb_true_iff in Hkv as [Hk Hv].
  apply RoundTrip.key_iff in Hk as ((c & Hf & Hc & Hcom & Hsec) & Hass & _ & Hrt).
  apply RoundTrip.value_iff in Hv as (_ & Hl & Hr).
  repeat split; try assumption.
  exists c. repeat split; try assumption.
  - now apply Ascii.eqb_neq in Hcom.
  - now apply Ascii.eqb_neq in Hsec.
Qed.

End ParseProps.

(** ** generate, further *)

Module GenerateProps.
Import StrFacts MapFacts ParseFacts TrimFacts Canonical Text.

Lemma section_or_empty_iff (sec : string * Ini.IniSection) :
  section_or_empty sec = true <->
  no_char newline (fst sec) = true
  /\ StdMap.sorted (snd sec) = true
  /\ Forall (fun val => entry val = true) (snd sec).
Proof.
  unfold section_or_empty.
  rewrite !andb_true_iff, forallb_forall, Forall_forall. tauto.
Qed.

Lemma sections_or_empty_iff (secs : Ini.Sections) :
  sections_or_empty secs = true <->
  StdMap.sorted secs = true
  /\ Forall (fun sec => section_or_empty sec = true) secs.
Proof.
  unfold sections_or_empty.
  now rewrite andb_true_iff, forallb_forall, Forall_forall.
Qed.

Lemma sorted_remove_middle {V : Type} (a : StdMap.t V) x r :
  StdMap.sorted (a ++ x :: r)%list = true -> StdMap.sorted (a ++ r)%list = true.
Proof.
  induction a as [|[k v] a IH]; intros H.
  - destruct x. now apply sorted_tail in H.
  - change (((k, v) :: a) ++ x :: r)%list with ((k, v) :: (a ++ x :: r))%list in H.
    apply sorted_cons in H as [Hab Hs].
    change (((k, v) :: a) ++ r)%list with ((k, v) :: (a ++ r))%list.
    apply sorted_cons. split; [|now apply IH].
    unfold StdMap.above in *. apply Forall_app in Hab as [H1 H2].
    apply Forall_app. split; [assumption|]. now inversion H2.
Qed.

Lemma getlines_generate_any (secs : Ini.Sections) :
  Forall (fun sec => section_or_empty sec = true) secs ->
  Ini.getlines (Ini.generate secs) = lines secs.
Proof.
  induction 1 as [|[name sec] secs Hsec _ IH]; [reflexivity|].
  apply section_or_empty_iff in Hsec as (Hname & _ & Hall).
  cbn [fst snd] in *.
  cbn [Ini.generate fold_right fst snd lines flat_map].
  fold (Ini.generate secs). fold (lines secs).
  unfold section_lines. cbn [fst snd].
  replace (String Ini.char_section_start name
             ++ String Ini.char_section_end Ini.endl
             ++ Ini.generate_values sec ++ Ini.endl ++ Ini.generate secs)
    with (header_line name
            ++ String newline
                 (Ini.generate_values sec
                    ++ String newline (Ini.generate secs))).
  - rewrite getlines_line.
    + rewrite (RoundTrip.getlines_generate_values _ _ Hall).
      change (String newline (Ini.generate secs))
        with ("" ++ String newline (Ini.generate secs)).
      rewrite getlines_line by reflexivity. rewrite IH.
      cbn [app]. now rewrite <- app_assoc.
    + unfold header_line. cbn [no_char]. rewrite no_char_append, Hname.
      reflexivity.
  - unfold header_line, Ini.endl, newline.
    repeat (progress (rewrite ?append_assoc; cbn [append])). reflexivity.
Qed.

Lemma parse_generated_lines_any (rest : Ini.Sections) :
  forall acc errs cur,
    StdMap.sorted (acc ++ rest)%list = true ->
    Forall (fun sec => section_or_empty sec = true) rest ->
    exists cur',
      Ini.parse_lines Ini.is_comment (lines rest) (Ini.mk acc errs, cur) =
      (Ini.mk (acc ++ nonempty_sections rest)%list errs, cur').
Proof.
  induction rest as [|[name sec] rest IH]; intros acc errs cur Hs Hall.
  - exists cur. cbn. now rewrite app_nil_r.
  - inversion Hall as [|? ? Hsec Hrest]; subst.
    apply section_or_empty_iff in Hsec as (_ & Hsorted & Hentries).
    cbn [fst snd] in *.
    pose proof (sorted_app_below _ _ _ _ Hs) as Hbelow.
    cbn [lines flat_map]. fold (lines rest).
    unfold section_lines. cbn [fst snd map].
    rewrite RoundTrip.parse_lines_app.
    rewrite RoundTrip.parse_lines_cons, RoundTrip.parse_header_line.
    destruct sec as [|[k v] sec].
    + destruct (IH acc errs name) as [cur' Hcur'];
        [now apply sorted_remove_middle in Hs | assumption |].
      exists cur'. cbn [map app nonempty_sections filter snd].
      rewrite RoundTrip.parse_lines_cons, parse_line_blank by reflexivity.
      exact Hcur'.
    + inversion Hentries as [|? ? Hkv Hsec']; subst.
      destruct (IH (acc ++ [(name, (k, v) :: sec)])%list errs name)
        as [cur' Hcur']; [now rewrite <- app_assoc | assumption |].
      exists cur'. cbn [map nonempty_sections filter snd].
      fold (nonempty_sections rest).
      rewrite <- app_comm_cons, RoundTrip.parse_lines_cons.
      rewrite (RoundTrip.parse_first_value_line acc name errs Hbelow k v Hkv).
      rewrite RoundTrip.parse_lines_app.
      rewrite (RoundTrip.parse_value_lines acc name errs Hbelow sec [(k, v)]
                 Hsorted Hsec').
      rewrite RoundTrip.parse_lines_cons, parse_line_blank by reflexivity.
      cbn [Ini.parse_lines fold_left app] in *. rewrite Hcur'.
      now rewrite <- app_assoc.
Qed.

(** X15.  A Document built by hand, with keys and values of the shape that
    [parse] stores but possibly with sections that have no pair, is
    written by [generate] and read back by [parse] without any error;
    the result is the Document less its sections without pairs: a
    header alone does not bring a section back. *)
Theorem generate_parse_drops_empty_sections (secs : Ini.Sections) :
  sections_or_empty secs = true ->
  Ini.parse (Ini.generate secs) Ini.empty =
  Ini.mk (nonempty_sections secs) [].
Proof.
  intros H. apply sections_or_empty_iff in H as [Hs Hall].
  unfold Ini.parse. rewrite (getlines_generate_any _ Hall).
  destruct (parse_generated_lines_any secs [] [] "" Hs Hall) as [cur' H].
  unfold Ini.empty. now rewrite H.
Qed.

Lemma generate_parse_drops_empty_sections_witness :
  Ini.parse
    (Ini.generate [("a", []); ("b", [("k", "v")]); ("c", [])]) Ini.empty =
  Ini.mk [("b", [("k", "v")])] [].
Proof.
  exact (generate_parse_drops_empty_sections
           [("a", []); ("b", [("k", "v")]); ("c", [])] eq_refl).
Defined.

(** X16.  Two different Documents of the shape that [parse] builds are
    written to different texts: [generate] loses nothing of such a
    Document. *)
Theorem generate_injective (secs1 secs2 : Ini.Sections) :
  Canonical.sections secs1 = true ->
  Canonical.sections secs2 = true ->
  secs1 <> secs2 ->
  Ini.generate secs1 <> Ini.generate secs2.
Proof.
  intros H1 H2 Hne E. apply Hne.
  pose proof (RoundTrip.parse_generate _ H1) as P1.
  pose proof (RoundTrip.parse_generate _ H2) as P2.
  rewrite E, P2 in P1. now injection P1.
Qed.

Lemma generate_injective_witness :
  Ini.generate [("s", [("a", "1")])] <> Ini.generate [("s", [("a", "")])].
Proof.
  exact (generate_injective [("s", [("a", "1")])] [("s", [("a", "")])]
           eq_refl eq_refl ltac:(discriminate)).
Defined.

End GenerateProps.

(** ** default_section, further *)

Module DefaultSectionProps.
Import MapFacts ParseFacts.
Import Ini (merge).

Lemma find_In {V : Type} (m : StdMap.t V) k v :
  StdMap.sorted m = true -> In (k, v) m -> StdMap.find k m = Some v.
Proof.
  induction m as [|[k0 v0] m IH]; intros Hs Hin; [contradiction|].
  apply sorted_cons in Hs as [Hab Hs]. cbn [StdMap.find].
  destruct Hin as [[= -> ->] | Hin].
  - now rewrite compare_refl.
  - unfold StdMap.above in Hab. rewrite Forall_forall in Hab.
    specialize (Hab _ Hin). cbn [fst] in Hab.
    apply compare_gt_lt in Hab. rewrite Hab. now apply IH.
Qed.

Lemma merge_present (dflt sec : Ini.IniSection) :
  (forall k v, In (k, v) dflt -> StdMap.find k sec <> None) ->
  merge dflt sec = sec.
Proof.
  revert sec. induction dflt as [|[k v] dflt IH]; intros sec H; [reflexivity|].
  change (merge ((k, v) :: dflt) sec) with (merge dflt (StdMap.insert k v sec)).
  destruct (StdMap.find k sec) as [x|] eqn:F.
  - rewrite (insert_present _ _ _ _ F). apply IH.
    intros k' v' Hin. apply (H k' v'). now right.
  - now elim (H k v (or_introl eq_refl)).
Qed.

Lemma wf_In secs (sec : string * Ini.IniSection) :
  Ini.wf secs = true -> In sec secs -> StdMap.sorted (snd sec) = true.
Proof.
  intros Hwf Hin. apply wf_iff in Hwf as [_ Hall].
  rewrite Forall_forall in Hall. now apply Hall.
Qed.

(** X17.  Applying the same defaults a second time changes nothing. *)
Theorem default_section_idempotent (dflt : Ini.IniSection) (ini : Ini.t) :
  StdMap.sorted dflt = true ->
  Ini.wf (Ini.sections ini) = true ->
  Ini.default_section dflt (Ini.default_section dflt ini) =
  Ini.default_section dflt ini.
Proof.
  intros Hd Hwf. unfold Ini.default_section. cbn [Ini.sections Ini.errors].
  f_equal. rewrite map_map. apply map_ext_in. intros sec Hin. cbn [fst snd].
  f_equal. apply merge_present. intros k v Hk.
  rewrite (DefaultSection.find_merge dflt Hd (snd sec) k (wf_In _ _ Hwf Hin)).
  rewrite (find_In _ _ _ Hd Hk). now destruct (StdMap.find k (snd sec)).
Qed.

Lemma default_section_idempotent_witness :
  Ini.default_section [("x", "1")]
    (Ini.default_section [("x", "1")]
       (Ini.mk [("a", [("x", "0")]); ("b", [("y", "2")])] [])) =
  Ini.default_section [("x", "1")]
    (Ini.mk [("a", [("x", "0")]); ("b", [("y", "2")])] []).
Proof.
  exact (default_section_idempotent [("x", "1")]
           (Ini.mk [("a", [("x", "0")]); ("b", [("y", "2")])] [])
           eq_refl eq_refl).
Defined.

(** X18.  When two sets of defaults are applied one after the other, the
    first takes precedence: a key has the value of the Document if it
    was there, else that of the first set, else that of the second. *)
Theorem default_sections_in_sequence
        (dflt1 dflt2 : Ini.IniSection) (ini : Ini.t) (name k : string) :
  StdMap.sorted dflt1 = true ->
  StdMap.sorted dflt2 = true ->
  Ini.wf (Ini.sections ini) = true ->
  Ini.lookup name k
    (Ini.sections (Ini.default_section dflt2 (Ini.default_section dflt1 ini)))
  = match StdMap.find name (Ini.sections ini) with
    | None => None
    | Some sec =>
        match StdMap.find k sec with
        | Some v => Some v
        | None =>
            match StdMap.find k dflt1 with
            | Some v => Some v
            | None => StdMap.find k dflt2
            end
        end
    end.
Proof.
  intros H1 H2 Hwf. unfold Ini.lookup, Ini.default_section.
  cbn [Ini.sections Ini.errors]. rewrite !DefaultSection.find_map_sections.
  destruct (StdMap.find name (Ini.sections ini)) as [sec|] eqn:F;
    [|reflexivity].
  cbn [option_map].
  pose proof (ParseClaims.wf_find _ _ _ Hwf F) as Hsec.
  rewrite (DefaultSection.find_merge dflt2 H2)
    by now apply DefaultSection.merge_sorted.
  rewrite (DefaultSection.find_merge dflt1 H1 sec k Hsec).
  now destruct (StdMap.find k sec); [|destruct (StdMap.find k dflt1)].
Qed.

Lemma default_sections_in_sequence_witness :
  Ini.lookup "a" "x"
    (Ini.sections
       (Ini.default_section [("x", "2"); ("y", "2")]
          (Ini.default_section [("x", "1")] (Ini.mk [("a", [])] []))))
  = Some "1".
Proof.
  exact (default_sections_in_sequence [("x", "1")] [("x", "2"); ("y", "2")]
           (Ini.mk [("a", [])] []) "a" "x" eq_refl eq_refl eq_refl).
Defined.

End DefaultSectionProps.

(** ** The comment classifier *)

Module CommentProps.
Import ParseFacts.

(** [parse] consults the classifier on the first character of the
    trimmed line only. *)
Lemma parse_line_classifier (ic1 ic2 : ascii -> bool) st raw :
  (forall c, Str.front (Ini.trim raw) = Some c -> ic1 c = ic2 c) ->
  Ini.parse_line ic1 st raw = Ini.parse_line ic2 st raw.
Proof.
  intros H. unfold Ini.parse_line. destruct st as [ini cur].
  destruct (Str.front (Ini.trim raw)) as [c|]; [|reflexivity].
  now rewrite (H c eq_refl).
Qed.

(** X19.  The derived class of the usage note treats [;] and the apostrophe
    as comment markers and nothing else; on a text none of whose lines
    starts (after trimming) with an apostrophe it parses exactly as the
    base class does, and a line that starts with an apostrophe is
    skipped. *)
Theorem visual_basic_classifier (lines : list string) (st : Ini.t * string) :
  (forall c,
      VisualBasicIni.is_comment c = true <-> c = ";"%char \/ c = "'"%char)
  /\ (forall c, Ini.is_comment c = true <-> c = ";"%char)
  /\ (Forall (fun raw => Str.front (Ini.trim raw) <> Some "'"%char) lines ->
      Ini.parse_lines VisualBasicIni.is_comment lines st =
      Ini.parse_lines Ini.is_comment lines st)
  /\ (forall raw,
        Str.front (Ini.trim raw) = Some "'"%char ->
        Ini.parse_line VisualBasicIni.is_comment st raw = st).
Proof.
  assert (Hvb : forall c,
             VisualBasicIni.is_comment c = true <->
             c = ";"%char \/ c = "'"%char).
  { intros c. unfold VisualBasicIni.is_comment, VisualBasicIni.m_comment_chars,
      CharTypeErased.equals, Ini.char_comment. cbn [fold_left].
    destruct (Ascii.eqb_spec c "'") as [->|H1].
    - split; auto.
    - destruct (Ascii.eqb_spec c ";") as [->|H2].
      + split; auto.
      + split; [discriminate | intros [?|?]; contradiction]. }
  assert (Hbase : forall c, Ini.is_comment c = true <-> c = ";"%char).
  { intros c. unfold Ini.is_comment, CharTypeErased.equals, Ini.char_comment.
    apply Ascii.eqb_eq. }
  split; [exact Hvb|]. split; [exact Hbase|]. split.
  - intros Hall. revert st.
    induction Hall as [|raw lines Hraw _ IH]; intros st0; [reflexivity|].
    rewrite !RoundTrip.parse_lines_cons, IH. f_equal.
    apply parse_line_classifier. intros c Hf.
    destruct (VisualBasicIni.is_comment c) eqn:E1;
      destruct (Ini.is_comment c) eqn:E2; try reflexivity.
    + apply Hvb in E1 as [-> | ->]; [discriminate E2 | congruence].
    + apply Hbase in E2 as ->. discriminate E1.
  - intros raw Hf. now apply parse_line_comment with "'"%char.
Qed.

End CommentProps.

(** ** interpolate, further *)

Module InterpolateProps.
Import StrFacts ReplaceFacts MapFacts TrimFacts InterpolateFacts.
Import Canonical Text.

Lemma resolve_closed (syms : Ini.Symbols) :
  Closed.nonempty_patterns syms ->
  forall secs, exists changed,
    Ini.resolve syms secs =
    Some (map (fun sec =>
                 (fst sec, Closed.map_values (Closed.apply_symbols syms)
                                             (snd sec)))
              secs,
          changed).
Proof.
  intros Hne. induction secs as [|[name sec] secs [c IH]].
  - now exists false.
  - cbn [Ini.resolve].
    destruct (replace_symbols_closed syms Hne sec) as [c1 ->].
    cbn [bind]. rewrite IH. cbn [bind]. now eexists.
Qed.

Lemma global_pass_closed (secs : Ini.Sections) :
  exists changed,
    Ini.global_pass secs =
    Some (map (fun sec =>
                 (fst sec,
                  Closed.map_values
                    (Closed.apply_symbols (Ini.global_symbols secs)) (snd sec)))
              secs,
          changed).
Proof. apply resolve_closed, global_symbols_nonempty. Qed.

Lemma shape_map_values (F : string * Ini.IniSection -> string -> string)
      (secs : Ini.Sections) :
  shape (map (fun sec => (fst sec, Closed.map_values (F sec) (snd sec))) secs)
  = shape secs.
Proof.
  unfold shape. rewrite map_map. apply map_ext. intros [name sec].
  cbn [fst snd]. f_equal. unfold StdMap.keys, Closed.map_values.
  rewrite map_map. now apply map_ext.
Qed.

Lemma find_map_values (f : string -> string) (sec : Ini.IniSection) k :
  StdMap.find k (Closed.map_values f sec) = option_map f (StdMap.find k sec).
Proof.
  induction sec as [|[k0 v0] sec IH]; [reflexivity|].
  cbn [Closed.map_values map StdMap.find fst snd].
  destruct (String.compare k k0); try reflexivity. exact IH.
Qed.

Lemma lookup_map_values (F : string * Ini.IniSection -> string -> string)
      (secs : Ini.Sections) name k :
  Ini.lookup name k
    (map (fun sec => (fst sec, Closed.map_values (F sec) (snd sec))) secs) =
  match StdMap.find name secs with
  | Some sec => option_map (F (name, sec)) (StdMap.find k sec)
  | None => None
  end.
Proof.
  unfold Ini.lookup. induction secs as [|[n0 s0] secs IH]; [reflexivity|].
  cbn [map StdMap.find fst snd]. destruct (String.compare name n0) eqn:C.
  - apply compare_eq in C. subst n0. apply find_map_values.
  - reflexivity.
  - exact IH.
Qed.

(** *** Values without a reference *)

Lemma find0_no_dollar (p v : string) :
  Str.front p = Some Ini.char_interpol ->
  no_char Ini.char_interpol v = true ->
  Str.find0 p v = None.
Proof.
  destruct p as [|c p]; [discriminate|]. intros [= ->].
  induction v as [|d v IH]; [reflexivity|].
  cbn [no_char]. intros H. apply andb_true_iff in H as [H1 H2].
  apply negb_true_iff in H1. unfold Str.find0; fold Str.find0.
  cbn [Str.starts_with]. rewrite Ascii.eqb_sym, H1. cbn [andb].
  now rewrite (IH H2).
Qed.

Lemma apply_symbols_no_dollar (syms : Ini.Symbols) (v : string) :
  dollar_patterns syms ->
  no_char Ini.char_interpol v = true ->
  Closed.apply_symbols syms v = v.
Proof.
  intros Hd Hv. apply InterpolateClaims.apply_symbols_absent.
  intros sym Hin. unfold dollar_patterns in Hd. rewrite Forall_forall in Hd.
  unfold detail.occurs. now rewrite (find0_no_dollar _ _ (Hd _ Hin) Hv).
Qed.

Lemma local_symbols_dollar name sec :
  dollar_patterns (Ini.local_symbols name sec).
Proof.
  unfold dollar_patterns, Ini.local_symbols.
  apply Forall_map, Forall_forall. now intros x _.
Qed.

Lemma global_symbols_dollar secs : dollar_patterns (Ini.global_symbols secs).
Proof.
  unfold dollar_patterns, Ini.global_symbols.
  apply Forall_flat_map, Forall_forall. intros sec _.
  apply Forall_map, Forall_forall. now intros x _.
Qed.

Lemma interpolate_loop_invariant (P : Ini.Sections -> Prop) :
  (forall secs,
      P secs ->
      P (map (fun sec =>
                (fst sec,
                 Closed.map_values
                   (Closed.apply_symbols (Ini.global_symbols secs)) (snd sec)))
             secs)) ->
  forall fuel gi passes secs secs' n,
    Ini.interpolate_loop fuel gi passes secs = Some (secs', n) ->
    P secs -> P secs'.
Proof.
  intros Hstep. induction fuel as [|fuel IH]; intros gi passes secs secs' n;
    [discriminate|].
  cbn [Ini.interpolate_loop].
  destruct (global_pass_closed secs) as [c ->]. cbn [bind].
  destruct (c && _)%bool.
  - intros H HP. eapply IH; [exact H|]. now apply Hstep.
  - intros [= <- <-] HP. now apply Hstep.
Qed.

Lemma interpolate_invariant (P : Ini.Sections -> Prop) (ini : Ini.t) :
  (forall secs,
      P secs ->
      P (map (fun sec =>
                (fst sec, Closed.localize_section (fst sec) (snd sec)))
             secs)) ->
  (forall secs,
      P secs ->
      P (map (fun sec =>
                (fst sec,
                 Closed.map_values
                   (Closed.apply_symbols (Ini.global_symbols secs)) (snd sec)))
             secs)) ->
  P (Ini.sections ini) ->
  exists ini',
    Ini.interpolate ini = Some ini'
    /\ P (Ini.sections ini') /\ Ini.errors ini' = Ini.errors ini.
Proof.
  intros Hloc Hstep HP.
  destruct (InterpolateClaims.interpolate_total ini) as (ini' & n & E & _).
  exists ini'. unfold Ini.interpolate. rewrite E. split; [reflexivity|].
  revert E. unfold Ini.interpolate_passes. rewrite localize_closed.
  cbn [bind].
  destruct (Ini.interpolate_loop _ 0 0 _) as [[secs2 n2]|] eqn:L;
    [|discriminate].
  cbn [bind]. intros [= <- <-]. cbn [Ini.sections Ini.errors].
  split; [|reflexivity].
  eapply (interpolate_loop_invariant P Hstep); [exact L|]. now apply Hloc.
Qed.

(** X21.  A value in which [$] does not occur is never changed by
    [interpolate], whatever the rest of the Document holds. *)
Theorem interpolate_keeps_literal_values
        (ini : Ini.t) (name k v : string) :
  Ini.lookup name k (Ini.sections ini) = Some v ->
  no_char Ini.char_interpol v = true ->
  exists ini',
    Ini.interpolate ini = Some ini'
    /\ Ini.lookup name k (Ini.sections ini') = Some v.
Proof.
  intros Hl Hv.
  destruct (interpolate_invariant
              (fun secs => Ini.lookup name k secs = Some v) ini)
    as (ini' & E & H & _); [| |exact Hl|now exists ini'].
  - intros secs H. unfold Closed.localize_section.
    rewrite (lookup_map_values
               (fun sec => Closed.apply_symbols
                             (Ini.local_symbols (fst sec) (snd sec)))).
    unfold Ini.lookup in H. destruct (StdMap.find name secs) as [sec|];
      [|discriminate].
    rewrite H. cbn [option_map fst snd]. f_equal.
    apply apply_symbols_no_dollar; [apply local_symbols_dollar | assumption].
  - intros secs H.
    rewrite (lookup_map_values
               (fun _ => Closed.apply_symbols (Ini.global_symbols secs))).
    unfold Ini.lookup in H. destruct (StdMap.find name secs) as [sec|];
      [|discriminate].
    rewrite H. cbn [option_map]. f_equal.
    apply apply_symbols_no_dollar; [apply global_symbols_dollar | assumption].
Qed.

Lemma interpolate_keeps_literal_values_witness :
  exists ini',
    Ini.interpolate
      (Ini.mk [("a", [("x", "lit")]); ("b", [("y", "${a:x}${y}")])] []) =
    Some ini'
    /\ Ini.lookup "a" "x" (Ini.sections ini') = Some "lit".
Proof.
  exact (interpolate_keeps_literal_values
           (Ini.mk [("a", [("x", "lit")]); ("b", [("y", "${a:x}${y}")])] [])
           "a" "x" "lit" eq_refl eq_refl).
Defined.

(** *** The end of the loop *)

(** X22.  [interpolate] always returns, after one to eleven executions of
    the body of its loop; when it returns after fewer than eleven, the
    values are a fixed point of the resolution pass: one more pass
    would replace nothing. *)
Theorem interpolate_reaches_fixed_point (ini : Ini.t) :
  exists ini' passes,
    Ini.interpolate_passes ini = Some (ini', passes)
    /\ 1 <= passes <= 11
    /\ (passes < 11 ->
        Ini.global_pass (Ini.sections ini') = Some (Ini.sections ini', false)).
Proof.
  unfold Ini.interpolate_passes. rewrite localize_closed. cbn [bind].
  match goal with
  | |- context [Ini.interpolate_loop ?f 0 0 ?s] =>
      destruct (interpolate_loop_total f 0 0 s) as (s' & n & E & H1 & H2);
        [lia | unfold Ini.max_interpolation_depth; simpl; lia
         | unfold Ini.max_interpolation_depth; simpl; lia |]
  end.
  rewrite E. cbn [bind]. exists (Ini.mk s' (Ini.errors ini)), n.
  split; [reflexivity|]. split; [lia|]. intros Hlt. cbn [Ini.sections].
  destruct (InterpolateClaims.interpolate_loop_exit_stable _ _ _ _ _ _ E)
    as [H | H]; [exact H | lia].
Qed.

(** *** Documents without references *)

Lemma replace_symbols_absent (syms : Ini.Symbols) (sec : Ini.IniSection) :
  Closed.nonempty_patterns syms ->
  (forall sym val, In sym syms -> In val sec ->
                   detail.occurs (fst sym) (snd val) = false) ->
  Ini.replace_symbols syms sec = Some (sec, false).
Proof.
  induction 1 as [|[from to] syms Hne _ IH]; intros Habs; [reflexivity|].
  simpl in Hne. cbn [Ini.replace_symbols].
  rewrite (replace_symbol_closed _ _ _ Hne). cbn [bind].
  assert (E1 : Closed.map_values (detail.replace_all from to) sec = sec).
  { unfold Closed.map_values. rewrite <- (map_id sec) at 2.
    apply map_ext_in. intros [k v] Hin. cbn [fst snd]. f_equal.
    apply scan_absent. specialize (Habs (from, to) (k, v) (or_introl eq_refl) Hin).
    unfold detail.occurs in Habs. cbn [fst snd] in Habs.
    now destruct (Str.find0 from v). }
  assert (E2 : existsb (fun val : string * string =>
                          detail.occurs from (snd val)) sec = false).
  { destruct (existsb _ sec) eqn:E; [|reflexivity].
    apply existsb_exists in E as (val & Hin & Hocc).
    pose proof (Habs (from, to) val (or_introl eq_refl) Hin) as Hf.
    cbn [fst] in Hf. congruence. }
  rewrite E1, E2, IH; [reflexivity|].
  intros sym val Hs Hv. apply Habs; [now right | assumption].
Qed.

Lemma resolve_absent (syms : Ini.Symbols) (secs : Ini.Sections) :
  Closed.nonempty_patterns syms ->
  (forall sym sec val, In sym syms -> In sec secs -> In val (snd sec) ->
                       detail.occurs (fst sym) (snd val) = false) ->
  Ini.resolve syms secs = Some (secs, false).
Proof.
  intros Hne. induction secs as [|[name sec] secs IH]; intros Habs;
    [reflexivity|].
  cbn [Ini.resolve]. rewrite (replace_symbols_absent syms sec Hne).
  - cbn [bind]. rewrite IH; [reflexivity|].
    intros sym s val Hs Hin Hv. apply (Habs sym s val); auto. now right.
  - intros sym val Hs Hv. apply (Habs sym (name, sec) val); auto. now left.
Qed.

Lemma literal_values_In secs (sec : string * Ini.IniSection) val :
  literal_values secs = true -> In sec secs -> In val (snd sec) ->
  no_char Ini.char_interpol (snd val) = true.
Proof.
  unfold literal_values. rewrite forallb_forall. intros H Hs Hv.
  specialize (H sec Hs). rewrite forallb_forall in H. now apply H.
Qed.

(** X23.  On a Document none of whose values holds a [$], [interpolate]
    changes nothing and its loop body runs once. *)
Theorem interpolate_without_references (ini : Ini.t) :
  literal_values (Ini.sections ini) = true ->
  Ini.interpolate_passes ini = Some (ini, 1).
Proof.
  intros Hlit. unfold Ini.interpolate_passes. rewrite localize_closed.
  cbn [bind].
  assert (E : map (fun sec : string * Ini.IniSection =>
                     (fst sec, Closed.localize_section (fst sec) (snd sec)))
                  (Ini.sections ini) = Ini.sections ini).
  { rewrite <- (map_id (Ini.sections ini)) at 2. apply map_ext_in.
    intros [name sec] Hin. cbn [fst snd]. f_equal.
    unfold Closed.localize_section, Closed.map_values.
    transitivity (map (fun x : string * string => x) sec); [|apply map_id].
    apply map_ext_in. intros [k v] Hv.
    cbn [fst snd]. f_equal.
    apply apply_symbols_no_dollar; [apply local_symbols_dollar|].
    exact (literal_values_In _ (name, sec) (k, v) Hlit Hin Hv). }
  rewrite E. change (Z.to_nat Ini.max_interpolation_depth + 2) with 12.
  cbn [Ini.interpolate_loop]. unfold Ini.global_pass. rewrite resolve_absent.
  - cbn [bind andb]. now destruct ini.
  - apply global_symbols_nonempty.
  - intros sym sec val Hs Hin Hv.
    pose proof (global_symbols_dollar (Ini.sections ini)) as Hd.
    unfold dollar_patterns in Hd. rewrite Forall_forall in Hd.
    unfold detail.occurs.
    now rewrite (find0_no_dollar _ _ (Hd _ Hs)
                   (literal_values_In _ _ _ Hlit Hin Hv)).
Qed.

Lemma interpolate_without_references_witness :
  Ini.interpolate_passes (Ini.mk [("s", [("a", "1"); ("b", "{x}")])] ["e"]) =
  Some (Ini.mk [("s", [("a", "1"); ("b", "{x}")])] ["e"], 1).
Proof.
  exact (interpolate_without_references
           (Ini.mk [("s", [("a", "1"); ("b", "{x}")])] ["e"]) eq_refl).
Defined.

(** *** The text of a reference *)

Lemma split_at_char ch (a1 a2 b1 b2 : string) :
  no_char ch a1 = true -> no_char ch a2 = true ->
  a1 ++ String ch b1 = a2 ++ String ch b2 ->
  a1 = a2 /\ b1 = b2.
Proof.
  revert a2. induction a1 as [|c a1 IH]; intros [|d a2] H1 H2 E.
  - now injection E.
  - cbn in E, H2. injection E as <- _. now rewrite Ascii.eqb_refl in H2.
  - cbn in E, H1. injection E as -> _. now rewrite Ascii.eqb_refl in H1.
  - cbn in E, H1, H2. injection E as <- E.
    apply andb_true_iff in H1 as [_ H1]. apply andb_true_iff in H2 as [_ H2].
    destruct (IH a2 H1 H2 E) as [-> ->]. now split.
Qed.

(** X24.  The pattern of a cross reference does not always tell which
    section and key it names: the key [k1:k2] of section [s] and the key
    [k2] of section [s:k1] have the same pattern, and a bare reference
    to a key named [s:k] is the cross reference to the key [k] of
    section [s]. *)
Theorem global_symbol_ambiguous (s k1 k2 : string) :
  Ini.global_symbol s (k1 ++ String ":" k2) =
    Ini.global_symbol (s ++ String ":" k1) k2
  /\ Ini.local_symbol (s ++ String ":" k1) = Ini.global_symbol s k1.
Proof.
  split; [|reflexivity]. unfold Ini.global_symbol, Ini.char_interpol_sep.
  f_equal. now rewrite append_assoc.
Qed.

Lemma global_symbol_inj (s1 k1 s2 k2 : string) :
  no_char ":"%char s1 = true -> no_char ":"%char s2 = true ->
  no_char "}"%char k1 = true -> no_char "}"%char k2 = true ->
  Ini.global_symbol s1 k1 = Ini.global_symbol s2 k2 ->
  s1 = s2 /\ k1 = k2.
Proof.
  intros Hs1 Hs2 Hk1 Hk2 E.
  unfold Ini.global_symbol, Ini.local_symbol, Ini.char_interpol_sep,
    Ini.char_interpol_end in E.
  injection E as E. cbn [append] in E. rewrite !append_assoc in E.
  cbn [append] in E.
  destruct (split_at_char _ _ _ _ _ Hs1 Hs2 E) as [-> E'].
  split; [reflexivity|].
  now destruct (split_at_char _ _ _ _ _ Hk1 Hk2 E').
Qed.

(** X25.  When the section names hold no [:] and the keys no [}], different
    pairs of section and key have different patterns. *)
Theorem global_symbol_injective (s1 k1 s2 k2 : string) :
  no_char ":"%char s1 = true -> no_char ":"%char s2 = true ->
  no_char "}"%char k1 = true -> no_char "}"%char k2 = true ->
  (s1, k1) <> (s2, k2) ->
  Ini.global_symbol s1 k1 <> Ini.global_symbol s2 k2.
Proof.
  intros Hs1 Hs2 Hk1 Hk2 Hne E. apply Hne.
  now destruct (global_symbol_inj _ _ _ _ Hs1 Hs2 Hk1 Hk2 E) as [-> ->].
Qed.

Lemma global_symbol_injective_witness :
  Ini.global_symbol "net" "ip" <> Ini.global_symbol "net" "ipv6".
Proof.
  exact (global_symbol_injective "net" "ip" "net" "ipv6"
           eq_refl eq_refl eq_refl eq_refl ltac:(discriminate)).
Defined.

(** *** References to a value without references *)

Lemma find0_behind_no_dollar (p pre w : string) :
  Str.front p = Some Ini.char_interpol ->
  no_char Ini.char_interpol pre = true ->
  Str.find0 p (pre ++ p ++ w) = Some (String.length pre).
Proof.
  intros Hp. induction pre as [|c pre IH]; intros Hpre.
  - cbn [append String.length]. destruct p as [|d p]; [discriminate|].
    cbn [append]. unfold Str.find0; fold Str.find0.
    change (String d (p ++ w)) with (String d p ++ w).
    now rewrite starts_with_append.
  - cbn [no_char] in Hpre. apply andb_true_iff in Hpre as [H1 H2].
    apply negb_true_iff in H1. cbn [append String.length].
    unfold Str.find0; fold Str.find0.
    destruct p as [|d p]; [discriminate|]. injection Hp as ->.
    cbn [Str.starts_with]. rewrite Ascii.eqb_sym, H1. cbn [andb].
    now rewrite (IH H2).
Qed.

Lemma replace_reference (ref r pre post : string) :
  Str.front ref = Some Ini.char_interpol ->
  no_char Ini.char_interpol pre = true ->
  no_char Ini.char_interpol post = true ->
  detail.replace_all ref r (pre ++ ref ++ post) = pre ++ r ++ post.
Proof.
  intros Href Hpre Hpost. unfold detail.replace_all.
  rewrite scan_first.
  - now rewrite (scan_absent _ _ _ (find0_no_dollar _ _ Href Hpost)).
  - destruct ref; discriminate.
  - now apply find0_behind_no_dollar.
Qed.

Lemma starts_with_delimited (n m post : string) :
  no_char "}"%char n = true -> no_char "}"%char m = true ->
  Str.starts_with (n ++ String "}" "") (m ++ String "}" post) = true ->
  n = m.
Proof.
  revert m. induction n as [|a n IH]; intros [|c m] Hn Hm H.
  - reflexivity.
  - cbn [append Str.starts_with] in H. cbn [no_char] in Hm.
    apply andb_true_iff in H as [H _]. apply Ascii.eqb_eq in H. subst c.
    discriminate.
  - cbn [append Str.starts_with] in H. cbn [no_char] in Hn.
    apply andb_true_iff in H as [H _]. apply Ascii.eqb_eq in H. subst a.
    discriminate.
  - cbn [append Str.starts_with] in H. cbn [no_char] in Hn, Hm.
    apply andb_true_iff in H as [H1 H2].
    apply Ascii.eqb_eq in H1. subst c.
    apply andb_true_iff in Hn as [_ Hn]. apply andb_true_iff in Hm as [_ Hm].
    f_equal. now apply IH.
Qed.

Lemma occurs_skip_no_dollar (p pre x : string) :
  Str.front p = Some Ini.char_interpol ->
  no_char Ini.char_interpol pre = true ->
  detail.occurs p (pre ++ x) = detail.occurs p x.
Proof.
  intros Hp. destruct p as [|d p]; [discriminate|]. injection Hp as ->.
  induction pre as [|c pre IH]; intros Hpre; [reflexivity|].
  cbn [no_char] in Hpre. apply andb_true_iff in Hpre as [H1 H2].
  apply negb_true_iff in H1. specialize (IH H2).
  unfold detail.occurs in *. cbn [append].
  unfold Str.find0; fold Str.find0. cbn [Str.starts_with].
  rewrite Ascii.eqb_sym, H1. cbn [andb].
  now destruct (Str.find0 _ (pre ++ x)), (Str.find0 _ x).
Qed.

(** Where the reference [${n}] occurs in a text whose only [$] starts
    the reference [${m}], the two are the same reference. *)
Lemma occurs_reference (n m pre post : string) :
  no_char "}"%char n = true -> no_char "}"%char m = true ->
  no_char Ini.char_interpol m = true ->
  no_char Ini.char_interpol pre = true ->
  no_char Ini.char_interpol post = true ->
  detail.occurs (Ini.local_symbol n) (pre ++ Ini.local_symbol m ++ post) = true ->
  n = m.
Proof.
  intros Hn Hm Hm' Hpre Hpost. rewrite occurs_skip_no_dollar by easy.
  unfold detail.occurs, Ini.local_symbol, Ini.char_interpol,
    Ini.char_interpol_start, Ini.char_interpol_end.
  cbn [append]. unfold Str.find0; fold Str.find0. cbn [Str.starts_with].
  rewrite !Ascii.eqb_refl. cbn [andb]. rewrite append_assoc. cbn [append].
  destruct (Str.starts_with (n ++ String "}" "") (m ++ String "}" post)) eqn:E.
  - intros _. now apply starts_with_delimited with post.
  - rewrite find0_no_dollar; [discriminate | reflexivity |].
    cbn [no_char]. rewrite no_char_append. cbn [no_char].
    unfold Ini.char_interpol in *. now rewrite Hm', Hpost.
Qed.

(** A symbol table in which one pattern [ref] occurs in [start], with
    replacement [r], and no pattern occurs in the result [done]. *)
Lemma apply_symbols_single (ref r start done : string) (syms : Ini.Symbols) :
  detail.replace_all ref r start = done ->
  (forall sym, In sym syms ->
               (fst sym = ref -> snd sym = r)
               /\ (fst sym <> ref -> detail.occurs (fst sym) start = false)
               /\ detail.occurs (fst sym) done = false) ->
  Closed.apply_symbols syms start =
  if existsb (fun sym => String.eqb (fst sym) ref) syms then done else start.
Proof.
  intros Hdone. induction syms as [|sym syms IH]; intros H; [reflexivity|].
  destruct (H sym (or_introl eq_refl)) as (Hr & Hother & _).
  assert (Hrest : forall s, In s syms ->
                            (fst s = ref -> snd s = r)
                            /\ (fst s <> ref -> detail.occurs (fst s) start = false)
                            /\ detail.occurs (fst s) done = false)
    by (intros s Hs; apply H; now right).
  unfold Closed.apply_symbols. cbn [fold_left existsb].
  fold (Closed.apply_symbols syms).
  destruct (String.eqb_spec (fst sym) ref) as [E | E]; cbn [orb].
  - rewrite E, (Hr E), Hdone.
    apply InterpolateClaims.apply_symbols_absent.
    intros s Hs. now apply Hrest.
  - assert (E' : detail.replace_all (fst sym) (snd sym) start = start).
    { apply scan_absent. specialize (Hother E). unfold detail.occurs in Hother.
      now destruct (Str.find0 (fst sym) start). }
    rewrite E'. now apply IH.
Qed.

Lemma find_Some_In {V : Type} (m : StdMap.t V) k v :
  StdMap.find k m = Some v -> In (k, v) m.
Proof.
  induction m as [|[k0 v0] m IH]; [discriminate|].
  cbn [StdMap.find]. destruct (String.compare k k0) eqn:C.
  - apply compare_eq in C. subst k0. intros [= ->]. now left.
  - discriminate.
  - intros H. right. now apply IH.
Qed.

Lemma In_global_symbols sym secs :
  In sym (Ini.global_symbols secs) ->
  exists sec val,
    In sec secs /\ In val (snd sec)
    /\ sym = (Ini.global_symbol (fst sec) (fst val), snd val).
Proof.
  unfold Ini.global_symbols. intros H.
  apply in_flat_map in H as (sec & Hsec & H).
  apply in_map_iff in H as (val & <- & Hval). now exists sec, val.
Qed.

Lemma plain_iff (s : string) :
  plain s = true <->
  no_char Ini.char_interpol s = true /\ no_char ":"%char s = true
  /\ no_char "}"%char s = true.
Proof. unfold plain. rewrite !andb_true_iff. tauto. Qed.

Lemma plain_names_In secs (sec : string * Ini.IniSection) :
  plain_names secs = true -> In sec secs ->
  plain (fst sec) = true
  /\ forall val, In val (snd sec) -> plain (fst val) = true.
Proof.
  unfold plain_names. rewrite forallb_forall. intros H Hin.
  specialize (H sec Hin). apply andb_true_iff in H as [H1 H2].
  split; [assumption|]. now rewrite forallb_forall in H2.
Qed.

Lemma structure_map_values (F : string * Ini.IniSection -> string -> string)
      (secs : Ini.Sections) :
  Ini.wf (map (fun sec => (fst sec, Closed.map_values (F sec) (snd sec))) secs)
    = Ini.wf secs
  /\ plain_names
       (map (fun sec => (fst sec, Closed.map_values (F sec) (snd sec))) secs)
     = plain_names secs.
Proof.
  assert (K : forall (f : string -> string) (sec : Ini.IniSection),
             StdMap.keys (Closed.map_values f sec) = StdMap.keys sec).
  { intros f sec. unfold StdMap.keys, Closed.map_values. rewrite map_map.
    now apply map_ext. }
  split.
  - unfold Ini.wf, StdMap.sorted. f_equal.
    + f_equal. unfold StdMap.keys. rewrite map_map. now apply map_ext.
    + induction secs as [|[name sec] secs IH]; [reflexivity|].
      cbn [map forallb fst snd]. now rewrite K, IH.
  - assert (P : forall (f : string -> string) (sec : Ini.IniSection),
               forallb (fun val : string * string => plain (fst val))
                       (Closed.map_values f sec) =
               forallb (fun val : string * string => plain (fst val)) sec).
    { intros f sec. unfold Closed.map_values.
      induction sec as [|[k0 v0] sec IHs]; [reflexivity|].
      cbn [map forallb fst snd]. now rewrite IHs. }
    unfold plain_names. induction secs as [|[name sec] secs IH]; [reflexivity|].
    cbn [map forallb fst snd]. now rewrite IH, P.
Qed.

Lemma no_char_join ch (s x : string) :
  Ascii.eqb ":" ch = false ->
  no_char ch (s ++ String ":" x) = no_char ch s && no_char ch x.
Proof.
  intros H. rewrite no_char_append. cbn [no_char]. now rewrite H.
Qed.

Lemma holds_facts A k v B j x secs :
  holds A k v B j x secs ->
  exists secA secB,
    StdMap.find A secs = Some secA /\ StdMap.find k secA = Some v
    /\ StdMap.find B secs = Some secB /\ StdMap.find j secB = Some x
    /\ plain A = true /\ plain k = true
    /\ (forall val, In val secB -> plain (fst val) = true).
Proof.
  intros (Hwf & Hplain & HA & HB). unfold Ini.lookup in HA, HB.
  destruct (StdMap.find A secs) as [secA|] eqn:FA; [|discriminate].
  destruct (StdMap.find B secs) as [secB|] eqn:FB; [|discriminate].
  exists secA, secB. repeat split; try assumption.
  - exact (proj1 (plain_names_In _ _ Hplain (find_Some_In _ _ _ FA))).
  - exact (proj2 (plain_names_In _ _ Hplain (find_Some_In _ _ _ FA)) (k, v)
                 (find_Some_In _ _ _ HA)).
  - exact (proj2 (plain_names_In _ _ Hplain (find_Some_In _ _ _ FB))).
Qed.

(** One resolution pass puts the value in the place of the reference,
    and leaves it there. *)
Lemma global_pass_resolves A k v B j pre post x secs :
  no_char Ini.char_interpol v = true ->
  no_char Ini.char_interpol pre = true ->
  no_char Ini.char_interpol post = true ->
  x = pre ++ Ini.global_symbol A k ++ post \/ x = pre ++ v ++ post ->
  holds A k v B j x secs ->
  holds A k v B j (pre ++ v ++ post)
    (map (fun sec =>
            (fst sec,
             Closed.map_values
               (Closed.apply_symbols (Ini.global_symbols secs)) (snd sec)))
         secs).
Proof.
  intros Hv Hpre Hpost Hx H.
  destruct (holds_facts _ _ _ _ _ _ _ H)
    as (secA & secB & FA & FK & FB & FJ & HpA & Hpk & _).
  destruct H as (Hwf & Hplain & _ & _).
  apply plain_iff in HpA as (HA1 & HA2 & HA3).
  apply plain_iff in Hpk as (Hk1 & Hk2 & Hk3).
  assert (Hdone : no_char Ini.char_interpol (pre ++ v ++ post) = true)
    by now rewrite !no_char_append, Hpre, Hv, Hpost.
  pose proof (structure_map_values
                (fun _ => Closed.apply_symbols (Ini.global_symbols secs)) secs)
    as [Ewf Eplain].
  split; [now rewrite Ewf|]. split; [now rewrite Eplain|].
  rewrite !(lookup_map_values
              (fun _ => Closed.apply_symbols (Ini.global_symbols secs))).
  rewrite FA, FK, FB, FJ. cbn [option_map]. split.
  - f_equal. apply apply_symbols_no_dollar; [apply global_symbols_dollar|].
    assumption.
  - f_equal. destruct Hx as [-> | ->].
    + rewrite (apply_symbols_single (Ini.global_symbol A k) v
                 (pre ++ Ini.global_symbol A k ++ post) (pre ++ v ++ post)).
      * replace (existsb _ (Ini.global_symbols secs)) with true; [reflexivity|].
        symmetry. apply existsb_exists. exists (Ini.global_symbol A k, v).
        split; [|apply String.eqb_refl]. unfold Ini.global_symbols.
        apply in_flat_map. exists (A, secA).
        split; [now apply find_Some_In|].
        apply in_map_iff. exists (k, v). split; [reflexivity|].
        now apply find_Some_In.
      * now apply replace_reference.
      * intros sym Hin.
        apply In_global_symbols in Hin as ([S s] & [x0 w] & Hs & Hw & ->).
        cbn [fst snd] in *.
        destruct (plain_names_In _ _ Hplain Hs) as [HpS Hpx].
        specialize (Hpx _ Hw). cbn [fst] in HpS, Hpx.
        apply plain_iff in HpS as (HS1 & HS2 & HS3).
        apply plain_iff in Hpx as (Hx1 & Hx2 & Hx3).
        split; [|split].
        -- intros E.
           apply global_symbol_inj in E as [-> ->]; try assumption.
           pose proof Hwf as Hwf'.
           apply ParseFacts.wf_iff in Hwf' as [Hsorted _].
           pose proof (DefaultSectionProps.find_In _ _ _ Hsorted Hs) as F1.
           rewrite FA in F1. injection F1 as <-.
           pose proof (DefaultSectionProps.find_In _ _ _
                         (ParseClaims.wf_find _ _ _ Hwf FA) Hw) as F2.
           congruence.
        -- intros NE.
           destruct (detail.occurs _ _) eqn:O; [exfalso|reflexivity].
           apply NE. unfold Ini.global_symbol in *. f_equal.
           apply (occurs_reference _ _ pre post); try assumption;
             unfold Ini.char_interpol_sep, Ini.char_interpol;
             rewrite no_char_join by reflexivity;
             unfold Ini.char_interpol in *;
             now rewrite ?HS3, ?Hx3, ?HA3, ?Hk3, ?HA1, ?Hk1.
        -- unfold detail.occurs. rewrite find0_no_dollar; easy.
    + apply apply_symbols_no_dollar; [apply global_symbols_dollar|].
      assumption.
Qed.

Lemma interpolate_loop_reaches (P Q : Ini.Sections -> Prop) :
  (forall secs,
      P secs ->
      Q (map (fun sec =>
                (fst sec,
                 Closed.map_values
                   (Closed.apply_symbols (Ini.global_symbols secs)) (snd sec)))
             secs)) ->
  (forall secs, Q secs -> P secs) ->
  forall fuel gi passes secs secs' n,
    Ini.interpolate_loop fuel gi passes secs = Some (secs', n) ->
    P secs -> Q secs'.
Proof.
  intros Hstep Hweak. induction fuel as [|fuel IH];
    intros gi passes secs secs' n; [discriminate|].
  cbn [Ini.interpolate_loop].
  destruct (global_pass_closed secs) as [c ->]. cbn [bind].
  destruct (c && _)%bool.
  - intros H HP. eapply IH; [exact H|]. now apply Hweak, Hstep.
  - intros [= <- <-] HP. now apply Hstep.
Qed.

Lemma interpolate_reaches (P0 P Q : Ini.Sections -> Prop) (ini : Ini.t) :
  (forall secs,
      P0 secs ->
      P (map (fun sec =>
                (fst sec, Closed.localize_section (fst sec) (snd sec)))
             secs)) ->
  (forall secs,
      P secs ->
      Q (map (fun sec =>
                (fst sec,
                 Closed.map_values
                   (Closed.apply_symbols (Ini.global_symbols secs)) (snd sec)))
             secs)) ->
  (forall secs, Q secs -> P secs) ->
  P0 (Ini.sections ini) ->
  exists ini', Ini.interpolate ini = Some ini' /\ Q (Ini.sections ini').
Proof.
  intros Hloc Hstep Hweak HP.
  destruct (InterpolateClaims.interpolate_total ini) as (ini' & n & E & _).
  exists ini'. unfold Ini.interpolate. rewrite E. split; [reflexivity|].
  revert E. unfold Ini.interpolate_passes. rewrite localize_closed.
  cbn [bind].
  destruct (Ini.interpolate_loop _ 0 0 _) as [[secs2 n2]|] eqn:L;
    [|discriminate].
  cbn [bind]. intros [= <- <-]. cbn [Ini.sections].
  eapply (interpolate_loop_reaches P Q Hstep Hweak); [exact L|].
  now apply Hloc.
Qed.

Lemma local_symbol_inj (k1 k2 : string) :
  no_char "}"%char k1 = true -> no_char "}"%char k2 = true ->
  Ini.local_symbol k1 = Ini.local_symbol k2 -> k1 = k2.
Proof.
  intros H1 H2 E. unfold Ini.local_symbol, Ini.char_interpol_end in E.
  injection E as E.
  now destruct (split_at_char _ _ _ _ _ H1 H2 E).
Qed.

Lemma not_plain_join (s x : string) : no_char ":"%char (s ++ String ":" x) = false.
Proof. rewrite no_char_append. cbn [no_char]. apply andb_false_r. Qed.

Lemma In_local_symbols sym name (sec : Ini.IniSection) :
  In sym (Ini.local_symbols name sec) ->
  exists val,
    In val sec
    /\ sym = (Ini.local_symbol (fst val), Ini.global_symbol name (fst val)).
Proof.
  unfold Ini.local_symbols. intros H.
  apply in_map_iff in H as (val & <- & Hval). now exists val.
Qed.

(** The localization pass leaves a cross reference as it is. *)
Lemma localize_keeps_cross_reference A k v B j pre post secs :
  no_char Ini.char_interpol v = true ->
  no_char Ini.char_interpol pre = true ->
  no_char Ini.char_interpol post = true ->
  holds A k v B j (pre ++ Ini.global_symbol A k ++ post) secs ->
  holds A k v B j (pre ++ Ini.global_symbol A k ++ post)
    (map (fun sec => (fst sec, Closed.localize_section (fst sec) (snd sec)))
         secs).
Proof.
  intros Hv Hpre Hpost H.
  destruct (holds_facts _ _ _ _ _ _ _ H)
    as (secA & secB & FA & FK & FB & FJ & HpA & Hpk & HpB).
  destruct H as (Hwf & Hplain & _ & _).
  apply plain_iff in HpA as (HA1 & HA2 & HA3).
  apply plain_iff in Hpk as (Hk1 & Hk2 & Hk3).
  unfold Closed.localize_section.
  pose proof (structure_map_values
                (fun sec => Closed.apply_symbols
                              (Ini.local_symbols (fst sec) (snd sec))) secs)
    as [Ewf Eplain].
  split; [now rewrite Ewf|]. split; [now rewrite Eplain|].
  rewrite !(lookup_map_values
              (fun sec => Closed.apply_symbols
                            (Ini.local_symbols (fst sec) (snd sec)))).
  rewrite FA, FK, FB, FJ. cbn [option_map fst snd]. split; f_equal.
  - apply apply_symbols_no_dollar; [apply local_symbols_dollar | assumption].
  - apply InterpolateClaims.apply_symbols_absent. intros sym Hin.
    apply In_local_symbols in Hin as ([k' w] & Hw & ->). cbn [fst snd].
    specialize (HpB _ Hw). cbn [fst] in HpB.
    apply plain_iff in HpB as (Hp1 & Hp2 & Hp3).
    destruct (detail.occurs _ _) eqn:O; [exfalso|reflexivity].
    unfold Ini.global_symbol in O.
    apply occurs_reference in O; try assumption.
    + subst k'. unfold Ini.char_interpol_sep in Hp2.
      now rewrite not_plain_join in Hp2.
    + unfold Ini.char_interpol_sep. rewrite no_char_join by reflexivity.
      now rewrite HA3, Hk3.
    + unfold Ini.char_interpol_sep, Ini.char_interpol in *.
      rewrite no_char_join by reflexivity. now rewrite HA1, Hk1.
Qed.

(** The localization pass turns a bare reference to a key of the same
    section into the cross reference. *)
Lemma localize_local_reference S k v j pre post secs :
  no_char Ini.char_interpol v = true ->
  no_char Ini.char_interpol pre = true ->
  no_char Ini.char_interpol post = true ->
  holds S k v S j (pre ++ Ini.local_symbol k ++ post) secs ->
  holds S k v S j (pre ++ Ini.global_symbol S k ++ post)
    (map (fun sec => (fst sec, Closed.localize_section (fst sec) (snd sec)))
         secs).
Proof.
  intros Hv Hpre Hpost H.
  destruct (holds_facts _ _ _ _ _ _ _ H)
    as (secA & secB & FA & FK & FB & FJ & HpS & Hpk & HpB).
  rewrite FA in FB. injection FB as <-.
  destruct H as (Hwf & Hplain & _ & _).
  apply plain_iff in HpS as (HS1 & HS2 & HS3).
  apply plain_iff in Hpk as (Hk1 & Hk2 & Hk3).
  unfold Closed.localize_section.
  pose proof (structure_map_values
                (fun sec => Closed.apply_symbols
                              (Ini.local_symbols (fst sec) (snd sec))) secs)
    as [Ewf Eplain].
  split; [now rewrite Ewf|]. split; [now rewrite Eplain|].
  rewrite !(lookup_map_values
              (fun sec => Closed.apply_symbols
                            (Ini.local_symbols (fst sec) (snd sec)))).
  rewrite FA, FK, FJ. cbn [option_map fst snd]. split; f_equal.
  - apply apply_symbols_no_dollar; [apply local_symbols_dollar | assumption].
  - rewrite (apply_symbols_single (Ini.local_symbol k) (Ini.global_symbol S k)
               (pre ++ Ini.local_symbol k ++ post)
               (pre ++ Ini.global_symbol S k ++ post)).
    + replace (existsb _ (Ini.local_symbols S secA)) with true; [reflexivity|].
      symmetry. apply existsb_exists.
      exists (Ini.local_symbol k, Ini.global_symbol S k).
      split; [|apply String.eqb_refl]. unfold Ini.local_symbols.
      apply in_map_iff. exists (k, v). split; [reflexivity|].
      now apply find_Some_In.
    + now apply replace_reference.
    + intros sym Hin.
      apply In_local_symbols in Hin as ([k' w] & Hw & ->). cbn [fst snd].
      specialize (HpB _ Hw). cbn [fst] in HpB.
      apply plain_iff in HpB as (Hp1 & Hp2 & Hp3).
      split; [|split].
      * intros E. apply local_symbol_inj in E; try assumption. now subst k'.
      * intros NE. destruct (detail.occurs _ _) eqn:O; [exfalso|reflexivity].
        apply NE. f_equal. now apply (occurs_reference _ _ pre post).
      * destruct (detail.occurs _ _) eqn:O; [exfalso|reflexivity].
        unfold Ini.global_symbol in O.
        apply occurs_reference in O; try assumption.
        -- subst k'. unfold Ini.char_interpol_sep in Hp2.
           now rewrite not_plain_join in Hp2.
        -- unfold Ini.char_interpol_sep. rewrite no_char_join by reflexivity.
           now rewrite HS3, Hk3.
        -- unfold Ini.char_interpol_sep, Ini.char_interpol in *.
           rewrite no_char_join by reflexivity. now rewrite HS1, Hk1.
Qed.

(** X26.  In a Document with plain section names and keys, a cross reference
    [${A:k}] to a value [v] without references, standing in a value
    between texts without [$], is replaced by [v]. *)
Theorem cross_reference_resolves
        (ini : Ini.t) (A k v B j pre post : string) :
  Ini.wf (Ini.sections ini) = true ->
  plain_names (Ini.sections ini) = true ->
  Ini.lookup A k (Ini.sections ini) = Some v ->
  no_char Ini.char_interpol v = true ->
  Ini.lookup B j (Ini.sections ini) =
    Some (pre ++ Ini.global_symbol A k ++ post) ->
  no_char Ini.char_interpol pre = true ->
  no_char Ini.char_interpol post = true ->
  exists ini',
    Ini.interpolate ini = Some ini'
    /\ Ini.lookup B j (Ini.sections ini') = Some (pre ++ v ++ post).
Proof.
  intros Hwf Hplain HA Hv HB Hpre Hpost.
  destruct (interpolate_reaches
              (holds A k v B j (pre ++ Ini.global_symbol A k ++ post))
              (fun secs =>
                 exists x,
                   (x = pre ++ Ini.global_symbol A k ++ post
                    \/ x = pre ++ v ++ post)
                   /\ holds A k v B j x secs)
              (holds A k v B j (pre ++ v ++ post)) ini)
    as (ini' & E & H).
  - intros secs H. eexists. split; [left; reflexivity|].
    now apply localize_keeps_cross_reference.
  - intros secs (x & Hx & H). now apply global_pass_resolves with x.
  - intros secs H. eexists. split; [right; reflexivity | exact H].
  - now repeat split.
  - exists ini'. split; [exact E|]. now destruct H as (_ & _ & _ & H).
Qed.

Lemma cross_reference_resolves_witness :
  exists ini',
    Ini.interpolate
      (Ini.mk [("default", [("ip", "127.0.0.1")]);
               ("net", [("address", "${default:ip}:80")])] []) = Some ini'
    /\ Ini.lookup "net" "address" (Ini.sections ini') = Some "127.0.0.1:80".
Proof.
  exact (cross_reference_resolves
           (Ini.mk [("default", [("ip", "127.0.0.1")]);
                    ("net", [("address", "${default:ip}:80")])] [])
           "default" "ip" "127.0.0.1" "net" "address" "" ":80"
           eq_refl eq_refl eq_refl eq_refl eq_refl eq_refl eq_refl).
Defined.

(** X27.  In a Document with plain section names and keys, a bare reference
    [${k}] to a key of the same section whose value [v] has no
    references, standing in a value between texts without [$], is
    replaced by [v]. *)
Theorem local_reference_resolves
        (ini : Ini.t) (S k v j pre post : string) :
  Ini.wf (Ini.sections ini) = true ->
  plain_names (Ini.sections ini) = true ->
  Ini.lookup S k (Ini.sections ini) = Some v ->
  no_char Ini.char_interpol v = true ->
  Ini.lookup S j (Ini.sections ini) = Some (pre ++ Ini.local_symbol k ++ post) ->
  no_char Ini.char_interpol pre = true ->
  no_char Ini.char_interpol post = true ->
  exists ini',
    Ini.interpolate ini = Some ini'
    /\ Ini.lookup S j (Ini.sections ini') = Some (pre ++ v ++ post).
Proof.
  intros Hwf Hplain HA Hv HB Hpre Hpost.
  destruct (interpolate_reaches
              (holds S k v S j (pre ++ Ini.local_symbol k ++ post))
              (fun secs =>
                 exists x,
                   (x = pre ++ Ini.global_symbol S k ++ post
                    \/ x = pre ++ v ++ post)
                   /\ holds S k v S j x secs)
              (holds S k v S j (pre ++ v ++ post)) ini)
    as (ini' & E & H).
  - intros secs H. eexists. split; [left; reflexivity|].
    now apply localize_local_reference.
  - intros secs (x & Hx & H). now apply global_pass_resolves with x.
  - intros secs H. eexists. split; [right; reflexivity | exact H].
  - now repeat split.
  - exists ini'. split; [exact E|]. now destruct H as (_ & _ & _ & H).
Qed.

Lemma local_reference_resolves_witness :
  exists ini',
    Ini.interpolate (Ini.mk [("s", [("a", "1"); ("b", "<${a}>")])] []) =
    Some ini'
    /\ Ini.lookup "s" "b" (Ini.sections ini') = Some "<1>".
Proof.
  exact (local_reference_resolves
           (Ini.mk [("s", [("a", "1"); ("b", "<${a}>")])] [])
           "s" "a" "1" "b" "<" ">"
           eq_refl eq_refl eq_refl eq_refl eq_refl eq_refl eq_refl).
Defined.

(** *** What interpolate leaves alone *)

(** X20.  [interpolate] always returns and touches values only: the section
    names, the keys of every section, their order and the error log
    are the same afterwards. *)
Theorem interpolate_keeps_names_and_keys (ini : Ini.t) :
  exists ini',
    Ini.interpolate ini = Some ini'
    /\ shape (Ini.sections ini') = shape (Ini.sections ini)
    /\ Ini.wf (Ini.sections ini') = Ini.wf (Ini.sections ini)
    /\ Ini.errors ini' = Ini.errors ini.
Proof.
  destruct (interpolate_invariant
              (fun secs => shape secs = shape (Ini.sections ini)
                           /\ Ini.wf secs = Ini.wf (Ini.sections ini)) ini)
    as (ini' & E & [H1 H2] & H3).
  - intros secs [H1 H2]. unfold Closed.localize_section.
    rewrite (shape_map_values
               (fun sec => Closed.apply_symbols
                             (Ini.local_symbols (fst sec) (snd sec)))).
    now rewrite (proj1 (structure_map_values
                          (fun sec => Closed.apply_symbols
                                        (Ini.local_symbols (fst sec) (snd sec)))
                          secs)).
  - intros secs [H1 H2].
    rewrite (shape_map_values
               (fun _ => Closed.apply_symbols (Ini.global_symbols secs))).
    now rewrite (proj1 (structure_map_values
                          (fun _ => Closed.apply_symbols
                                      (Ini.global_symbols secs)) secs)).
  - now split.
  - now exists ini'.
Qed.

End InterpolateProps.

(** ** References and the localization pass *)

Module ReferenceFacts.
Import StrFacts ReplaceFacts MapFacts TrimFacts InterpolateFacts.
Import Canonical Text References.
Import InterpolateProps.



























End ReferenceFacts.

Module LocalizeClaims.
Import StrFacts InterpolateFacts.
Import Canonical Text References.
Import InterpolateProps ReferenceFacts.




End LocalizeClaims.
